(** * session2/fitting.py: the reinforcement-learning choice model and its fit

    A shallow embedding of [src/session2/fitting.py], and of the matrix
    of log likelihoods that [plot_likelihood_landscapes] of
    [src/part2/plotting.py] computes from its loss.

    Numbers.  The data arrays and the loss on real-valued parameters are
    modelled in exact real arithmetic ([R]): rounding and overflow are
    outside this model.  NaN and the infinities are inside it wherever the
    program can meet them: the parameters, updates, gradients and losses of
    the optimizer loop, of the fit functions and of the multi-start selection
    are floating-point values ([xfloat]), and [IEEE.loss_RL_model] is the
    loss at such parameters.

    Errors.  A Python exception (a shape error raised by NumPy/JAX, a missing
    key) is [None] in an [option] result.  The mean of an empty array, NaN in
    the source, has no real value and is [None] as well. *)

From Stdlib Require Import String Ascii Reals Lra Lia Bool ZArith Arith List.
Import ListNotations.

Set Warnings "-register-all".
Open Scope R_scope.

(* ===================================================================== *)
(** ** Option as the exception monad *)
(* ===================================================================== *)

Definition obind {A B : Type} (m : option A) (k : A -> option B) : option B :=
  match m with
  | Some a => k a
  | None => None
  end.

Notation "x <- m ;; k" := (obind m (fun x => k))
  (at level 61, m at next level, right associativity).
Notation "' p <- m ;; k" := (obind m (fun x => let p := x in k))
  (at level 61, p pattern, m at next level, right associativity).

(* ===================================================================== *)
(** ** One-dimensional arrays *)
(* ===================================================================== *)

Definition array := list R.

Fixpoint zip_with (f : R -> R -> R) (xs ys : array) : array :=
  match xs, ys with
  | x :: xs', y :: ys' => f x y :: zip_with f xs' ys'
  | _, _ => []
  end.

(** An elementwise binary operation on two 1-d arrays under NumPy's
    broadcasting rule: equal lengths combine position by position, a
    length-1 operand is stretched, anything else raises. *)
Definition broadcast2 (f : R -> R -> R) (xs ys : array) : option array :=
  if Nat.eqb (length xs) (length ys) then Some (zip_with f xs ys)
  else if Nat.eqb (length xs) 1 then Some (map (f (hd 0 xs)) ys)
  else if Nat.eqb (length ys) 1 then Some (map (fun x => f x (hd 0 ys)) xs)
  else None.

Definition sum_array (xs : array) : R := fold_right Rplus 0 xs.

(** [a.mean()]; the mean of an empty array is NaN in the source. *)
Definition mean (xs : array) : option R :=
  match xs with
  | [] => None
  | _ => Some (sum_array xs / INR (length xs))
  end.

(** [jax.lax.scan f init xs]: thread a carry through [xs], collect the
    second components. *)
Fixpoint scan {C X Y : Type} (f : C -> X -> C * Y) (init : C) (xs : list X)
  : C * list Y :=
  match xs with
  | [] => (init, [])
  | x :: xs' =>
      let (c, y) := f init x in
      let (c', ys) := scan f c xs' in
      (c', y :: ys)
  end.

(** [jnp.arange(n)] *)
Definition arange (n : nat) : list nat := seq 0 n.

(** [a[t]] for an index produced by [arange (len a)]; under [jit] JAX clamps
    an index past the end to the last element. *)
Definition getitem (a : array) (t : nat) : R :=
  nth (Nat.min t (length a - 1)) a 0.

(* ===================================================================== *)
(** ** Floating-point values *)
(* ===================================================================== *)

(** A floating-point value: a real number (its rounding is not modelled),
    an infinity or NaN. *)
Inductive xfloat : Type :=
| Fin (r : R)
| PInf
| NInf
| NaN.

Definition isnan (x : xfloat) : bool :=
  match x with NaN => true | _ => false end.

Definition isfinite (x : xfloat) : bool :=
  match x with Fin _ => true | _ => false end.

(** IEEE [x < y]: false as soon as one side is NaN. *)
Definition xlt (x y : xfloat) : bool :=
  match x, y with
  | NaN, _ | _, NaN => false
  | _, NInf => false
  | NInf, _ => true
  | PInf, _ => false
  | Fin _, PInf => true
  | Fin a, Fin b => if Rlt_dec a b then true else false
  end.

Definition Rge_bool (x y : R) : bool := if Rge_dec x y then true else false.

(** IEEE [x >= y]: false as soon as one side is NaN. *)
Definition xge (x y : xfloat) : bool :=
  match x, y with
  | NaN, _ | _, NaN => false
  | PInf, _ => true
  | _, NInf => true
  | NInf, _ => false
  | Fin _, PInf => false
  | Fin a, Fin b => Rge_bool a b
  end.

Definition xopp (x : xfloat) : xfloat :=
  match x with
  | Fin r => Fin (- r)
  | PInf => NInf
  | NInf => PInf
  | NaN => NaN
  end.

(** IEEE [x + y]: NaN is absorbing and [inf + -inf] is NaN. *)
Definition xadd (x y : xfloat) : xfloat :=
  match x, y with
  | NaN, _ | _, NaN => NaN
  | Fin a, Fin b => Fin (a + b)
  | PInf, NInf | NInf, PInf => NaN
  | PInf, _ | _, PInf => PInf
  | NInf, _ | _, NInf => NInf
  end.

Definition xsub (x y : xfloat) : xfloat := xadd x (xopp y).

(** An infinity times the real number [a]. *)
Definition scale_inf (inf : xfloat) (a : R) : xfloat :=
  if Req_dec_T a 0 then NaN
  else if Rlt_dec 0 a then inf else xopp inf.

(** IEEE [x * y]: NaN is absorbing and [0 * inf] is NaN. *)
Definition xmul (x y : xfloat) : xfloat :=
  match x, y with
  | NaN, _ | _, NaN => NaN
  | Fin a, Fin b => Fin (a * b)
  | Fin a, inf | inf, Fin a => scale_inf inf a
  | PInf, PInf | NInf, NInf => PInf
  | PInf, NInf | NInf, PInf => NInf
  end.

(** IEEE [sqrt]: NaN below 0. *)
Definition xsqrt (x : xfloat) : xfloat :=
  match x with
  | Fin r => if Rlt_dec r 0 then NaN else Fin (sqrt r)
  | PInf => PInf
  | NInf | NaN => NaN
  end.

(** [jnp.maximum] and [jnp.minimum]: NaN as soon as one side is NaN. *)
Definition xmaximum (x y : xfloat) : xfloat :=
  if isnan x || isnan y then NaN else if xlt x y then y else x.

Definition xminimum (x y : xfloat) : xfloat :=
  if isnan x || isnan y then NaN else if xlt y x then y else x.

Definition farray := list xfloat.

(* ===================================================================== *)
(** ** Parameter dictionaries (pytrees of nested dicts) *)
(* ===================================================================== *)

(** A leaf is a one-element array ([shape=(1,)]), written as its element:
    a real number where the loss is studied in exact arithmetic, a
    floating-point value in the optimizer loop and in the fit functions. *)
Inductive tree (A : Type) : Type :=
| Leaf (v : A)
| Dict (items : list (string * tree A)).
Arguments Leaf {A} v.
Arguments Dict {A} items.

Definition ptree : Type := tree R.
Definition ftree : Type := tree xfloat.

(** All values stored under key [key], at any depth
    ([optax.tree_utils.tree_get_all_with_path]). *)
Fixpoint tree_get_all {A : Type} (t : tree A) (key : string)
  : list (tree A) :=
  match t with
  | Leaf _ => []
  | Dict items =>
      flat_map (fun kv =>
                  (if String.eqb (fst kv) key then [snd kv] else [])
                  ++ tree_get_all (snd kv) key) items
  end.

(** [otu.tree_get(tree, key)[0]]: the unique value under [key], which must
    be a leaf array.  Several matches raise [KeyError]; no match returns
    [None], which cannot be indexed. *)
Definition tree_get_0 {A : Type} (t : tree A) (key : string) : option A :=
  match tree_get_all t key with
  | [Leaf v] => Some v
  | _ => None
  end.

(* ===================================================================== *)
(** ** utility_fun and loss_RL_model *)
(* ===================================================================== *)

(** A utility function maps a magnitude array and a probability array to a
    utility array (or raises). *)
Definition utility_function_t := array -> array -> option array.

(** [utility_fun(mag, prob) = mag*prob] *)
Definition utility_fun : utility_function_t := broadcast2 Rmult.

(** The four arrays of one participant:
    [(opt1Rewarded, magOpt1, magOpt2, choice1)]. *)
Definition trial_data := (array * array * array * array)%type.

(** The step function of the scan. *)
Definition compute_probOpt1 (opt1Rewarded : array) (alpha : R)
  (carry : R) (t : nat) : R * R :=
  let probOpt1 := carry in
  let delta := getitem opt1Rewarded t - probOpt1 in
  let probOpt1 := probOpt1 + alpha * delta in
  (probOpt1, probOpt1).

(** Lines 73-76: the scan over [arange(nTrials)], then
    [concatenate([[startingProb], probOpt1[:-1]])]. *)
Definition belief_trajectory (opt1Rewarded : array) (alpha startingProb : R)
  : array :=
  let nTrials := length opt1Rewarded in
  let probOpt1 :=
    snd (scan (compute_probOpt1 opt1Rewarded alpha) startingProb
           (arange nTrials)) in
  [startingProb] ++ removelast probOpt1.

(** [jax.nn.log_sigmoid(x) = -softplus(-x) = -log(1 + exp(-x))] *)
Definition log_sigmoid (x : R) : R := - ln (1 + exp (- x)).

(** [optax.sigmoid_binary_cross_entropy(logits, labels)], elementwise:
    [-labels * log_p - (1 - labels) * log_not_p]. *)
Definition sigmoid_binary_cross_entropy1 (logit label : R) : R :=
  let log_p := log_sigmoid logit in
  let log_not_p := log_sigmoid (- logit) in
  - label * log_p - (1 - label) * log_not_p.

Definition sigmoid_binary_cross_entropy (logits labels : array)
  : option array :=
  broadcast2 sigmoid_binary_cross_entropy1 logits labels.

Definition loss_RL_model (data : trial_data) (params : ptree)
  (startingProb : R) (utility_function : utility_function_t) : option R :=
  let '(opt1Rewarded, magOpt1, magOpt2, choice1) := data in
  alpha <- tree_get_0 params "alpha" ;;
  beta <- tree_get_0 params "beta" ;;
  let probOpt1 := belief_trajectory opt1Rewarded alpha startingProb in
  utility1 <- utility_function magOpt1 probOpt1 ;;
  utility2 <- utility_function magOpt2 (map (fun p => 1 - p) probOpt1) ;;
  diff <- broadcast2 Rminus utility1 utility2 ;;
  let choice1Logits := map (fun d => beta * d) diff in
  losses <- sigmoid_binary_cross_entropy choice1Logits choice1 ;;
  mean losses.

(** The shared-alpha parameter dictionary [{'alpha': a, 'beta': b}]. *)
Definition params_ab {A : Type} (alpha beta : A) : tree A :=
  Dict [("alpha"%string, Leaf alpha); ("beta"%string, Leaf beta)].

(** *** The loss as the specification words it *)

Definition sigmoid (x : R) : R := 1 / (1 + exp (- x)).

(** Binary cross-entropy between a predicted probability [p] and a label. *)
Definition binary_cross_entropy (p label : R) : R :=
  - (label * ln p + (1 - label) * ln (1 - p)).

(** The belief trajectory as the specification words it: one belief per
    trial; the first is the starting probability, and the outcome of a trial
    moves the belief of the next trial towards it by the fraction
    [alpha]. *)
Fixpoint spec_beliefs (rewarded1 : array) (alpha p : R) : array :=
  match rewarded1 with
  | [] => []
  | r :: rest => p :: spec_beliefs rest alpha (p + alpha * (r - p))
  end.

(** Mean over trials of the cross-entropy between
    [sigmoid (beta * (U(mag1, probOpt1) - U(mag2, 1 - probOpt1)))] and
    [choice1]: the cross-entropies of the trials, summed and divided by the
    number of trials. *)
Definition spec_loss (data : trial_data) (alpha beta : R)
  (startingProb : R) (U : utility_function_t) : option R :=
  let '(rewarded1, mag1, mag2, choice1) := data in
  let probOpt1 := spec_beliefs rewarded1 alpha startingProb in
  match U mag1 probOpt1, U mag2 (map (fun p => 1 - p) probOpt1) with
  | Some u1, Some u2 =>
      let ces :=
        map (fun '(a, b, c) =>
               binary_cross_entropy (sigmoid (beta * (a - b))) c)
          (combine (combine u1 u2) choice1) in
      Some (fold_left Rplus ces 0 / INR (length rewarded1))
  | _, _ => None
  end.

(** Entries that are 0 or 1 ([rewarded1], [choice1] of a TrialBatch). *)
Definition binary (x : R) : Prop := x = 0 \/ x = 1.

(** The recurrence of the specification, section 4.1, as it is worded: a
    belief sequence with
    [belief[t] = belief[t-1] + alpha * (rewarded1[t-1] - belief[t-1])] and
    [probOpt1[t] = belief[t-1]] for [t >= 1], and [probOpt1[0] = p0]. *)
Definition spec_lagged_recurrence (rewarded1 : array) (alpha p0 : R)
  (probOpt1 : array) : Prop :=
  nth 0 probOpt1 0 = p0 /\
  exists belief : nat -> R,
    (forall t, (1 <= t < length rewarded1)%nat ->
       belief t = belief (t - 1)%nat
                  + alpha * (nth (t - 1) rewarded1 0 - belief (t - 1)%nat)) /\
    (forall t, (1 <= t < length rewarded1)%nat ->
       nth t probOpt1 0 = belief (t - 1)%nat).

(* ===================================================================== *)
(** ** run_opt: the projected optimizer loop *)
(* ===================================================================== *)

(** The bound specification
    [{'alphaMin': _, 'alphaMax': _, 'betaMin': _, 'betaMax': _}]. *)
Record ParamsClip : Type := {
  alphaMin : R;
  alphaMax : R;
  betaMin : R;
  betaMax : R
}.

(** The default argument of [run_opt] and of the fit functions. *)
Definition default_paramsClip : ParamsClip :=
  {| alphaMin := 0; alphaMax := 1; betaMin := 0; betaMax := 1 |}.

(** Python's [sub in s] on strings. *)
Fixpoint contains (sub s : string) : bool :=
  prefix sub s ||
  match s with
  | EmptyString => false
  | String _ s' => contains sub s'
  end.

(** [jnp.clip(x, lo, hi) = minimum(maximum(x, lo), hi)], on real numbers
    and on floating-point values, where a NaN stays a NaN. *)
Class Clip (A : Type) := clip : A -> R -> R -> A.

#[global] Instance clip_real : Clip R :=
  fun x lo hi => Rmin (Rmax x lo) hi.

#[global] Instance clip_float : Clip xfloat :=
  fun x lo hi => xminimum (xmaximum x (Fin lo)) (Fin hi).

Definition clip_param {A : Type} `{Clip A} (paramsClip : ParamsClip)
  (param : A) (name : string) : A :=
  if contains "alpha" name then
    clip param (alphaMin paramsClip) (alphaMax paramsClip)
  else if contains "beta" name then
    clip param (betaMin paramsClip) (betaMax paramsClip)
  else param.

(** [path + '.' + k if path else k] *)
Definition child_path (path k : string) : string :=
  match path with
  | EmptyString => k
  | _ => (path ++ "." ++ k)%string
  end.

Fixpoint apply_clip {A : Type} `{Clip A} (paramsClip : ParamsClip)
  (params : tree A) (path : string) : tree A :=
  match params with
  | Dict items =>
      Dict (map (fun kv =>
                   (fst kv,
                    apply_clip paramsClip (snd kv) (child_path path (fst kv))))
              items)
  | Leaf param => Leaf (clip_param paramsClip param path)
  end.

Definition project_params {A : Type} `{Clip A} (params : tree A)
  (paramsClip : ParamsClip) : tree A :=
  apply_clip paramsClip params "".

(** The fields of a parameter dictionary: every leaf with the dotted path
    [apply_clip] computes for it (for a flat dictionary, its key). *)
Fixpoint fields {A : Type} (params : tree A) (path : string)
  : list (string * A) :=
  match params with
  | Dict items =>
      flat_map (fun kv => fields (snd kv) (child_path path (fst kv))) items
  | Leaf v => [(path, v)]
  end.

(** Two dictionaries combined entry by entry, in the order of their keys;
    different key sets raise. *)
Section ZipItems.

Variable combine_values : ftree -> ftree -> option ftree.

Fixpoint zip_items (ps us : list (string * ftree)) {struct ps}
  : option (list (string * ftree)) :=
  match ps, us with
  | [], [] => Some []
  | (k, p) :: ps', (k', u) :: us' =>
      if String.eqb k k' then
        p' <- combine_values p u ;;
        r <- zip_items ps' us' ;;
        Some ((k, p') :: r)
      else None
  | _, _ => None
  end.

End ZipItems.

(** [optax.apply_updates(params, updates)]: [p + u] leaf by leaf over two
    pytrees of one structure; a structure mismatch raises. *)
Fixpoint apply_updates (params updates : ftree) {struct params}
  : option ftree :=
  match params, updates with
  | Leaf p, Leaf u => Some (Leaf (xadd p u))
  | Dict ps, Dict us => option_map Dict (zip_items apply_updates ps us)
  | _, _ => None
  end.

(** [jax.tree_util.tree_map(f, tree)] *)
Fixpoint tree_map {A B : Type} (f : A -> B) (t : tree A) : tree B :=
  match t with
  | Leaf v => Leaf (f v)
  | Dict items => Dict (map (fun kv => (fst kv, tree_map f (snd kv))) items)
  end.

Fixpoint tree_leaves {A : Type} (t : tree A) : list A :=
  match t with
  | Leaf v => [v]
  | Dict items => flat_map (fun kv => tree_leaves (snd kv)) items
  end.

(** [otu.tree_l2_norm]: the Euclidean norm of the flattened tree; NaN as
    soon as one leaf is NaN. *)
Definition tree_l2_norm (t : ftree) : xfloat :=
  xsqrt (fold_right xadd (Fin 0) (map (fun x => xmul x x) (tree_leaves t))).

(** What [run_opt] uses of optax: an [optax.GradientTransformation] ([init],
    [update]) together with the optax functions that read its state,
    [otu.tree_get(state, 'count')], [otu.tree_get(state, 'grad')] and
    [optax.value_and_grad_from_state]. *)
Record GradientTransformation : Type := {
  opt_state : Type;
  init : ftree -> opt_state;
  (** [update(grad, state, params, value=, grad=, value_fn=)] *)
  update : ftree -> opt_state -> ftree -> xfloat -> ftree
           -> (ftree -> xfloat) -> ftree * opt_state;
  tree_get_count : opt_state -> Z;
  tree_get_grad : opt_state -> ftree;
  value_and_grad_from_state : (ftree -> xfloat) -> ftree -> opt_state
                              -> xfloat * ftree
}.

Definition carry_t (opt : GradientTransformation) : Type :=
  (ftree * opt_state opt)%type.

Definition step (opt : GradientTransformation) (fun_ : ftree -> xfloat)
  (paramsClip : ParamsClip) (carry : carry_t opt) : option (carry_t opt) :=
  let '(params, state) := carry in
  let '(value, grad) := value_and_grad_from_state opt fun_ params state in
  let '(updates, state) := update opt grad state params value grad fun_ in
  params <- apply_updates params updates ;;
  let params := project_params params paramsClip in
  Some (params, state).

Definition continuing_criterion (opt : GradientTransformation)
  (max_iter : Z) (tol : R) (carry : carry_t opt) : bool :=
  let '(_, state) := carry in
  let iter_num := tree_get_count opt state in
  let grad := tree_get_grad opt state in
  let err := tree_l2_norm grad in
  (iter_num =? 0)%Z || ((iter_num <? max_iter)%Z && xge err (Fin tol)).

(** [jax.lax.while_loop(cond_fun, body_fun, init_val)].  The loop need not
    terminate; [fuel] bounds the number of body executions, and [None] is
    either an exception raised by the body or the fuel running out. *)
Fixpoint while_loop {C : Type} (fuel : nat) (cond_fun : C -> bool)
  (body_fun : C -> option C) (val : C) : option C :=
  if cond_fun val then
    match fuel with
    | O => None
    | S fuel' =>
        val' <- body_fun val ;;
        while_loop fuel' cond_fun body_fun val'
    end
  else Some val.

Definition run_opt (fuel : nat) (init_params : ftree)
  (fun_ : ftree -> xfloat)
  (opt : GradientTransformation) (max_iter : Z) (tol : R)
  (paramsClip : ParamsClip) : option (carry_t opt) :=
  let init_carry := (init_params, init opt init_params) in
  while_loop fuel (continuing_criterion opt max_iter tol)
    (step opt fun_ paramsClip) init_carry.

(** The carry after exactly [n] executions of the loop body. *)
Fixpoint iterate {C : Type} (body_fun : C -> option C) (n : nat) (val : C)
  : option C :=
  match n with
  | O => Some val
  | S n' => val' <- iterate body_fun n' val ;; body_fun val'
  end.

(** *** Bound containment *)

Definition in_interval (lo hi x : R) : Prop := lo <= x <= hi.

(** A floating-point value that is a real number of the interval, and one
    that is such a number or NaN. *)
Definition real_within (lo hi : R) (x : xfloat) : Prop :=
  exists r, x = Fin r /\ in_interval lo hi r.

Definition nan_or_within (lo hi : R) (x : xfloat) : Prop :=
  x = NaN \/ real_within lo hi x.

(** The containment the specification words: every field whose name contains
    "alpha" within the alpha bounds and every field whose name contains
    "beta" within the beta bounds. *)
Definition within_bounds (paramsClip : ParamsClip) (params : ftree) : Prop :=
  forall name v, In (name, v) (fields params "") ->
    (contains "alpha" name = true ->
       real_within (alphaMin paramsClip) (alphaMax paramsClip) v) /\
    (contains "beta" name = true ->
       real_within (betaMin paramsClip) (betaMax paramsClip) v).

(** The containment [clip_param] leaves on floating-point parameters, for a
    notion [inside lo hi] of lying in an interval: the beta bounds apply to
    the fields whose name contains "beta" and does not contain "alpha". *)
Definition clip_bounds (inside : R -> R -> xfloat -> Prop)
  (paramsClip : ParamsClip) (params : ftree) : Prop :=
  forall name v, In (name, v) (fields params "") ->
    (contains "alpha" name = true ->
       inside (alphaMin paramsClip) (alphaMax paramsClip) v) /\
    (contains "alpha" name = false -> contains "beta" name = true ->
       inside (betaMin paramsClip) (betaMax paramsClip) v).


(** The contract of an optax optimizer that [run_opt] relies on: the
    iteration count starts at 0 and grows by one with each [update], and the
    updates have the structure of the parameters. *)
Record lawful (opt : GradientTransformation) : Prop := {
  count_init : forall p, tree_get_count opt (init opt p) = 0%Z;
  count_update : forall g s p v g' f,
      tree_get_count opt (snd (update opt g s p v g' f))
      = (tree_get_count opt s + 1)%Z;
  updates_fit : forall g s p v g' f,
      apply_updates p (fst (update opt g s p v g' f)) <> None
}.

(* ===================================================================== *)
(** ** Multi-start selection: fit_with_multiple_initial_values *)
(* ===================================================================== *)

(** [jnp.argmin] of a 1-d array: the index of the first minimum, a NaN
    counting as smaller than everything else; [argmin_from] scans the
    entries from position [i] on with the running best index and value.  An
    empty array raises. *)
Fixpoint argmin_from (xs : list xfloat) (i best : nat) (bestv : xfloat) : nat :=
  match xs with
  | [] => best
  | x :: xs' =>
      if xlt x bestv || (isnan x && negb (isnan bestv))
      then argmin_from xs' (S i) i x
      else argmin_from xs' (S i) best bestv
  end.

Definition argmin (xs : list xfloat) : option nat :=
  match xs with
  | [] => None
  | x :: xs' => Some (argmin_from xs' 1 0 x)
  end.

(** [jnp.nanargmin]: NaN entries are replaced by [+inf] before [argmin]; an
    all-NaN array gives [-1]. *)
Definition nanargmin (a : list xfloat) : option Z :=
  let nan_mask := map isnan a in
  let a := map (fun x => if isnan x then PInf else x) a in
  res <- argmin a ;;
  Some (if forallb (fun b => b) nan_mask then (-1)%Z else Z.of_nat res).

(** [col[i]] for a traced integer [i]: a negative index counts from the end,
    and the result is clamped into the array. *)
Definition index_dyn {A : Type} (col : list A) (i : Z) : option A :=
  let n := Z.of_nat (length col) in
  let i := if (i <? 0)%Z then (i + n)%Z else i in
  let i := Z.max 0 (Z.min i (n - 1)) in
  nth_error col (Z.to_nat i).

(** A Python dict with string keys; [d[k]] raises [KeyError] when absent. *)
Fixpoint dict_get {V : Type} (k : string) (d : list (string * V)) : option V :=
  match d with
  | [] => None
  | (k', v) :: d' => if String.eqb k k' then Some v else dict_get k d'
  end.

(** The [fit_model] argument, compared by identity in the source. *)
Inductive fit_model_t : Type :=
| fit_model_same_alpha
| fit_model_alpha_difference
| other_callable.

(** The output of a vmapped fit: one column per parameter name, one entry
    per lane. *)
Definition batched_params := list (string * list xfloat).

(** One selected parameter vector. *)
Definition param_vector := list (string * xfloat).

(** [jax.vmap(fit_model)(data, initial_rngs)] without its middle component
    (the optimizer states): the fit functions run in floating point on the
    optimizer of optax, so the selection is stated for whatever columns and
    losses they return. *)
Definition vectorised_fit :=
  fit_model_t -> list (list array) -> list nat -> batched_params * list xfloat.

Definition get_params (fit_model : fit_model_t) (params : batched_params)
  (loss : list xfloat) : option param_vector :=
  bestFit <- nanargmin loss ;;
  match fit_model with
  | fit_model_same_alpha =>
      alphas <- dict_get "alpha" params ;;
      bestAlpha <- index_dyn alphas bestFit ;;
      betas <- dict_get "beta" params ;;
      bestBeta <- index_dyn betas bestFit ;;
      Some [("alpha"%string, bestAlpha); ("beta"%string, bestBeta)]
  | fit_model_alpha_difference =>
      alphasS <- dict_get "alphaStable" params ;;
      bestAlphaStable <- index_dyn alphasS bestFit ;;
      alphasV <- dict_get "alphaVolatile" params ;;
      bestAlphaVolatile <- index_dyn alphasV bestFit ;;
      betas <- dict_get "beta" params ;;
      bestBeta <- index_dyn betas bestFit ;;
      Some [("alphaStable"%string, bestAlphaStable);
            ("alphaVolatile"%string, bestAlphaVolatile);
            ("beta"%string, bestBeta)]
  | other_callable => None
  end.

(** [jnp.tile(x, (nInits, 1))] of a 1-d array: [nInits] identical rows. *)
Definition tile (x : array) (nInits : nat) : list array := repeat x nInits.

(** [jnp.stack([jax.random.PRNGKey(i) for i in range(nInits)])], a key
    written as its seed; stacking an empty list raises. *)
Definition initial_rngs (nInits : nat) : option (list nat) :=
  match nInits with
  | O => None
  | _ => Some (seq 0 nInits)
  end.

Definition fit_with_multiple_initial_values
  (fit_model_vectorised : vectorised_fit)
  (data : list array) (nInits : nat) (fit_model : fit_model_t)
  : option param_vector :=
  data <- match fit_model, data with
          | fit_model_same_alpha, [_; _; _; _] =>
              Some (map (fun x => tile x nInits) data)
          | fit_model_alpha_difference, [_; _; _; _; _; _; _; _] =>
              Some (map (fun x => tile x nInits) data)
          | _, _ => None
          end ;;
  rngs <- initial_rngs nInits ;;
  let '(params, loss) := fit_model_vectorised fit_model data rngs in
  get_params fit_model params loss.

(** The names of the selected parameters of each variant. *)
Definition param_names (fit_model : fit_model_t) : list string :=
  match fit_model with
  | fit_model_same_alpha => ["alpha"; "beta"]%string
  | fit_model_alpha_difference =>
      ["alphaStable"; "alphaVolatile"; "beta"]%string
  | other_callable => []
  end.

Fixpoint mapM {A B : Type} (f : A -> option B) (xs : list A)
  : option (list B) :=
  match xs with
  | [] => Some []
  | x :: xs' => y <- f x ;; ys <- mapM f xs' ;; Some (y :: ys)
  end.

(** The lanes [jax.vmap] maps over: lane [i] holds row [i] of every stacked
    matrix; matrices of different heights raise. *)
Definition vmap_lanes (data : list (list array)) : option (list (list array)) :=
  match data with
  | [] => None
  | m :: _ =>
      if forallb (fun m' => Nat.eqb (length m') (length m)) data
      then Some (map (fun i => map (fun m' => nth i m' []) data)
                   (seq 0 (length m)))
      else None
  end.

(** [jax.vmap(partial(fit_with_multiple_initial_values, ...))(data)]: every
    subject is fitted on its own lane and the selected vectors are stacked
    column by column. *)
Definition fit_multiple_participants
  (fit_model_vectorised : vectorised_fit)
  (data : list (list array)) (nInits : nat) (fit_model : fit_model_t)
  : option batched_params :=
  lanes <- vmap_lanes data ;;
  outs <- mapM (fun lane =>
                  fit_with_multiple_initial_values fit_model_vectorised
                    lane nInits fit_model) lanes ;;
  mapM (fun k => col <- mapM (dict_get k) outs ;; Some (k, col))
    (param_names fit_model).

(** What the specification asks of a degenerate fit: an error ([None]) or a
    sentinel, that is a vector that does not look finite. *)
Definition finite_looking (v : param_vector) : Prop :=
  Forall (fun kv => isfinite (snd kv) = true) v.

Definition surfaces_failure (r : option param_vector) : Prop :=
  match r with
  | None => True
  | Some v => ~ finite_looking v
  end.

(** Run [i] of a vmapped fit: its loss and its entry in a column. *)
Definition run_loss (loss : list xfloat) (i : nat) : xfloat := nth i loss NaN.


(* ===================================================================== *)
(** ** run_paramterer_recovery: the grid recovery *)
(* ===================================================================== *)

Definition matrix := list array.

(** [np.zeros((n, m))] *)
Definition zeros (n m : nat) : matrix := repeat (repeat 0 m) n.

(** The value stored by [mat[i, :] = v] in a row of [ncols] entries: [v]
    itself, a length-1 [v] stretched, anything else raises. *)
Definition fit_row (ncols : nat) (v : array) : option array :=
  if Nat.eqb (length v) ncols then Some v
  else if Nat.eqb (length v) 1 then Some (repeat (hd 0 v) ncols)
  else None.

(** Replace entry [i] of a list; an index past the end raises. *)
Fixpoint update_nth {A : Type} (l : list A) (i : nat) (f : A -> A)
  : option (list A) :=
  match l, i with
  | [], _ => None
  | x :: l', O => Some (f x :: l')
  | x :: l', S i' => l'' <- update_nth l' i' f ;; Some (x :: l'')
  end.

(** [mat[i, :] = v] *)
Definition set_row (mat : matrix) (i ncols : nat) (v : array)
  : option matrix :=
  row <- fit_row ncols v ;;
  update_nth mat i (fun _ => row).

(** One row of [recoveryData]. *)
Record recovery_row : Type := {
  simulatedAlpha : xfloat;
  simulatedBeta : xfloat;
  recoveredAlpha : xfloat;
  recoveredBeta : xfloat
}.

Definition zero_row : recovery_row :=
  {| simulatedAlpha := Fin 0; simulatedBeta := Fin 0;
     recoveredAlpha := Fin 0; recoveredBeta := Fin 0 |}.

Definition set_simulatedAlpha (v : xfloat) (r : recovery_row) : recovery_row :=
  {| simulatedAlpha := v; simulatedBeta := simulatedBeta r;
     recoveredAlpha := recoveredAlpha r; recoveredBeta := recoveredBeta r |}.

Definition set_simulatedBeta (v : xfloat) (r : recovery_row) : recovery_row :=
  {| simulatedAlpha := simulatedAlpha r; simulatedBeta := v;
     recoveredAlpha := recoveredAlpha r; recoveredBeta := recoveredBeta r |}.

Definition set_recoveredAlpha (v : xfloat) (r : recovery_row) : recovery_row :=
  {| simulatedAlpha := simulatedAlpha r; simulatedBeta := simulatedBeta r;
     recoveredAlpha := v; recoveredBeta := recoveredBeta r |}.

Definition set_recoveredBeta (v : xfloat) (r : recovery_row) : recovery_row :=
  {| simulatedAlpha := simulatedAlpha r; simulatedBeta := simulatedBeta r;
     recoveredAlpha := recoveredAlpha r; recoveredBeta := v |}.

(** [frame[name] = column]: the column is laid over the rows position by
    position; a column of another length raises. *)
Fixpoint set_column (setter : xfloat -> recovery_row -> recovery_row)
  (frame : list recovery_row) (column : list xfloat)
  : option (list recovery_row) :=
  match frame, column with
  | [], [] => Some []
  | r :: frame', v :: column' =>
      rest <- set_column setter frame' column' ;;
      Some (setter v r :: rest)
  | _, _ => None
  end.

(** The collaborators passed to the recovery, with the state [W] they may
    read and advance (the random generator [rng] and whatever randomness
    [generate_schedule] draws on). *)
Record collaborators (W : Type) : Type := {
  generate_schedule : array -> W -> (array * array * array) * W;
  simulate_RL_model : array -> array -> array -> R -> R -> W
                      -> (array * array) * W;
  (** [rng.random(n)] *)
  rng_random : nat -> W -> array * W
}.
Arguments generate_schedule {W}.
Arguments simulate_RL_model {W}.
Arguments rng_random {W}.

(** The variables the two nested loops update. *)
Record sim_state : Type := {
  counter : nat;
  recoveryData : list recovery_row;
  opt1RewardedMat : matrix;
  magOpt1Mat : matrix;
  magOpt2Mat : matrix;
  choice1Mat : matrix
}.

(** [(choiceProb1 > draws).astype(int)] *)
Definition greater_as_int (p d : R) : R := if Rgt_dec p d then 1 else 0.

(** The body of the inner loop, lines 409-421, for the indices [alpha] and
    [beta].  A NumPy row assignment past the last row raises; pandas' [.loc]
    on a missing label would instead append a row, which the model also
    leaves as [None]: the counter never leaves the table
    ([grid_invariant]). *)
Definition recovery_body {W : Type} (ext : collaborators W)
  (simulatedAlphaRange simulatedBetaRange trueProbability : array)
  (alpha beta : nat) (sw : sim_state * W) : option (sim_state * W) :=
  let '(st, w) := sw in
  let n := length trueProbability in
  let c := counter st in
  let '((sched1, sched2, sched3), w) :=
    generate_schedule ext trueProbability w in
  rewardedMat <- set_row (opt1RewardedMat st) c n sched1 ;;
  mag1Mat <- set_row (magOpt1Mat st) c n sched2 ;;
  mag2Mat <- set_row (magOpt2Mat st) c n sched3 ;;
  rewardedRow <- nth_error rewardedMat c ;;
  mag1Row <- nth_error mag1Mat c ;;
  mag2Row <- nth_error mag2Mat c ;;
  simAlpha <- nth_error simulatedAlphaRange alpha ;;
  simBeta <- nth_error simulatedBetaRange beta ;;
  let '((probOpt1, choiceProb1), w) :=
    simulate_RL_model ext rewardedRow mag1Row mag2Row simAlpha simBeta w in
  let '(draws, w) := rng_random ext n w in
  choices <- broadcast2 greater_as_int choiceProb1 draws ;;
  choiceMat <- set_row (choice1Mat st) c n choices ;;
  frame <- update_nth (recoveryData st) c (set_simulatedAlpha (Fin simAlpha)) ;;
  frame <- update_nth frame c (set_simulatedBeta (Fin simBeta)) ;;
  Some ({| counter := c + 1;
           recoveryData := frame;
           opt1RewardedMat := rewardedMat;
           magOpt1Mat := mag1Mat;
           magOpt2Mat := mag2Mat;
           choice1Mat := choiceMat |}, w).

(** [for i in range(n): body], threading the loop variables. *)
Fixpoint for_range {S : Type} (indices : list nat)
  (body : nat -> S -> option S) (s : S) : option S :=
  match indices with
  | [] => Some s
  | i :: rest => s' <- body i s ;; for_range rest body s'
  end.

(** Lines 389-421: the table and the four matrices after both loops. *)
Definition simulate_grid {W : Type} (ext : collaborators W)
  (simulatedAlphaRange simulatedBetaRange trueProbability : array) (w : W)
  : option (sim_state * W) :=
  let nSimulatedSubjects :=
    (length simulatedAlphaRange * length simulatedBetaRange)%nat in
  let n := length trueProbability in
  let st := {| counter := 0;
               recoveryData := repeat zero_row nSimulatedSubjects;
               opt1RewardedMat := zeros nSimulatedSubjects n;
               magOpt1Mat := zeros nSimulatedSubjects n;
               magOpt2Mat := zeros nSimulatedSubjects n;
               choice1Mat := zeros nSimulatedSubjects n |} in
  for_range (arange (length simulatedAlphaRange))
    (fun alpha =>
       for_range (arange (length simulatedBetaRange))
         (fun beta =>
            recovery_body ext simulatedAlphaRange simulatedBetaRange
              trueProbability alpha beta))
    (st, w).

(** The tuple of stacked matrices handed to [fit_multiple_participants]. *)
Definition stacked_data (st : sim_state) : list matrix :=
  [opt1RewardedMat st; magOpt1Mat st; magOpt2Mat st; choice1Mat st].

Definition run_paramterer_recovery {W : Type}
  (fit_model_vectorised : vectorised_fit) (ext : collaborators W)
  (simulatedAlphaRange simulatedBetaRange trueProbability : array)
  (w : W) (nInits : nat) : option (list recovery_row * W) :=
  '(st, w) <- simulate_grid ext simulatedAlphaRange simulatedBetaRange
                trueProbability w ;;
  params <- fit_multiple_participants fit_model_vectorised (stacked_data st)
              nInits fit_model_same_alpha ;;
  alphas <- dict_get "alpha" params ;;
  frame <- set_column set_recoveredAlpha (recoveryData st) alphas ;;
  betas <- dict_get "beta" params ;;
  frame <- set_column set_recoveredBeta frame betas ;;
  Some (frame, w).

(** The TrialBatch one grid point produces: a fresh schedule, the simulated
    choice probabilities at [(alpha, beta)], and their binarisation against
    [rng] draws, from the collaborator state [w]. *)
Definition simulated_at {W : Type} (ext : collaborators W)
  (trueProbability : array) (alpha beta : R) (w : W) (lane : list array)
  : Prop :=
  let n := length trueProbability in
  let '((s1, s2, s3), w1) := generate_schedule ext trueProbability w in
  exists r m1 m2 ch,
    fit_row n s1 = Some r /\ fit_row n s2 = Some m1 /\
    fit_row n s3 = Some m2 /\
    let '((_, choiceProb1), w2) :=
      simulate_RL_model ext r m1 m2 alpha beta w1 in
    let '(draws, _) := rng_random ext n w2 in
    (exists raw, broadcast2 greater_as_int choiceProb1 draws = Some raw /\
                 fit_row n raw = Some ch) /\
    lane = [r; m1; m2; ch].

(** The interface contract of the collaborators (specification, section 6):
    schedules, choice probabilities and draws have one entry per trial. *)
Record well_shaped {W : Type} (ext : collaborators W) (trueProbability : array)
  : Prop := {
  schedule_shape : forall w,
      let '((s1, s2, s3), _) := generate_schedule ext trueProbability w in
      length s1 = length trueProbability /\
      length s2 = length trueProbability /\
      length s3 = length trueProbability;
  simulate_shape : forall r m1 m2 a b w,
      length r = length trueProbability ->
      length (snd (fst (simulate_RL_model ext r m1 m2 a b w)))
      = length trueProbability;
  random_shape : forall n w, length (fst (rng_random ext n w)) = n
}.

(* ===================================================================== *)
(** ** run_paramterer_recovery_with_difference: the split recovery *)
(* ===================================================================== *)

(** One row of [fittedParameters], with the columns "alpha stable",
    "alpha volatile" and "inverse temperature". *)
Record fitted_row : Type := {
  alpha_stable : xfloat;
  alpha_volatile : xfloat;
  inverse_temperature : xfloat
}.

Definition zero_fitted_row : fitted_row :=
  {| alpha_stable := Fin 0; alpha_volatile := Fin 0;
     inverse_temperature := Fin 0 |}.

Definition set_alpha_stable (v : xfloat) (r : fitted_row) : fitted_row :=
  {| alpha_stable := v; alpha_volatile := alpha_volatile r;
     inverse_temperature := inverse_temperature r |}.

Definition set_alpha_volatile (v : xfloat) (r : fitted_row) : fitted_row :=
  {| alpha_stable := alpha_stable r; alpha_volatile := v;
     inverse_temperature := inverse_temperature r |}.

Definition set_inverse_temperature (v : xfloat) (r : fitted_row)
  : fitted_row :=
  {| alpha_stable := alpha_stable r; alpha_volatile := alpha_volatile r;
     inverse_temperature := v |}.

(** [frame[name] = column] for a table of any row type. *)
Fixpoint assign_column {Row : Type} (setter : xfloat -> Row -> Row)
  (frame : list Row) (column : list xfloat) : option (list Row) :=
  match frame, column with
  | [], [] => Some []
  | r :: frame', v :: column' =>
      rest <- assign_column setter frame' column' ;;
      Some (setter v r :: rest)
  | _, _ => None
  end.

(** The eight matrices the loop fills. *)
Record split_state : Type := {
  opt1RewardedStableMat : matrix;
  magOpt1StableMat : matrix;
  magOpt2StableMat : matrix;
  choice1StableMat : matrix;
  opt1RewardedVolatileMat : matrix;
  magOpt1VolatileMat : matrix;
  magOpt2VolatileMat : matrix;
  choice1VolatileMat : matrix
}.

(** The body of the loop, lines 481-491, for subject [p].  All eight
    matrices have [len(trueProbabilityStable)] columns. *)
Definition split_recovery_body {W : Type} (ext : collaborators W)
  (stableAlphas volatileAlphas betas : array)
  (trueProbabilityStable trueProbabilityVolatile : array)
  (p : nat) (sw : split_state * W) : option (split_state * W) :=
  let '(st, w) := sw in
  let n := length trueProbabilityStable in
  let '((s1, s2, s3), w) :=
    generate_schedule ext trueProbabilityStable w in
  rewardedS <- set_row (opt1RewardedStableMat st) p n s1 ;;
  mag1S <- set_row (magOpt1StableMat st) p n s2 ;;
  mag2S <- set_row (magOpt2StableMat st) p n s3 ;;
  let '((v1, v2, v3), w) :=
    generate_schedule ext trueProbabilityVolatile w in
  rewardedV <- set_row (opt1RewardedVolatileMat st) p n v1 ;;
  mag1V <- set_row (magOpt1VolatileMat st) p n v2 ;;
  mag2V <- set_row (magOpt2VolatileMat st) p n v3 ;;
  rowS <- nth_error rewardedS p ;;
  rowS1 <- nth_error mag1S p ;;
  rowS2 <- nth_error mag2S p ;;
  alphaS <- nth_error stableAlphas p ;;
  betaS <- nth_error betas p ;;
  let '((_, choiceProb1Stable), w) :=
    simulate_RL_model ext rowS rowS1 rowS2 alphaS betaS w in
  rowV <- nth_error rewardedV p ;;
  rowV1 <- nth_error mag1V p ;;
  rowV2 <- nth_error mag2V p ;;
  alphaV <- nth_error volatileAlphas p ;;
  betaV <- nth_error betas p ;;
  let '((_, choiceProb1Volatile), w) :=
    simulate_RL_model ext rowV rowV1 rowV2 alphaV betaV w in
  let '(drawsS, w) := rng_random ext (length rowS) w in
  choicesS <- broadcast2 greater_as_int choiceProb1Stable drawsS ;;
  choiceS <- set_row (choice1StableMat st) p n choicesS ;;
  let '(drawsV, w) := rng_random ext (length rowV) w in
  choicesV <- broadcast2 greater_as_int choiceProb1Volatile drawsV ;;
  choiceV <- set_row (choice1VolatileMat st) p n choicesV ;;
  Some ({| opt1RewardedStableMat := rewardedS;
           magOpt1StableMat := mag1S;
           magOpt2StableMat := mag2S;
           choice1StableMat := choiceS;
           opt1RewardedVolatileMat := rewardedV;
           magOpt1VolatileMat := mag1V;
           magOpt2VolatileMat := mag2V;
           choice1VolatileMat := choiceV |}, w).

(** Lines 463-491: the eight matrices after the loop over the subjects. *)
Definition simulate_split {W : Type} (ext : collaborators W)
  (stableAlphas volatileAlphas betas : array)
  (trueProbabilityStable trueProbabilityVolatile : array) (w : W)
  : option (split_state * W) :=
  let nSimulatedSubjects := length betas in
  let n := length trueProbabilityStable in
  let st := {| opt1RewardedStableMat := zeros nSimulatedSubjects n;
               magOpt1StableMat := zeros nSimulatedSubjects n;
               magOpt2StableMat := zeros nSimulatedSubjects n;
               choice1StableMat := zeros nSimulatedSubjects n;
               opt1RewardedVolatileMat := zeros nSimulatedSubjects n;
               magOpt1VolatileMat := zeros nSimulatedSubjects n;
               magOpt2VolatileMat := zeros nSimulatedSubjects n;
               choice1VolatileMat := zeros nSimulatedSubjects n |} in
  for_range (arange nSimulatedSubjects)
    (split_recovery_body ext stableAlphas volatileAlphas betas
       trueProbabilityStable trueProbabilityVolatile)
    (st, w).

(** The tuple of stacked matrices handed to [fit_multiple_participants]. *)
Definition split_stacked_data (st : split_state) : list matrix :=
  [opt1RewardedStableMat st; magOpt1StableMat st; magOpt2StableMat st;
   choice1StableMat st; opt1RewardedVolatileMat st; magOpt1VolatileMat st;
   magOpt2VolatileMat st; choice1VolatileMat st].

Definition run_paramterer_recovery_with_difference {W : Type}
  (fit_model_vectorised : vectorised_fit) (ext : collaborators W)
  (stableAlphas volatileAlphas betas : array)
  (trueProbabilityStable trueProbabilityVolatile : array)
  (w : W) (nInits : nat) : option (list fitted_row * W) :=
  let nSimulatedSubjects := length betas in
  let fittedParameters := repeat zero_fitted_row nSimulatedSubjects in
  '(st, w) <- simulate_split ext stableAlphas volatileAlphas betas
                trueProbabilityStable trueProbabilityVolatile w ;;
  params <- fit_multiple_participants fit_model_vectorised
              (split_stacked_data st) nInits fit_model_alpha_difference ;;
  column <- dict_get "alphaStable" params ;;
  frame <- assign_column set_alpha_stable fittedParameters column ;;
  column <- dict_get "alphaVolatile" params ;;
  frame <- assign_column set_alpha_volatile frame column ;;
  column <- dict_get "beta" params ;;
  frame <- assign_column set_inverse_temperature frame column ;;
  Some (frame, w).

(** The pair of TrialBatches one subject of the split recovery gets: two
    schedules, two simulations at [(alphaS, beta)] and [(alphaV, beta)], and
    two binarisations, in the order of the loop body, from the collaborator
    state [w]. *)
Definition split_simulated_at {W : Type} (ext : collaborators W)
  (trueProbabilityStable trueProbabilityVolatile : array)
  (alphaS alphaV beta : R) (w : W) (lane : list array) : Prop :=
  let n := length trueProbabilityStable in
  let '((s1, s2, s3), w1) :=
    generate_schedule ext trueProbabilityStable w in
  let '((v1, v2, v3), w2) :=
    generate_schedule ext trueProbabilityVolatile w1 in
  exists rS m1S m2S chS rV m1V m2V chV,
    fit_row n s1 = Some rS /\ fit_row n s2 = Some m1S /\
    fit_row n s3 = Some m2S /\
    fit_row n v1 = Some rV /\ fit_row n v2 = Some m1V /\
    fit_row n v3 = Some m2V /\
    let '((_, probS), w3) :=
      simulate_RL_model ext rS m1S m2S alphaS beta w2 in
    let '((_, probV), w4) :=
      simulate_RL_model ext rV m1V m2V alphaV beta w3 in
    let '(drawsS, w5) := rng_random ext (length rS) w4 in
    let '(drawsV, _) := rng_random ext (length rV) w5 in
    (exists raw, broadcast2 greater_as_int probS drawsS = Some raw /\
                 fit_row n raw = Some chS) /\
    (exists raw, broadcast2 greater_as_int probV drawsV = Some raw /\
                 fit_row n raw = Some chV) /\
    lane = [rS; m1S; m2S; chS; rV; m1V; m2V; chV].

(* ===================================================================== *)
(** ** The loss at floating-point parameters *)
(* ===================================================================== *)

(** [loss_RL_model] as it runs when the parameters are floating-point values
    that may be NaN or infinite (the optimizer can hand such parameters to
    the loss): the same lines, every operation in IEEE arithmetic.  The data
    are arrays of real numbers. *)
Module IEEE.

Fixpoint zip_with (f : xfloat -> xfloat -> xfloat) (xs ys : farray) : farray :=
  match xs, ys with
  | x :: xs', y :: ys' => f x y :: zip_with f xs' ys'
  | _, _ => []
  end.

Definition broadcast2 (f : xfloat -> xfloat -> xfloat) (xs ys : farray)
  : option farray :=
  if Nat.eqb (length xs) (length ys) then Some (zip_with f xs ys)
  else if Nat.eqb (length xs) 1 then Some (map (f (hd NaN xs)) ys)
  else if Nat.eqb (length ys) 1 then Some (map (fun x => f x (hd NaN ys)) xs)
  else None.

Definition getitem (a : farray) (t : nat) : xfloat :=
  nth (Nat.min t (length a - 1)) a NaN.

(** [a.mean()]; the mean of an empty array is NaN. *)
Definition mean (xs : farray) : xfloat :=
  match xs with
  | [] => NaN
  | _ => match fold_right xadd (Fin 0) xs with
         | Fin total => Fin (total / INR (length xs))
         | total => total
         end
  end.

Definition utility_function_t := farray -> farray -> option farray.

Definition utility_fun : utility_function_t := broadcast2 xmul.

Definition compute_probOpt1 (opt1Rewarded : farray) (alpha : xfloat)
  (carry : xfloat) (t : nat) : xfloat * xfloat :=
  let probOpt1 := carry in
  let delta := xsub (getitem opt1Rewarded t) probOpt1 in
  let probOpt1 := xadd probOpt1 (xmul alpha delta) in
  (probOpt1, probOpt1).

Definition belief_trajectory (opt1Rewarded : farray)
  (alpha startingProb : xfloat) : farray :=
  let nTrials := length opt1Rewarded in
  let probOpt1 :=
    snd (scan (compute_probOpt1 opt1Rewarded alpha) startingProb
           (arange nTrials)) in
  [startingProb] ++ removelast probOpt1.

(** [jax.nn.log_sigmoid]: 0 at [+inf], [-inf] at [-inf]. *)
Definition log_sigmoid (x : xfloat) : xfloat :=
  match x with
  | Fin r => Fin (log_sigmoid r)
  | PInf => Fin 0
  | NInf => NInf
  | NaN => NaN
  end.

Definition sigmoid_binary_cross_entropy1 (logit label : xfloat) : xfloat :=
  let log_p := log_sigmoid logit in
  let log_not_p := log_sigmoid (xopp logit) in
  xsub (xmul (xopp label) log_p) (xmul (xsub (Fin 1) label) log_not_p).

Definition sigmoid_binary_cross_entropy (logits labels : farray)
  : option farray :=
  broadcast2 sigmoid_binary_cross_entropy1 logits labels.

Definition loss_RL_model (data : trial_data) (params : ftree)
  (startingProb : R) (utility_function : utility_function_t)
  : option xfloat :=
  let '(opt1Rewarded, magOpt1, magOpt2, choice1) := data in
  alpha <- tree_get_0 params "alpha" ;;
  beta <- tree_get_0 params "beta" ;;
  let opt1Rewarded := map Fin opt1Rewarded in
  let magOpt1 := map Fin magOpt1 in
  let magOpt2 := map Fin magOpt2 in
  let choice1 := map Fin choice1 in
  let probOpt1 := belief_trajectory opt1Rewarded alpha (Fin startingProb) in
  utility1 <- utility_function magOpt1 probOpt1 ;;
  utility2 <- utility_function magOpt2 (map (xsub (Fin 1)) probOpt1) ;;
  diff <- broadcast2 xsub utility1 utility2 ;;
  let choice1Logits := map (xmul beta) diff in
  losses <- sigmoid_binary_cross_entropy choice1Logits choice1 ;;
  Some (mean losses).

End IEEE.

(* ===================================================================== *)
(** ** fit_model_same_alpha and fit_model_alpha_difference *)
(* ===================================================================== *)

(** What the fit functions use of [jax.random]: keys, [PRNGKey], [split],
    and the number in [0, 1) that a [uniform] draw of shape [(1,)]
    rescales. *)
Record PRNG : Type := {
  prng_key : Type;
  PRNGKey : nat -> prng_key;
  split : prng_key -> nat -> list prng_key;
  uniform_bits : prng_key -> R
}.

(** The contract of [jax.random]: [split(key, n)] gives [n] keys and the
    rescaled number lies in [0, 1). *)
Record prng_lawful (prng : PRNG) : Prop := {
  split_length : forall k n, length (split prng k n) = n;
  uniform_unit : forall k, 0 <= uniform_bits prng k < 1
}.

(** [jax.random.uniform(key, shape=(1,), minval=, maxval=)], which computes
    [max(minval, floats * (maxval - minval) + minval)]. *)
Definition uniform (prng : PRNG) (key : prng_key prng) (minval maxval : R)
  : R :=
  Rmax minval (uniform_bits prng key * (maxval - minval) + minval).

(** The loss as the optimizer receives it.  JAX traces the loss on the
    structure of the parameters, which the loop keeps; where the loss raises,
    the fit raises as a whole (its last line evaluates the loss again), so
    the value used here for that case is never part of a result. *)
Definition loss_value (loss_fun : ftree -> option xfloat) (params : ftree)
  : xfloat :=
  match loss_fun params with
  | Some v => v
  | None => NaN
  end.

(** [params[k]] for a parameter dictionary. *)
Definition tree_getitem {A : Type} (params : tree A) (k : string)
  : option (tree A) :=
  match params with
  | Dict items => dict_get k items
  | Leaf _ => None
  end.

(** The eight arrays of the split model: the stable block, then the
    volatile block. *)
Definition split_data : Type :=
  (array * array * array * array * array * array * array * array)%type.

Module ModelFitter.

Definition fit_model_same_alpha (prng : PRNG) (fuel : nat) (data : trial_data)
  (rng : option (prng_key prng)) (startingProb : R) (paramsClip : ParamsClip)
  (utility_function : IEEE.utility_function_t) (opt : GradientTransformation)
  (max_iter : Z) (tol : R) : option (ftree * opt_state opt * xfloat) :=
  let rng := match rng with
             | None => PRNGKey prng 0
             | Some key => key
             end in
  match split prng rng 3 with
  | [_; alphaRng; betaRng] =>
      let alpha := uniform prng alphaRng (alphaMin paramsClip)
                     (alphaMax paramsClip) in
      let beta := uniform prng betaRng (betaMin paramsClip)
                    (betaMax paramsClip) in
      let initParams :=
        Dict [("alpha"%string, Leaf (Fin alpha));
              ("beta"%string, Leaf (Fin beta))] in
      let loss_fun := fun params =>
        IEEE.loss_RL_model data params startingProb utility_function in
      final <- run_opt fuel initParams (loss_value loss_fun) opt max_iter tol
                 paramsClip ;;
      let '(finalParams, finalState) := final in
      finalLoss <- loss_fun finalParams ;;
      Some (finalParams, finalState, finalLoss)
  | _ => None
  end.

(** The loss of the split model, lines 258-263. *)
Definition split_loss_fun (data : split_data) (startingProb : R)
  (utility_function : IEEE.utility_function_t) (params : ftree)
  : option xfloat :=
  let '(opt1RewardedStable, magOpt1Stable, magOpt2Stable, choice1Stable,
        opt1RewardedVolatile, magOpt1Volatile, magOpt2Volatile,
        choice1Volatile) := data in
  let dataStable :=
    (opt1RewardedStable, magOpt1Stable, magOpt2Stable, choice1Stable) in
  let dataVolatile :=
    (opt1RewardedVolatile, magOpt1Volatile, magOpt2Volatile,
     choice1Volatile) in
  alphaS <- tree_getitem params "alphaStable" ;;
  betaS <- tree_getitem params "beta" ;;
  let stableParams :=
    Dict [("alpha"%string, alphaS); ("beta"%string, betaS)] in
  alphaV <- tree_getitem params "alphaVolatile" ;;
  betaV <- tree_getitem params "beta" ;;
  let volatileParams :=
    Dict [("alpha"%string, alphaV); ("beta"%string, betaV)] in
  lossStable <- IEEE.loss_RL_model dataStable stableParams startingProb
                  utility_function ;;
  lossVolatile <- IEEE.loss_RL_model dataVolatile volatileParams startingProb
                    utility_function ;;
  Some (xadd lossStable lossVolatile).

Definition fit_model_alpha_difference (prng : PRNG) (fuel : nat)
  (data : split_data) (rng : option (prng_key prng)) (startingProb : R)
  (paramsClip : ParamsClip) (utility_function : IEEE.utility_function_t)
  (opt : GradientTransformation) (max_iter : Z) (tol : R)
  : option (ftree * opt_state opt * xfloat) :=
  let rng := match rng with
             | None => PRNGKey prng 0
             | Some key => key
             end in
  match split prng rng 4 with
  | [_; alphaStableRng; alphaVolatileRng; betaRng] =>
      let alphaStable := uniform prng alphaStableRng (alphaMin paramsClip)
                           (alphaMax paramsClip) in
      let alphaVolatile := uniform prng alphaVolatileRng (alphaMin paramsClip)
                             (alphaMax paramsClip) in
      let beta := uniform prng betaRng (betaMin paramsClip)
                    (betaMax paramsClip) in
      let initParams :=
        Dict [("alphaStable"%string, Leaf (Fin alphaStable));
              ("alphaVolatile"%string, Leaf (Fin alphaVolatile));
              ("beta"%string, Leaf (Fin beta))] in
      let loss_fun := split_loss_fun data startingProb utility_function in
      final <- run_opt fuel initParams (loss_value loss_fun) opt max_iter tol
                 paramsClip ;;
      let '(finalParams, finalState) := final in
      finalLoss <- loss_fun finalParams ;;
      Some (finalParams, finalState, finalLoss)
  | _ => None
  end.

End ModelFitter.

(** The split-alpha parameter dictionary
    [{'alphaStable': _, 'alphaVolatile': _, 'beta': _}]. *)
Definition params_split {A : Type} (alphaStable alphaVolatile beta : A)
  : tree A :=
  Dict [("alphaStable"%string, Leaf alphaStable);
        ("alphaVolatile"%string, Leaf alphaVolatile);
        ("beta"%string, Leaf beta)].

(** The structure of a parameter tree: its keys, with every leaf erased. *)
Definition tree_shape {A : Type} (t : tree A) : tree unit :=
  tree_map (fun _ => tt) t.

(** *** The vmapped fit of the multi-start selection *)

(** One lane of [jax.vmap(fit_model)(data, initial_rngs)]: the fit function
    on the arrays of the lane and the key [PRNGKey(seed)], every other
    argument at its default ([opt] stands for [optax.lbfgs()]); its final
    parameters as a vector, and its loss. *)
Definition lane_fit (prng : PRNG) (opt : GradientTransformation) (fuel : nat)
  (fit_model : fit_model_t) (lane : list array) (seed : nat)
  : option (param_vector * xfloat) :=
  match fit_model, lane with
  | fit_model_same_alpha, [r; m1; m2; c] =>
      out <- ModelFitter.fit_model_same_alpha prng fuel (r, m1, m2, c)
               (Some (PRNGKey prng seed)) (1 / 2) default_paramsClip
               IEEE.utility_fun opt 100 (1 / 1000) ;;
      let '(finalParams, _, finalLoss) := out in
      Some (fields finalParams "", finalLoss)
  | fit_model_alpha_difference, [rS; m1S; m2S; cS; rV; m1V; m2V; cV] =>
      out <- ModelFitter.fit_model_alpha_difference prng fuel
               (rS, m1S, m2S, cS, rV, m1V, m2V, cV)
               (Some (PRNGKey prng seed)) (1 / 2) default_paramsClip
               IEEE.utility_fun opt 100 (1 / 1000) ;;
      let '(finalParams, _, finalLoss) := out in
      Some (fields finalParams "", finalLoss)
  | _, _ => None
  end.

(** Entry [k] of a parameter vector. *)
Definition entry (k : string) (v : param_vector) : xfloat :=
  match dict_get k v with
  | Some x => x
  | None => NaN
  end.

(** The results of the lanes stacked: one column per parameter name, and
    the losses. *)
Definition stack_runs (fit_model : fit_model_t)
  (outs : list (param_vector * xfloat)) : batched_params * list xfloat :=
  (map (fun k => (k, map (fun out => entry k (fst out)) outs))
     (param_names fit_model),
   map snd outs).

(** The lanes of a vmapped fit, each with its seed; [None] when a lane
    raises. *)
Definition run_lanes (fit : fit_model_t -> list array -> nat
                           -> option (param_vector * xfloat))
  (fit_model : fit_model_t) (data : list (list array)) (rngs : list nat)
  : option (list (param_vector * xfloat)) :=
  lanes <- vmap_lanes data ;;
  if Nat.eqb (length lanes) (length rngs)
  then mapM (fun lr => fit fit_model (fst lr) (snd lr)) (combine lanes rngs)
  else None.

(** What [jax.vmap] does: when no lane raises, the vmapped function returns
    the results of the lanes, stacked. *)
Definition vmap_of (fit_model_vectorised : vectorised_fit)
  (fit : fit_model_t -> list array -> nat -> option (param_vector * xfloat))
  : Prop :=
  forall fit_model data rngs outs,
    run_lanes fit fit_model data rngs = Some outs ->
    fit_model_vectorised fit_model data rngs = stack_runs fit_model outs.

(** A jax.random for the examples: a key is a number, [split] numbers the
    new keys after it, and every draw is the midpoint. *)
Definition midpoint_prng : PRNG :=
  {| prng_key := nat;
     PRNGKey := fun seed => seed;
     split := fun k n => map (fun i => (k + i)%nat) (seq 1 n);
     uniform_bits := fun _ => 1 / 2 |}.

(* ===================================================================== *)
(** ** part2/plotting.py, plot_likelihood_landscapes: the log likelihoods *)
(* ===================================================================== *)

(** [np.arange(start, stop, step)] with its [n = ceil((stop - start) / step)]
    entries [start + i * step]. *)
Definition np_arange (start step : R) (n : nat) : array :=
  map (fun i => start + INR i * step) (seq 0 n).

Module Plotting.

(** [np.arange(0.01, 1, 0.005)]: the 198 values 0.01, 0.015, ..., 0.995. *)
Definition alphaRange : array := np_arange (1 / 100) (5 / 1000) 198.
Definition betaRange : array := np_arange (1 / 100) (5 / 1000) 198.

(** Modelled from the spec: [part2/fitting.py], whose [loss_RL_model] the
    plot calls with the default starting probability and utility, is not
    under src/.  The LossFunction of the specification is the one
    [session2/fitting.py] implements, and it is taken here. *)
Definition fitting_loss_RL_model (data : trial_data) (params : ptree)
  : option R :=
  loss_RL_model data params (1 / 2) utility_fun.

(** Lines 476-483: [LLMatrix[a, b] = -loss * len(opt1Rewarded)]. *)
Definition LLMatrix (data : trial_data) : option matrix :=
  let '(opt1Rewarded, magOpt1, magOpt2, choice1) := data in
  mapM (fun alpha =>
          mapM (fun beta =>
                  loss <- fitting_loss_RL_model
                            (opt1Rewarded, magOpt1, magOpt2, choice1)
                            (params_ab alpha beta) ;;
                  Some (- loss * INR (length opt1Rewarded)))
            betaRange)
    alphaRange.

End Plotting.

(* ===================================================================== *)
(** ** Notions used in the statements *)
(* ===================================================================== *)

(** The carry after [k] more trials, starting with carry [c] at trial [s]. *)
Fixpoint post_update (r : array) (alpha : R) (s : nat) (c : R) (k : nat) : R :=
  match k with
  | O => c
  | S k' => post_update r alpha (S s) (c + alpha * (getitem r s - c)) k'
  end.

(** A utility function that works elementwise: on two arrays of one length
    it returns an array of that length. *)
Definition elementwise (U : utility_function_t) : Prop :=
  forall mag prob, length mag = length prob ->
    exists u, U mag prob = Some u /\ length u = length mag.

(** The names of the fields, in order. *)
Definition field_names {A : Type} (params : tree A) (path : string)
  : list string :=
  map fst (fields params path).

(** The loop invariant of [run_opt]: the names of the fields stay, and
    every clipped field is NaN or a real number within its bounds. *)
Definition feasible (opt : GradientTransformation) (paramsClip : ParamsClip)
  (init_params : ftree) (carry : carry_t opt) : Prop :=
  field_names (fst carry) "" = field_names init_params "" /\
  clip_bounds nan_or_within paramsClip (fst carry).

(** The number of arrays in the data tuple of each variant. *)
Definition arity (fit_model : fit_model_t) : nat :=
  match fit_model with
  | fit_model_same_alpha => 4
  | fit_model_alpha_difference => 8
  | other_callable => 0
  end.

(** The number of entries every column of a variant's output must have. *)
Definition well_formed_runs (fit_model : fit_model_t) (nInits : nat)
  (params : batched_params) (loss : list xfloat) : Prop :=
  length loss = nInits /\
  forall k, In k (param_names fit_model) ->
    exists col, dict_get k params = Some col /\ length col = nInits.

(** The contract of a vmapped fit: one loss and one entry of every
    parameter column per lane. *)
Definition vmap_contract (fit_model_vectorised : vectorised_fit)
  (fit_model : fit_model_t) : Prop :=
  forall data rngs,
    well_formed_runs fit_model (length rngs)
      (fst (fit_model_vectorised fit_model data rngs))
      (snd (fit_model_vectorised fit_model data rngs)).

(** The parameters of run [i]: entry [i] of every column. *)
Definition run_params (fit_model : fit_model_t) (params : batched_params)
  (i : nat) : option param_vector :=
  mapM (fun k => col <- dict_get k params ;;
                 v <- nth_error col i ;;
                 Some (k, v))
    (param_names fit_model).

(** The run [get_params] reads: the index [nanargmin] returns, counted from
    the end when negative. *)
Definition selected_run (loss : list xfloat) : nat :=
  match nanargmin loss with
  | Some z => if (z <? 0)%Z then (length loss - 1)%nat else Z.to_nat z
  | None => 0%nat
  end.

Definition nan_to_inf (x : xfloat) : xfloat := if isnan x then PInf else x.

(** Row [c] of the table and of the four matrices is the grid point
    [(c / B, c mod B)]: the table holds its two simulated parameters and the
    matrices hold a TrialBatch simulated with them. *)
Definition row_done {W : Type} (ext : collaborators W)
  (simulatedAlphaRange simulatedBetaRange trueProbability : array)
  (st : sim_state) (c : nat) : Prop :=
  let B := length simulatedBetaRange in
  let a := nth (c / B) simulatedAlphaRange 0 in
  let b := nth (c mod B) simulatedBetaRange 0 in
  exists row r m1 m2 ch wc,
    nth_error (recoveryData st) c = Some row /\
    simulatedAlpha row = Fin a /\ simulatedBeta row = Fin b /\
    nth_error (opt1RewardedMat st) c = Some r /\
    nth_error (magOpt1Mat st) c = Some m1 /\
    nth_error (magOpt2Mat st) c = Some m2 /\
    nth_error (choice1Mat st) c = Some ch /\
    simulated_at ext trueProbability a b wc [r; m1; m2; ch].

(** The invariant of the two loops after [k] executions of the body. *)
Definition grid_invariant {W : Type} (ext : collaborators W)
  (simulatedAlphaRange simulatedBetaRange trueProbability : array)
  (N k : nat) (st : sim_state) : Prop :=
  counter st = k /\
  length (recoveryData st) = N /\
  length (opt1RewardedMat st) = N /\
  length (magOpt1Mat st) = N /\
  length (magOpt2Mat st) = N /\
  length (choice1Mat st) = N /\
  forall c, (c < k)%nat ->
    row_done ext simulatedAlphaRange simulatedBetaRange trueProbability st c.

(** Row [p] of the eight matrices of the split recovery is a pair of
    TrialBatches simulated for subject [p]. *)
Definition split_row_done {W : Type} (ext : collaborators W)
  (stableAlphas volatileAlphas betas : array)
  (trueProbabilityStable trueProbabilityVolatile : array)
  (st : split_state) (p : nat) : Prop :=
  exists lane wp,
    mapM (fun m : matrix => nth_error m p) (split_stacked_data st)
    = Some lane /\
    split_simulated_at ext trueProbabilityStable trueProbabilityVolatile
      (nth p stableAlphas 0) (nth p volatileAlphas 0) (nth p betas 0)
      wp lane.

(** The invariant of the loop over the subjects after [k] executions of
    the body. *)
Definition split_invariant {W : Type} (ext : collaborators W)
  (stableAlphas volatileAlphas betas : array)
  (trueProbabilityStable trueProbabilityVolatile : array)
  (N k : nat) (st : split_state) : Prop :=
  Forall (fun m : matrix => length m = N) (split_stacked_data st) /\
  forall c, (c < k)%nat ->
    split_row_done ext stableAlphas volatileAlphas betas
      trueProbabilityStable trueProbabilityVolatile st c.

(** The probability of the choice [c] (1: option 1, 0: option 2) when
    option 1 is chosen with probability [p]. *)
Definition bernoulli (p c : R) : R := c * p + (1 - c) * (1 - p).

(** The log likelihood of every observed choice under the model: on trial
    [t] option 1 is chosen with probability
    [sigmoid (beta * (mag1[t] * probOpt1[t] - mag2[t] * (1 - probOpt1[t])))]. *)
Definition choice_log_likelihoods (data : trial_data)
  (alpha beta startingProb : R) : array :=
  let '(rewarded1, mag1, mag2, choice1) := data in
  let probOpt1 := belief_trajectory rewarded1 alpha startingProb in
  map (fun t =>
         ln (bernoulli
               (sigmoid (beta * (getitem mag1 t * getitem probOpt1 t
                                 - getitem mag2 t * (1 - getitem probOpt1 t))))
               (getitem choice1 t)))
    (arange (length rewarded1)).

(** A floating-point value that is not an infinity: a real number or
    NaN. *)
Definition noinf (x : xfloat) : Prop := x <> PInf /\ x <> NInf.

(** The shape of a TrialBatch: four arrays of one length [T >= 1]. *)
Definition trial_batch (rewarded1 mag1 mag2 choice1 : array) : Prop :=
  (1 <= length rewarded1)%nat /\
  length mag1 = length rewarded1 /\
  length mag2 = length rewarded1 /\
  length choice1 = length rewarded1.

(** The data of one subject for a variant: a TrialBatch for the shared
    learning rate, the TrialBatch of the stable block followed by that of
    the volatile block for the split one. *)
Definition lane_shaped (fit_model : fit_model_t) (data : list array) : Prop :=
  match fit_model, data with
  | fit_model_same_alpha, [r; m1; m2; c] => trial_batch r m1 m2 c
  | fit_model_alpha_difference, [rS; m1S; m2S; cS; rV; m1V; m2V; cV] =>
      trial_batch rS m1S m2S cS /\ trial_batch rV m1V m2V cV
  | _, _ => False
  end.

(** The weighted outcomes in the belief after [k] trials: outcome [j]
    carries the weight [alpha * (1 - alpha)^(k-1-j)]. *)
Definition recency_weights (r : array) (alpha : R) (k : nat) : array :=
  map (fun j => alpha * (1 - alpha) ^ (k - 1 - j) * getitem r j) (seq 0 k).

(* ===================================================================== *)
(** ** Fixtures for the examples *)
(* ===================================================================== *)

(** An optimizer for the examples: every update adds [d] to every leaf and
    counts one more iteration; the stored gradient is [g]. *)
Definition constant_step (d : xfloat) (g : ftree) : GradientTransformation :=
  {| opt_state := Z;
     init := fun _ => 0%Z;
     update := fun _ s p _ _ _ => (tree_map (fun _ => d) p, (s + 1)%Z);
     tree_get_count := fun s => s;
     tree_get_grad := fun _ => g;
     value_and_grad_from_state := fun f p _ => (f p, g) |}.

(** A vmapped fit for the examples: it returns the given columns and losses
    whatever the data. *)
Definition fixed_runs (alphas betas loss : list xfloat) : vectorised_fit :=
  fun _ _ _ => ([("alpha"%string, alphas); ("beta"%string, betas)], loss).

Definition one_trial : list array := [[1]; [1]; [1]; [1]].

(** [jax.vmap] of a fit function for the examples: the results of the
    lanes, stacked; where a lane raises the columns are left empty. *)
Definition vmapped
  (fit : fit_model_t -> list array -> nat -> option (param_vector * xfloat))
  : vectorised_fit :=
  fun fit_model data rngs =>
    match run_lanes fit fit_model data rngs with
    | Some outs => stack_runs fit_model outs
    | None => ([], [])
    end.

(** The data of one subject, and of two subjects stacked, for the
    examples. *)
Definition two_trials : list array := [[1; 0]; [10; 20]; [30; 5]; [1; 0]].

Definition two_subjects : list (list array) :=
  [[[1; 0]; [0; 1]]; [[10; 20]; [5; 50]]; [[30; 5]; [40; 8]];
   [[1; 0]; [0; 1]]].

(** A vmapped shared-alpha fit for the examples: the lane seeded [s] ends
    at [run s = (alpha, beta, loss)]. *)
Definition seeded_runs (run : nat -> xfloat * xfloat * xfloat)
  : vectorised_fit :=
  fun _ _ rngs =>
    ([("alpha"%string, map (fun s => fst (fst (run s))) rngs);
      ("beta"%string, map (fun s => snd (fst (run s))) rngs)],
     map (fun s => snd (run s)) rngs).

(** A vmapped split-alpha fit for the examples: the lane seeded [s] ends
    at [run s = (alphaStable, alphaVolatile, beta, loss)]. *)
Definition seeded_split_runs
  (run : nat -> xfloat * xfloat * xfloat * xfloat) : vectorised_fit :=
  fun _ _ rngs =>
    ([("alphaStable"%string, map (fun s => fst (fst (fst (run s)))) rngs);
      ("alphaVolatile"%string, map (fun s => snd (fst (fst (run s)))) rngs);
      ("beta"%string, map (fun s => snd (fst (run s))) rngs)],
     map (fun s => snd (run s)) rngs).

(** Collaborators for the examples: a constant schedule, choice
    probabilities equal to [alpha] on every trial, and draws of 1/2; the
    state counts the random calls. *)
Definition constant_collaborators : collaborators nat :=
  {| generate_schedule := fun trueProbability w =>
       ((map (fun _ => 1) trueProbability,
         map (fun _ => 10) trueProbability,
         map (fun _ => 20) trueProbability), S w);
     simulate_RL_model := fun r _ _ alpha _ w =>
       ((r, map (fun _ => alpha) r), w);
     rng_random := fun n w => (repeat (1 / 2) n, S w) |}.

(** Case analysis on floating-point values and on the comparisons of
    their real parts. *)
Ltac xfloat_cases :=
  repeat match goal with
         | x : xfloat |- _ => destruct x
         end;
  simpl in *;
  repeat match goal with
         | |- context [Rlt_dec ?a ?b] => destruct (Rlt_dec a b)
         | H : context [Rlt_dec ?a ?b] |- _ => destruct (Rlt_dec a b)
         end;
  try discriminate; try reflexivity; try lra.

(** One step through a computation that raises further on. *)
Ltac raise_step :=
  match goal with
  | |- obind None _ = None => reflexivity
  | |- obind ?m _ = None => destruct m; cbn [obind]; [|reflexivity]
  | |- match ?e with _ => _ end = None => destruct e
  end.

(** Case analysis on the minima and maxima of a clip over variables. *)
Ltac clip_cases :=
  repeat match goal with
         | |- context [Rmax ?a ?b] =>
             is_var a; is_var b; destruct (Rle_dec a b);
             [rewrite (Rmax_right a b) by lra
             |rewrite (Rmax_left a b) by lra]
         | |- context [Rmin ?a ?b] =>
             is_var a; is_var b; destruct (Rle_dec a b);
             [rewrite (Rmin_left a b) by lra
             |rewrite (Rmin_right a b) by lra]
         end;
  try reflexivity; try lra.

(* ===================================================================== *)
(** * Properties *)
(* ===================================================================== *)

(** ** The definitions on concrete inputs *)

Example belief_trajectory_3 :
  belief_trajectory [1; 0; 0] (1 / 2) (1 / 2) = [1 / 2; 3 / 4; 3 / 8].
Proof.
  unfold belief_trajectory. cbn.
  repeat (apply (f_equal2 cons); [lra|]). reflexivity.
Qed.

Example belief_trajectory_empty (alpha p0 : R) :
  belief_trajectory [] alpha p0 = [p0].
Proof. reflexivity. Qed.

Example contains_alphaStable : contains "alpha" "alphaStable" = true.
Proof. reflexivity. Qed.

Example contains_nested : contains "beta" "group.beta" = true.
Proof. reflexivity. Qed.

Example contains_not : contains "beta" "alphaVolatile" = false.
Proof. reflexivity. Qed.

Example fields_nested :
  fields (Dict [("group"%string, Dict [("beta"%string, Leaf 3)]);
                ("alpha"%string, Leaf 2)]) ""
  = [("group.beta"%string, 3); ("alpha"%string, 2)].
Proof. reflexivity. Qed.

Example tree_get_0_alpha (a b : R) : tree_get_0 (params_ab a b) "alpha" = Some a.
Proof. reflexivity. Qed.

Example tree_get_0_missing (a b : R) : tree_get_0 (params_ab a b) "omega" = None.
Proof. reflexivity. Qed.

Example nanargmin_skips_nan : nanargmin [NaN; Fin 2; PInf] = Some 1%Z.
Proof. reflexivity. Qed.

Example nanargmin_all_nan : nanargmin [NaN; NaN; NaN] = Some (-1)%Z.
Proof. reflexivity. Qed.

Example nanargmin_nan_and_inf : nanargmin [NaN; PInf] = Some 0%Z.
Proof. reflexivity. Qed.

Example nanargmin_first_minimum : nanargmin [PInf; NInf; NInf] = Some 1%Z.
Proof. reflexivity. Qed.

Example index_dyn_last : index_dyn [Fin 1; Fin 2; Fin 3] (-1) = Some (Fin 3).
Proof. reflexivity. Qed.

Example broadcast2_mismatch : broadcast2 Rplus [1; 2; 3] [1; 2] = None.
Proof. reflexivity. Qed.

Example mean_empty : mean [] = None.
Proof. reflexivity. Qed.

(** ** Arrays *)

Lemma zip_with_length (f : R -> R -> R) (xs ys : array) :
  length (zip_with f xs ys) = Nat.min (length xs) (length ys).
Proof.
  revert ys; induction xs as [|x xs IH]; intros [|y ys]; simpl; auto.
Qed.

Lemma zip_with_ext (f g : R -> R -> R) (xs ys : array) :
  (forall x y, f x y = g x y) -> zip_with f xs ys = zip_with g xs ys.
Proof.
  intros E; revert ys; induction xs as [|x xs IH]; intros [|y ys]; simpl;
    auto.
  now rewrite E, IH.
Qed.

Lemma zip_with_map (f : R -> R -> R) (g h : R -> R) (xs ys : array) :
  zip_with f (map g xs) (map h ys) = zip_with (fun x y => f (g x) (h y)) xs ys.
Proof.
  revert ys; induction xs as [|x xs IH]; intros [|y ys]; simpl; auto.
  now rewrite IH.
Qed.

Lemma hd_map_single (g : R -> R) (xs : array) :
  length xs = 1%nat -> hd 0 (map g xs) = g (hd 0 xs).
Proof. destruct xs; simpl; [discriminate | reflexivity]. Qed.

(** Pre-composing both operands of a broadcast operation. *)
Lemma broadcast2_map (f : R -> R -> R) (g h : R -> R) (xs ys : array) :
  broadcast2 f (map g xs) (map h ys)
  = broadcast2 (fun x y => f (g x) (h y)) xs ys.
Proof.
  unfold broadcast2. rewrite !length_map.
  destruct (Nat.eqb (length xs) (length ys)).
  - now rewrite zip_with_map.
  - destruct (Nat.eqb (length xs) 1) eqn:E1.
    + apply Nat.eqb_eq in E1. rewrite hd_map_single by assumption.
      now rewrite map_map.
    + destruct (Nat.eqb (length ys) 1) eqn:E2; [|reflexivity].
      apply Nat.eqb_eq in E2. rewrite hd_map_single by assumption.
      now rewrite map_map.
Qed.

Lemma broadcast2_map_l (f : R -> R -> R) (g : R -> R) (xs ys : array) :
  broadcast2 f (map g xs) ys = broadcast2 (fun x y => f (g x) y) xs ys.
Proof.
  transitivity (broadcast2 f (map g xs) (map (fun y => y) ys)).
  - now rewrite map_id.
  - apply (broadcast2_map f g (fun y => y)).
Qed.

Lemma broadcast2_ext (f g : R -> R -> R) (xs ys : array) :
  (forall x y, f x y = g x y) -> broadcast2 f xs ys = broadcast2 g xs ys.
Proof.
  intros E. unfold broadcast2.
  destruct (Nat.eqb (length xs) (length ys)).
  - now rewrite (zip_with_ext f g).
  - destruct (Nat.eqb (length xs) 1).
    + f_equal. apply map_ext. intros; apply E.
    + destruct (Nat.eqb (length ys) 1); [|reflexivity].
      f_equal. apply map_ext. intros; apply E.
Qed.

Lemma broadcast2_same_length (f : R -> R -> R) (xs ys : array) :
  length xs = length ys ->
  broadcast2 f xs ys = Some (zip_with f xs ys).
Proof.
  intros E. unfold broadcast2. now rewrite E, Nat.eqb_refl.
Qed.

(** Every entry of a broadcast result is [f x y] for an entry [y] of the
    second operand. *)
Lemma broadcast2_In (f : R -> R -> R) (xs ys zs : array) (z : R) :
  broadcast2 f xs ys = Some zs -> In z zs ->
  exists x y, In y ys /\ z = f x y.
Proof.
  unfold broadcast2.
  destruct (Nat.eqb (length xs) (length ys)) eqn:E.
  - intros [= <-]. clear E. revert ys.
    induction xs as [|x xs IH]; intros [|y ys]; simpl; try tauto.
    intros [<- | H].
    + exists x, y; auto.
    + destruct (IH _ H) as (x' & y' & Hy & ->). exists x', y'; auto.
  - destruct (Nat.eqb (length xs) 1).
    + intros [= <-] H. apply in_map_iff in H as (y & <- & Hy).
      exists (hd 0 xs), y; auto.
    + destruct (Nat.eqb (length ys) 1) eqn:E2; [|discriminate].
      intros [= <-] H. apply in_map_iff in H as (x & <- & Hx).
      exists x, (hd 0 ys). split; [|reflexivity].
      destruct ys as [|y [|? ?]]; simpl in *; try discriminate; auto.
Qed.

Lemma sum_array_nonneg (xs : array) :
  (forall x, In x xs -> 0 <= x) -> 0 <= sum_array xs.
Proof.
  induction xs as [|x xs IH]; simpl; intros H; [lra|].
  assert (0 <= x) by (apply H; auto).
  assert (0 <= sum_array xs) by (apply IH; intros; apply H; auto).
  unfold sum_array in *. lra.
Qed.

Lemma mean_nonneg (xs : array) (v : R) :
  (forall x, In x xs -> 0 <= x) -> mean xs = Some v -> 0 <= v.
Proof.
  intros H. destruct xs as [|x xs]; [discriminate|].
  intros E.
  assert (Hv : v = sum_array (x :: xs) * / INR (length (x :: xs)))
    by (unfold mean in E; injection E as <-; reflexivity).
  rewrite Hv. apply Rmult_le_pos.
  - now apply (sum_array_nonneg (x :: xs)).
  - apply Rlt_le, Rinv_0_lt_compat, (lt_0_INR (length (x :: xs))).
    simpl; lia.
Qed.

(** ** The belief trajectory *)

Lemma post_update_succ (r : array) (alpha : R) (k s : nat) (c : R) :
  post_update r alpha s c (S k)
  = post_update r alpha s c k
    + alpha * (getitem r (s + k) - post_update r alpha s c k).
Proof.
  revert s c; induction k as [|k IH]; intros s c.
  - simpl. now rewrite Nat.add_0_r.
  - change (post_update r alpha s c (S (S k)))
      with (post_update r alpha (S s) (c + alpha * (getitem r s - c)) (S k)).
    rewrite IH. simpl. now rewrite Nat.add_succ_r.
Qed.

Lemma scan_length (r : array) (alpha : R) (n s : nat) (c : R) :
  length (snd (scan (compute_probOpt1 r alpha) c (seq s n))) = n.
Proof.
  revert s c; induction n as [|n IH]; intros s c; simpl; [reflexivity|].
  specialize (IH (S s) (c + alpha * (getitem r s - c))).
  destruct (scan _ _ _); simpl in *. now rewrite IH.
Qed.

Lemma scan_nth (r : array) (alpha : R) (n s t : nat) (c : R) :
  (t < n)%nat ->
  nth t (snd (scan (compute_probOpt1 r alpha) c (seq s n))) 0
  = post_update r alpha s c (S t).
Proof.
  revert s t c; induction n as [|n IH]; intros s t c Ht; [lia|].
  simpl.
  specialize (IH (S s)). 
  destruct (scan (compute_probOpt1 r alpha) (c + alpha * (getitem r s - c))
              (seq (S s) n)) as [c' ys] eqn:E.
  simpl. destruct t as [|t]; [reflexivity|].
  specialize (IH t (c + alpha * (getitem r s - c))).
  rewrite E in IH. simpl in IH. apply IH. lia.
Qed.

Lemma nth_removelast (l : list R) (t : nat) :
  (S t < length l)%nat -> nth t (removelast l) 0 = nth t l 0.
Proof.
  revert t; induction l as [|x l IH]; intros t Ht; [reflexivity|].
  destruct l as [|y l]; [simpl in Ht; lia|].
  change (removelast (x :: y :: l)) with (x :: removelast (y :: l)).
  destruct t as [|t]; [reflexivity|].
  simpl nth. apply IH. simpl in *; lia.
Qed.

Lemma removelast_length (l : list R) :
  length (removelast l) = (length l - 1)%nat.
Proof.
  induction l as [|x l IH]; [reflexivity|].
  destruct l as [|y l]; [reflexivity|].
  change (removelast (x :: y :: l)) with (x :: removelast (y :: l)).
  simpl length in *. rewrite IH. lia.
Qed.

Lemma belief_trajectory_length (r : array) (alpha p0 : R) :
  (1 <= length r)%nat -> length (belief_trajectory r alpha p0) = length r.
Proof.
  intros H. unfold belief_trajectory, arange. simpl.
  rewrite removelast_length, scan_length. lia.
Qed.

Lemma belief_trajectory_nth (r : array) (alpha p0 : R) (t : nat) :
  (t < length r)%nat ->
  nth t (belief_trajectory r alpha p0) 0 = post_update r alpha 0 p0 t.
Proof.
  intros Ht. unfold belief_trajectory, arange.
  destruct t as [|t]; [reflexivity|].
  change (nth (S t) ([p0] ++ ?l) 0) with (nth t l 0).
  rewrite nth_removelast by (rewrite scan_length; lia).
  apply scan_nth. lia.
Qed.

Lemma getitem_nth (r : array) (t : nat) :
  (t < length r)%nat -> getitem r t = nth t r 0.
Proof. intros H. unfold getitem. f_equal. lia. Qed.

(** The first [k] carries read only the first [k] outcomes. *)
Lemma post_update_agree (r r' : array) (alpha p0 : R) (k : nat) :
  (forall j, (j < k)%nat -> getitem r j = getitem r' j) ->
  post_update r alpha 0 p0 k = post_update r' alpha 0 p0 k.
Proof.
  induction k as [|k IH]; intros H; [reflexivity|].
  rewrite !post_update_succ, IH by (intros; apply H; lia).
  simpl. rewrite (H k) by lia. reflexivity.
Qed.

Lemma post_update_unit_interval (r : array) (alpha p0 : R) (k : nat) :
  0 <= alpha <= 1 -> 0 <= p0 <= 1 ->
  (forall j, (j < k)%nat -> binary (getitem r j)) ->
  0 <= post_update r alpha 0 p0 k <= 1.
Proof.
  intros Ha Hp. induction k as [|k IH]; intros H; [simpl; lra|].
  rewrite post_update_succ. simpl.
  assert (Hk : 0 <= post_update r alpha 0 p0 k <= 1)
    by (apply IH; intros; apply H; lia).
  destruct (H k) as [E | E]; [lia | | ]; rewrite E; nra.
Qed.

Lemma belief_trajectory_step (r : array) (alpha p0 : R) (t : nat) :
  (1 <= t < length r)%nat ->
  nth t (belief_trajectory r alpha p0) 0
  = nth (t - 1) (belief_trajectory r alpha p0) 0
    + alpha * (nth (t - 1) r 0 - nth (t - 1) (belief_trajectory r alpha p0) 0).
Proof.
  intros Ht. rewrite !belief_trajectory_nth by lia.
  destruct t as [|t]; [lia|].
  replace (S t - 1)%nat with t by lia.
  rewrite post_update_succ. simpl. now rewrite getitem_nth by lia.
Qed.

Lemma belief_trajectory_agree (r r' : array) (alpha p0 : R) (t : nat) :
  length r' = length r -> (t < length r)%nat ->
  (forall j, (j < t)%nat -> nth j r' 0 = nth j r 0) ->
  nth t (belief_trajectory r' alpha p0) 0
  = nth t (belief_trajectory r alpha p0) 0.
Proof.
  intros Hl Ht H. rewrite !belief_trajectory_nth by lia.
  apply post_update_agree. intros j Hj.
  rewrite !getitem_nth by lia. now apply H.
Qed.

(** C3 (as amended): for a reward sequence of length T >= 1 the trajectory
    [probOpt1] fed to the utility function has length T, starts at [p0], and
    satisfies [probOpt1[t] = probOpt1[t-1] + alpha * (rewarded1[t-1] -
    probOpt1[t-1])] for every [1 <= t < T]: the belief entering trial [t] is
    the updated belief of trial [t-1] itself, not that belief lagged once
    more.  [probOpt1[t]] is the same for two reward sequences that agree
    before trial [t], so it never depends on trial [t]'s own outcome. *)
Theorem belief_trajectory_recurrence (rewarded1 : array) (alpha p0 : R) :
  (1 <= length rewarded1)%nat ->
  let probOpt1 := belief_trajectory rewarded1 alpha p0 in
  length probOpt1 = length rewarded1 /\
  nth 0 probOpt1 0 = p0 /\
  (forall t, (1 <= t < length rewarded1)%nat ->
     nth t probOpt1 0
     = nth (t - 1) probOpt1 0
       + alpha * (nth (t - 1) rewarded1 0 - nth (t - 1) probOpt1 0)) /\
  (forall rewarded1' t,
     length rewarded1' = length rewarded1 -> (t < length rewarded1)%nat ->
     (forall j, (j < t)%nat -> nth j rewarded1' 0 = nth j rewarded1 0) ->
     nth t (belief_trajectory rewarded1' alpha p0) 0 = nth t probOpt1 0).
Proof.
  intros HT probOpt1. repeat split.
  - now apply belief_trajectory_length.
  - intros t Ht. now apply belief_trajectory_step.
  - intros r' t Hl Ht H. now apply belief_trajectory_agree.
Qed.

Lemma belief_trajectory_recurrence_witness :
  let probOpt1 := belief_trajectory [1; 0; 0] (1 / 2) (1 / 2) in
  length probOpt1 = 3%nat /\
  nth 0 probOpt1 0 = 1 / 2 /\
  (forall t, (1 <= t < 3)%nat ->
     nth t probOpt1 0
     = nth (t - 1) probOpt1 0
       + 1 / 2 * (nth (t - 1) [1; 0; 0] 0 - nth (t - 1) probOpt1 0)) /\
  (forall rewarded1' t,
     length rewarded1' = 3%nat -> (t < 3)%nat ->
     (forall j, (j < t)%nat -> nth j rewarded1' 0 = nth j [1; 0; 0] 0) ->
     nth t (belief_trajectory rewarded1' (1 / 2) (1 / 2)) 0 = nth t probOpt1 0).
Proof.
  apply (belief_trajectory_recurrence [1; 0; 0] (1 / 2) (1 / 2)).
  simpl; lia.
Defined.

(** C3 (as stated) fails: on the outcomes [1; 0; 0] with [alpha = 1/2] and
    [p0 = 1/2] the code computes [1/2; 3/4; 3/8], and no belief sequence
    with [belief[t] = belief[t-1] + alpha * (rewarded1[t-1] - belief[t-1])]
    has [probOpt1[1] = belief[0]] and [probOpt1[2] = belief[1]]: that would
    force [belief[1] = 7/8]. *)
Lemma belief_trajectory_not_lagged_recurrence :
  ~ spec_lagged_recurrence [1; 0; 0] (1 / 2) (1 / 2)
      (belief_trajectory [1; 0; 0] (1 / 2) (1 / 2)).
Proof.
  intros [_ (belief & Hrec & Hlag)].
  pose proof (Hrec 1%nat ltac:(simpl; lia)) as H1.
  pose proof (Hlag 1%nat ltac:(simpl; lia)) as L1.
  pose proof (Hlag 2%nat ltac:(simpl; lia)) as L2.
  cbn in H1, L1, L2. lra.
Qed.

(** C7: with [alpha] and [p0] in [0,1] and every outcome 0 or 1, every
    element of the belief trajectory lies in [0,1]. *)
Theorem belief_trajectory_unit_interval (rewarded1 : array) (alpha p0 : R) :
  0 <= alpha <= 1 -> 0 <= p0 <= 1 -> Forall binary rewarded1 ->
  Forall (fun p => 0 <= p <= 1) (belief_trajectory rewarded1 alpha p0).
Proof.
  intros Ha Hp Hr. apply Forall_forall. intros x Hx.
  destruct rewarded1 as [|r0 r].
  - cbn in Hx. destruct Hx as [<- | []]. exact Hp.
  - apply (In_nth _ _ 0) in Hx as (t & Ht & <-).
    rewrite belief_trajectory_length in Ht by (simpl; lia).
    rewrite belief_trajectory_nth by exact Ht.
    apply post_update_unit_interval; trivial.
    intros j Hj. rewrite getitem_nth by lia.
    rewrite Forall_forall in Hr. apply Hr, nth_In. lia.
Qed.

Lemma belief_trajectory_unit_interval_witness :
  Forall (fun p => 0 <= p <= 1) (belief_trajectory [1; 0; 1] (1 / 4) (1 / 2)).
Proof.
  apply (belief_trajectory_unit_interval [1; 0; 1] (1 / 4) (1 / 2)).
  - lra.
  - lra.
  - repeat constructor; unfold binary; lra.
Defined.

(** ** The loss *)

Lemma belief_trajectory_last_outcome (r : array) (x y alpha p0 : R) :
  belief_trajectory (r ++ [x]) alpha p0 = belief_trajectory (r ++ [y]) alpha p0.
Proof.
  assert (Lx : length (r ++ [x]) = S (length r))
    by (rewrite length_app; simpl; lia).
  assert (Ly : length (r ++ [y]) = S (length r))
    by (rewrite length_app; simpl; lia).
  apply (nth_ext _ _ 0 0).
  - rewrite !belief_trajectory_length by lia. lia.
  - intros t Ht. rewrite belief_trajectory_length in Ht by lia.
    apply belief_trajectory_agree; try lia.
    intros j Hj. rewrite !app_nth1 by lia. reflexivity.
Qed.

(** C10: two inputs that differ only in the final trial's outcome (the last
    element of [rewarded1]) have the same loss. *)
Theorem loss_RL_model_ignores_last_outcome
  (rewarded1 magOpt1 magOpt2 choice1 : array) (x y : R) (params : ptree)
  (startingProb : R) (utility_function : utility_function_t) :
  loss_RL_model (rewarded1 ++ [x], magOpt1, magOpt2, choice1) params
    startingProb utility_function
  = loss_RL_model (rewarded1 ++ [y], magOpt1, magOpt2, choice1) params
      startingProb utility_function.
Proof.
  unfold loss_RL_model.
  destruct (tree_get_0 params "alpha") as [alpha|]; [|reflexivity].
  destruct (tree_get_0 params "beta") as [beta|]; [|reflexivity].
  cbn [obind].
  now rewrite (belief_trajectory_last_outcome rewarded1 x y).
Qed.

Lemma cross_entropy_flip (beta d c : R) :
  sigmoid_binary_cross_entropy1 (- beta * d) (1 - c)
  = sigmoid_binary_cross_entropy1 (beta * d) c.
Proof.
  unfold sigmoid_binary_cross_entropy1.
  replace (- (- beta * d)) with (beta * d) by ring.
  replace (- beta * d) with (- (beta * d)) by ring.
  ring.
Qed.

(** C8: the loss is unchanged when the sign of [beta] is flipped and
    [choice1] is replaced by [1 - choice1]. *)
Theorem loss_RL_model_flip_symmetry
  (rewarded1 magOpt1 magOpt2 choice1 : array) (alpha beta startingProb : R)
  (utility_function : utility_function_t) :
  loss_RL_model (rewarded1, magOpt1, magOpt2, choice1)
    (params_ab alpha beta) startingProb utility_function
  = loss_RL_model (rewarded1, magOpt1, magOpt2, map (fun c => 1 - c) choice1)
      (params_ab alpha (- beta)) startingProb utility_function.
Proof.
  unfold loss_RL_model. cbn [params_ab tree_get_0 tree_get_all flat_map
    fst snd String.eqb Ascii.eqb Bool.eqb app obind].
  destruct (utility_function magOpt1 _) as [u1|]; [|reflexivity].
  destruct (utility_function magOpt2 _) as [u2|]; [|reflexivity].
  cbn [obind]. destruct (broadcast2 Rminus u1 u2) as [diff|]; [|reflexivity].
  cbn [obind]. unfold sigmoid_binary_cross_entropy.
  rewrite (broadcast2_map sigmoid_binary_cross_entropy1
             (fun d => - beta * d) (fun c => 1 - c)).
  rewrite (broadcast2_map_l sigmoid_binary_cross_entropy1
             (fun d => beta * d)).
  f_equal. apply broadcast2_ext. intros d c.
  symmetry. apply cross_entropy_flip.
Qed.

Lemma one_plus_exp_pos (x : R) : 0 < 1 + exp x.
Proof. pose proof (exp_pos x). lra. Qed.

Lemma ln_sigmoid (z : R) : ln (sigmoid z) = log_sigmoid z.
Proof.
  unfold sigmoid, log_sigmoid, Rdiv. rewrite Rmult_1_l.
  apply ln_Rinv, one_plus_exp_pos.
Qed.

Lemma one_minus_sigmoid (z : R) : 1 - sigmoid z = sigmoid (- z).
Proof.
  unfold sigmoid. rewrite Ropp_involutive, exp_Ropp.
  pose proof (exp_pos z). pose proof (one_plus_exp_pos z).
  field. split; lra.
Qed.

Lemma log_sigmoid_nonpos (z : R) : log_sigmoid z <= 0.
Proof.
  unfold log_sigmoid.
  assert (0 < ln (1 + exp (- z))).
  { rewrite <- ln_1. apply ln_increasing; [lra|].
    pose proof (exp_pos (- z)). lra. }
  lra.
Qed.

(** The library formula is the cross-entropy of the sigmoid. *)
Lemma cross_entropy_of_sigmoid (z c : R) :
  sigmoid_binary_cross_entropy1 z c = binary_cross_entropy (sigmoid z) c.
Proof.
  unfold sigmoid_binary_cross_entropy1, binary_cross_entropy.
  rewrite one_minus_sigmoid, !ln_sigmoid. ring.
Qed.

Lemma cross_entropy_nonneg (z c : R) :
  binary c -> 0 <= sigmoid_binary_cross_entropy1 z c.
Proof.
  unfold sigmoid_binary_cross_entropy1.
  pose proof (log_sigmoid_nonpos z). pose proof (log_sigmoid_nonpos (- z)).
  intros [-> | ->]; lra.
Qed.

Lemma utility_fun_elementwise : elementwise utility_fun.
Proof.
  intros mag prob H. exists (zip_with Rmult mag prob). split.
  - now apply broadcast2_same_length.
  - rewrite zip_with_length. lia.
Qed.

Lemma zip_with_In (f : R -> R -> R) (xs ys : array) (z : R) :
  In z (zip_with f xs ys) -> exists x y, In y ys /\ z = f x y.
Proof.
  revert ys. induction xs as [|x xs IH]; intros [|y ys]; simpl;
    try contradiction.
  intros [<- | Hin].
  - exists x, y. auto.
  - destruct (IH ys Hin) as (x' & y' & Hy & ->). exists x', y'. auto.
Qed.

Lemma fold_left_Rplus (v : array) :
  forall a, fold_left Rplus v a = a + sum_array v.
Proof.
  induction v as [|x v IH]; intros a; simpl; [ring|].
  rewrite IH. unfold sum_array. ring.
Qed.

Lemma skipn_cons_nth (r : array) :
  forall s, (s < length r)%nat -> skipn s r = nth s r 0 :: skipn (S s) r.
Proof.
  induction r as [|x r IH]; intros s H; [simpl in H; lia|].
  destruct s as [|s]; [reflexivity|].
  simpl in H. change (skipn (S s) (x :: r)) with (skipn s r).
  rewrite (IH s) by lia. reflexivity.
Qed.

Lemma spec_beliefs_length (r : array) :
  forall alpha p, length (spec_beliefs r alpha p) = length r.
Proof.
  induction r as [|x r IH]; intros alpha p; simpl; [reflexivity|].
  now rewrite IH.
Qed.

Lemma spec_beliefs_nth (r : array) (alpha : R) :
  forall k s c, (s + k < length r)%nat ->
    nth k (spec_beliefs (skipn s r) alpha c) 0 = post_update r alpha s c k.
Proof.
  induction k as [|k IH]; intros s c H;
    rewrite (skipn_cons_nth r s) by lia.
  - reflexivity.
  - cbn [spec_beliefs nth post_update].
    rewrite (getitem_nth r s) by lia. apply IH. lia.
Qed.

(** The scan of the code computes the beliefs of the specification. *)
Lemma belief_trajectory_spec_beliefs (r : array) (alpha p0 : R) :
  (1 <= length r)%nat ->
  belief_trajectory r alpha p0 = spec_beliefs r alpha p0.
Proof.
  intros H. apply (nth_ext _ _ 0 0).
  - now rewrite belief_trajectory_length, spec_beliefs_length.
  - intros t Ht. rewrite belief_trajectory_length in Ht by exact H.
    rewrite belief_trajectory_nth by exact Ht.
    symmetry. apply (spec_beliefs_nth r alpha t 0 p0). lia.
Qed.

Lemma zip_with_combine3 (f g : R -> R -> R) (xs ys zs : array) :
  zip_with g (zip_with f xs ys) zs
  = map (fun '(a, b, c) => g (f a b) c) (combine (combine xs ys) zs).
Proof.
  revert ys zs. induction xs as [|x xs IH]; intros [|y ys] [|z zs]; simpl;
    try reflexivity.
  now rewrite IH.
Qed.

(** C4: on a TrialBatch (four arrays of one length T >= 1, choices 0 or 1)
    and an elementwise utility function, [loss_RL_model] returns a scalar,
    this scalar is the mean over the trials of the binary cross-entropy
    between [sigmoid (beta * (U(mag1, probOpt1) - U(mag2, 1 - probOpt1)))]
    and [choice1], and it is non-negative. *)
Theorem loss_RL_model_mean_cross_entropy
  (rewarded1 mag1 mag2 choice1 : array) (alpha beta startingProb : R)
  (U : utility_function_t) :
  (1 <= length rewarded1)%nat ->
  length mag1 = length rewarded1 ->
  length mag2 = length rewarded1 ->
  length choice1 = length rewarded1 ->
  Forall binary choice1 ->
  elementwise U ->
  exists loss : R,
    loss_RL_model (rewarded1, mag1, mag2, choice1) (params_ab alpha beta)
      startingProb U = Some loss /\
    spec_loss (rewarded1, mag1, mag2, choice1) alpha beta startingProb U
      = Some loss /\
    0 <= loss.
Proof.
  intros HT H1 H2 Hc Hbin HU.
  unfold loss_RL_model, spec_loss.
  cbn [params_ab tree_get_0 tree_get_all flat_map
    fst snd String.eqb Ascii.eqb Bool.eqb app obind].
  rewrite <- (belief_trajectory_spec_beliefs rewarded1 alpha startingProb HT).
  pose proof (belief_trajectory_length rewarded1 alpha startingProb HT) as Lp.
  destruct (HU mag1 (belief_trajectory rewarded1 alpha startingProb))
    as (u1 & -> & Lu1); [lia|].
  destruct (HU mag2 (map (fun p => 1 - p)
                       (belief_trajectory rewarded1 alpha startingProb)))
    as (u2 & -> & Lu2); [rewrite length_map; lia|].
  cbn [obind].
  rewrite (broadcast2_same_length Rminus u1 u2) by lia. cbn [obind].
  unfold sigmoid_binary_cross_entropy.
  rewrite broadcast2_same_length
    by (rewrite length_map, zip_with_length; lia).
  set (losses := zip_with sigmoid_binary_cross_entropy1
                   (map (fun d => beta * d) (zip_with Rminus u1 u2)) choice1).
  assert (Ll : length losses = length rewarded1)
    by (unfold losses; rewrite zip_with_length, length_map, zip_with_length;
        lia).
  assert (Hces : map (fun '(a, b, c) =>
                        binary_cross_entropy (sigmoid (beta * (a - b))) c)
                   (combine (combine u1 u2) choice1) = losses).
  { unfold losses.
    rewrite <- (zip_with_combine3 Rminus
                  (fun d c => binary_cross_entropy (sigmoid (beta * d)) c)).
    clear. generalize (zip_with Rminus u1 u2) as ds. intros ds. revert choice1.
    induction ds as [|d ds IH]; intros [|c cs]; simpl; try reflexivity.
    now rewrite IH, cross_entropy_of_sigmoid. }
  assert (Hpos : forall y, In y losses -> 0 <= y).
  { intros y Hy. unfold losses in Hy.
    apply zip_with_In in Hy as (z & c & Hin & ->).
    apply cross_entropy_nonneg. rewrite Forall_forall in Hbin. now apply Hbin. }
  rewrite Hces, fold_left_Rplus, Rplus_0_l, <- Ll.
  clearbody losses. clear Hces.
  exists (sum_array losses / INR (length losses)).
  assert (Em : mean losses = Some (sum_array losses / INR (length losses)))
    by (destruct losses; [simpl in Ll; lia | reflexivity]).
  split; [exact Em|]. split; [reflexivity|].
  now apply (mean_nonneg losses).
Qed.

Lemma loss_RL_model_mean_cross_entropy_witness :
  exists loss : R,
    loss_RL_model ([1; 0], [10; 20], [30; 5], [1; 0]) (params_ab (1 / 2) 1)
      (1 / 2) utility_fun = Some loss /\
    spec_loss ([1; 0], [10; 20], [30; 5], [1; 0]) (1 / 2) 1 (1 / 2)
      utility_fun = Some loss /\
    0 <= loss.
Proof.
  apply (loss_RL_model_mean_cross_entropy [1; 0] [10; 20] [30; 5] [1; 0]
           (1 / 2) 1 (1 / 2) utility_fun).
  - simpl; lia.
  - reflexivity.
  - reflexivity.
  - reflexivity.
  - repeat constructor; unfold binary; lra.
  - exact utility_fun_elementwise.
Defined.

(** ** The projected optimizer loop *)

(** Induction over parameter trees, with the hypothesis for every entry of
    a dictionary. *)
Lemma ptree_induction {A : Type} (P : tree A -> Prop) :
  (forall v, P (Leaf v)) ->
  (forall items, Forall (fun kv => P (snd kv)) items -> P (Dict items)) ->
  forall t, P t.
Proof.
  intros HL HD. fix IH 1. intros [v | items].
  - apply HL.
  - apply HD. induction items as [|[k t] items IHitems]; constructor.
    + apply IH.
    + exact IHitems.
Qed.

Lemma clip_in_interval (x lo hi : R) :
  lo <= hi -> in_interval lo hi (clip x lo hi).
Proof.
  intros H. unfold in_interval, clip, clip_real, Rmin, Rmax.
  destruct (Rle_dec x lo); destruct (Rle_dec _ hi); lra.
Qed.

(** On a real number the floating-point clip is the clip of the reals. *)
Lemma clip_float_Fin (r lo hi : R) : clip (Fin r) lo hi = Fin (clip r lo hi).
Proof.
  unfold clip, clip_float, clip_real, xmaximum, xminimum, Rmin, Rmax.
  simpl.
  destruct (Rlt_dec r lo); destruct (Rle_dec r lo); simpl;
    repeat match goal with
           | |- context [Rlt_dec ?a ?b] => destruct (Rlt_dec a b)
           end;
    repeat match goal with
           | |- context [Rle_dec ?a ?b] => destruct (Rle_dec a b)
           end;
    simpl; try reflexivity; try lra; f_equal; lra.
Qed.

(** The clip of a floating-point value: NaN stays NaN, everything else,
    the infinities included, lands in the interval. *)
Lemma clip_float_spec (x : xfloat) (lo hi : R) :
  lo <= hi ->
  (x = NaN /\ clip x lo hi = NaN) \/
  (x <> NaN /\ real_within lo hi (clip x lo hi)).
Proof.
  intros H. destruct x as [r | | |].
  - right. split; [discriminate|]. rewrite clip_float_Fin.
    exists (clip r lo hi). split; [reflexivity|]. now apply clip_in_interval.
  - right. split; [discriminate|]. exists hi. split.
    + reflexivity.
    + unfold in_interval. lra.
  - right. split; [discriminate|]. exists lo. split.
    + unfold clip, clip_float, xmaximum, xminimum. simpl.
      destruct (Rlt_dec hi lo); [lra | reflexivity].
    + unfold in_interval. lra.
  - left. split; reflexivity.
Qed.

Lemma fields_apply_clip {A : Type} `{Clip A} (paramsClip : ParamsClip)
  (params : tree A) :
  forall path,
    fields (apply_clip paramsClip params path) path
    = map (fun nv => (fst nv, clip_param paramsClip (snd nv) (fst nv)))
        (fields params path).
Proof.
  induction params as [v | items IH] using ptree_induction; intros path.
  - reflexivity.
  - simpl. induction IH as [|[k t] items Hk _ IHitems]; [reflexivity|].
    simpl. rewrite map_app. f_equal; [apply Hk | apply IHitems].
Qed.

Lemma field_names_apply_clip {A : Type} `{Clip A} (paramsClip : ParamsClip)
  (params : tree A) (path : string) :
  field_names (apply_clip paramsClip params path) path
  = field_names params path.
Proof.
  unfold field_names. rewrite fields_apply_clip, map_map. reflexivity.
Qed.

Lemma field_names_apply_updates (params : ftree) :
  forall updates params' path,
    apply_updates params updates = Some params' ->
    field_names params' path = field_names params path.
Proof.
  unfold field_names.
  induction params as [v | items IH] using ptree_induction;
    intros [u | us] params' path; simpl; try discriminate.
  - intros [= <-]. reflexivity.
  - destruct (zip_items apply_updates items us) as [items'|] eqn:E;
      [|discriminate].
    intros [= <-]. simpl. revert us items' E.
    induction IH as [|[k t] items Hk _ IHitems]; intros [|[k' u] us] items';
      simpl; try discriminate.
    + intros [= <-]. reflexivity.
    + destruct (String.eqb k k'); [|discriminate].
      destruct (apply_updates t u) as [t'|] eqn:Et; [|discriminate].
      simpl. destruct (zip_items apply_updates items us) as [r|] eqn:Er;
        [|discriminate].
      intros [= <-]. simpl. rewrite !map_app. f_equal.
      * simpl in Hk. now apply (Hk u).
      * now apply (IHitems us).
Qed.

Lemma apply_updates_tree_map (f : xfloat -> xfloat) (params : ftree) :
  apply_updates params (tree_map f params) <> None.
Proof.
  induction params as [v | items IH] using ptree_induction; simpl;
    [discriminate|].
  assert (H : zip_items apply_updates items
                (map (fun kv => (fst kv, tree_map f (snd kv))) items)
              <> None).
  { induction IH as [|[k t] items Hk _ IHitems]; simpl; [discriminate|].
    rewrite String.eqb_refl. simpl in Hk.
    destruct (apply_updates t (tree_map f t)); [|contradiction].
    simpl. destruct (zip_items _ _ _); [discriminate | contradiction]. }
  destruct (zip_items _ _ _); [discriminate | contradiction].
Qed.

Lemma constant_step_lawful (d : xfloat) (g : ftree) :
  lawful (constant_step d g).
Proof.
  constructor; simpl; intros.
  - reflexivity.
  - reflexivity.
  - apply apply_updates_tree_map.
Qed.

(** The projection leaves every clipped field NaN or inside the interval
    its name selects, as soon as those intervals are not empty: they are
    not when the field started inside. *)
Lemma project_params_within (paramsClip : ParamsClip)
  (init_params p : ftree) :
  clip_bounds real_within paramsClip init_params ->
  field_names p "" = field_names init_params "" ->
  clip_bounds nan_or_within paramsClip (project_params p paramsClip).
Proof.
  intros Hinit Hnames name v Hin.
  unfold project_params in Hin. rewrite fields_apply_clip in Hin.
  apply in_map_iff in Hin as ([n v0] & [= <- <-] & Hin0). simpl.
  assert (Hn : In n (field_names init_params "")).
  { rewrite <- Hnames. unfold field_names.
    apply in_map_iff. exists (n, v0). auto. }
  unfold field_names in Hn. apply in_map_iff in Hn as ([n' v1] & Hn' & Hin1).
  simpl in Hn'. subst n'. destruct (Hinit n v1 Hin1) as [Ha Hb].
  unfold clip_param. split.
  - intros E. rewrite E. destruct (Ha E) as (r & _ & Hr).
    unfold in_interval in Hr.
    destruct (clip_float_spec v0 (alphaMin paramsClip) (alphaMax paramsClip))
      as [[_ ->] | [_ Hw]]; [lra | now left | now right].
  - intros E E'. rewrite E, E'. destruct (Hb E E') as (r & _ & Hr).
    unfold in_interval in Hr.
    destruct (clip_float_spec v0 (betaMin paramsClip) (betaMax paramsClip))
      as [[_ ->] | [_ Hw]]; [lra | now left | now right].
Qed.

Lemma real_within_weaken (paramsClip : ParamsClip) (p : ftree) :
  clip_bounds real_within paramsClip p ->
  clip_bounds nan_or_within paramsClip p.
Proof.
  intros H name v Hin. destruct (H name v Hin) as [Ha Hb].
  split; intros; right; auto.
Qed.

Lemma step_feasible (opt : GradientTransformation) (fun_ : ftree -> xfloat)
  (paramsClip : ParamsClip) (init_params : ftree) (c c' : carry_t opt) :
  clip_bounds real_within paramsClip init_params ->
  feasible opt paramsClip init_params c ->
  step opt fun_ paramsClip c = Some c' ->
  feasible opt paramsClip init_params c'.
Proof.
  intros Hinit [Hn _]. unfold step. destruct c as [params state].
  destruct (value_and_grad_from_state opt fun_ params state) as [value grad].
  destruct (update opt grad state params value grad fun_) as [updates state'].
  destruct (apply_updates params updates) as [p'|] eqn:E; [|discriminate].
  intros [= <-]. simpl in *.
  assert (Hn' : field_names (project_params p' paramsClip) ""
                = field_names init_params "").
  { unfold project_params. rewrite field_names_apply_clip.
    rewrite (field_names_apply_updates _ _ _ _ E). exact Hn. }
  split; [exact Hn'|].
  apply (project_params_within paramsClip init_params); trivial.
  rewrite (field_names_apply_updates _ _ _ _ E). exact Hn.
Qed.

Lemma while_loop_invariant {C : Type} (J : C -> Prop) (cond_fun : C -> bool)
  (body_fun : C -> option C) :
  (forall c c', J c -> body_fun c = Some c' -> J c') ->
  forall fuel c c', J c -> while_loop fuel cond_fun body_fun c = Some c' ->
                    J c'.
Proof.
  intros Hbody. induction fuel as [|fuel IH]; intros c c' Hc; simpl.
  - destruct (cond_fun c); [discriminate|]. now intros [= <-].
  - destruct (cond_fun c); [|now intros [= <-]].
    destruct (body_fun c) as [c1|] eqn:E; [|discriminate]. simpl.
    apply IH. now apply (Hbody c).
Qed.

Lemma iterate_invariant {C : Type} (J : C -> Prop) (body_fun : C -> option C) :
  (forall c c', J c -> body_fun c = Some c' -> J c') ->
  forall n c c', J c -> iterate body_fun n c = Some c' -> J c'.
Proof.
  intros Hbody. induction n as [|n IH]; intros c c' Hc; simpl.
  - now intros [= <-].
  - destruct (iterate body_fun n c) as [c1|] eqn:E; [|discriminate]. simpl.
    apply Hbody. now apply (IH c).
Qed.

Lemma iterate_succ_l {C : Type} (body_fun : C -> option C) (n : nat) (c : C) :
  iterate body_fun (S n) c = c1 <- body_fun c ;; iterate body_fun n c1.
Proof.
  induction n as [|n IH].
  - simpl. destruct (body_fun c); reflexivity.
  - change (iterate body_fun (S (S n)) c)
      with (c' <- iterate body_fun (S n) c ;; body_fun c').
    rewrite IH. destruct (body_fun c); reflexivity.
Qed.

(** A loop whose condition holds on the first [n] carries and fails on the
    next one returns that carry after [n] executions of its body. *)
Lemma while_loop_runs {C : Type} (cond_fun : C -> bool)
  (body_fun : C -> option C) :
  forall n c c',
    iterate body_fun n c = Some c' ->
    (forall k, (k < n)%nat ->
       exists ck, iterate body_fun k c = Some ck /\ cond_fun ck = true) ->
    cond_fun c' = false ->
    forall fuel, (n <= fuel)%nat ->
      while_loop fuel cond_fun body_fun c = Some c'.
Proof.
  induction n as [|n IH]; intros c c' Hit Htrue Hfalse fuel Hfuel.
  - simpl in Hit. injection Hit as <-.
    destruct fuel; simpl; now rewrite Hfalse.
  - destruct fuel as [|fuel]; [lia|].
    destruct (Htrue 0%nat ltac:(lia)) as (c0 & E0 & Hc0).
    simpl in E0. injection E0 as <-.
    simpl. rewrite Hc0. rewrite iterate_succ_l in Hit.
    destruct (body_fun c) as [c1|] eqn:E1; [|discriminate]. simpl in *.
    apply (IH c1 c'); trivial; [|lia].
    intros k Hk. destruct (Htrue (S k) ltac:(lia)) as (ck & Ek & Hck).
    rewrite iterate_succ_l, E1 in Ek. simpl in Ek. eauto.
Qed.

Lemma Rge_bool_true (x y : R) : Rge_bool x y = true <-> x >= y.
Proof.
  unfold Rge_bool. destruct (Rge_dec x y); split; auto; discriminate.
Qed.

(** IEEE comparison with a real number: [x >= t] fails exactly when
    [x < t] or [x] is NaN. *)
Lemma xge_false (x : xfloat) (t : R) :
  xge x (Fin t) = false <-> xlt x (Fin t) = true \/ isnan x = true.
Proof.
  destruct x as [r | | |]; simpl; unfold Rge_bool.
  - destruct (Rge_dec r t); destruct (Rlt_dec r t); try lra;
      split; auto; intros [H | H]; discriminate H.
  - split; [discriminate | intros [H | H]; discriminate H].
  - split; auto.
  - split; auto.
Qed.

Lemma continuing_criterion_true (opt : GradientTransformation) (max_iter : Z)
  (tol : R) (carry : carry_t opt) :
  continuing_criterion opt max_iter tol carry = true <->
  tree_get_count opt (snd carry) = 0%Z \/
  ((tree_get_count opt (snd carry) < max_iter)%Z /\
   xge (tree_l2_norm (tree_get_grad opt (snd carry))) (Fin tol) = true).
Proof.
  destruct carry as [params state]. unfold continuing_criterion. simpl.
  rewrite orb_true_iff, andb_true_iff, Z.eqb_eq, Z.ltb_lt.
  reflexivity.
Qed.

Lemma continuing_criterion_false (opt : GradientTransformation) (max_iter : Z)
  (tol : R) (carry : carry_t opt) :
  continuing_criterion opt max_iter tol carry = false <->
  tree_get_count opt (snd carry) <> 0%Z /\
  ((tree_get_count opt (snd carry) >= max_iter)%Z \/
   xlt (tree_l2_norm (tree_get_grad opt (snd carry))) (Fin tol) = true \/
   isnan (tree_l2_norm (tree_get_grad opt (snd carry))) = true).
Proof.
  rewrite <- not_true_iff_false, continuing_criterion_true.
  rewrite <- xge_false.
  split.
  - intros H. split.
    + intros E. apply H. now left.
    + destruct (Z_lt_ge_dec (tree_get_count opt (snd carry)) max_iter)
        as [Hlt | Hge]; [|now left].
      right. apply not_true_iff_false. intros Hge. apply H. right.
      now split.
  - intros [Hne [Hge | Hlt]] [E | [Hlt' Hge']]; try contradiction; try lia.
    congruence.
Qed.

Lemma step_total (opt : GradientTransformation) (fun_ : ftree -> xfloat)
  (paramsClip : ParamsClip) (c : carry_t opt) :
  lawful opt ->
  exists c', step opt fun_ paramsClip c = Some c' /\
             tree_get_count opt (snd c')
             = (tree_get_count opt (snd c) + 1)%Z.
Proof.
  intros L. unfold step. destruct c as [params state].
  destruct (value_and_grad_from_state opt fun_ params state) as [value grad].
  pose proof (count_update opt L grad state params value grad fun_) as Hc.
  pose proof (updates_fit opt L grad state params value grad fun_) as Hu.
  destruct (update opt grad state params value grad fun_) as [updates state'].
  simpl in *. destruct (apply_updates params updates) as [p'|];
    [|contradiction].
  simpl. eexists; split; [reflexivity|]. exact Hc.
Qed.

(** With a lawful optimizer the loop of [run_opt] reaches, within
    [max 1 max_iter] executions of its body, a first carry on which the
    continuing criterion fails. *)
Lemma run_opt_first_stop (opt : GradientTransformation)
  (fun_ : ftree -> xfloat)
  (paramsClip : ParamsClip) (max_iter : Z) (tol : R) (c0 : carry_t opt) :
  lawful opt ->
  tree_get_count opt (snd c0) = 0%Z ->
  forall m k c,
    (k + m = Z.to_nat (Z.max 1 max_iter))%nat ->
    iterate (step opt fun_ paramsClip) k c0 = Some c ->
    tree_get_count opt (snd c) = Z.of_nat k ->
    (forall j, (j < k)%nat ->
       exists cj, iterate (step opt fun_ paramsClip) j c0 = Some cj /\
                  continuing_criterion opt max_iter tol cj = true) ->
    exists n c',
      (1 <= n <= Z.to_nat (Z.max 1 max_iter))%nat /\
      iterate (step opt fun_ paramsClip) n c0 = Some c' /\
      tree_get_count opt (snd c') = Z.of_nat n /\
      (forall j, (j < n)%nat ->
         exists cj, iterate (step opt fun_ paramsClip) j c0 = Some cj /\
                    continuing_criterion opt max_iter tol cj = true) /\
      continuing_criterion opt max_iter tol c' = false.
Proof.
  intros L H0. induction m as [|m IH]; intros k c Hkm Hit Hcount Hbefore.
  - exists k, c. repeat split; trivial; try lia.
    apply continuing_criterion_false. rewrite Hcount. lia.
  - destruct (continuing_criterion opt max_iter tol c) eqn:Ec.
    + destruct (step_total opt fun_ paramsClip c L) as (c1 & E1 & Hc1).
      apply (IH (S k) c1).
      * lia.
      * simpl. rewrite Hit. exact E1.
      * rewrite Hc1, Hcount. lia.
      * intros j Hj. destruct (Nat.eq_dec j k) as [-> | Hne].
        -- exists c. auto.
        -- apply Hbefore. lia.
    + exists k, c. repeat split; trivial; try lia.
      apply continuing_criterion_false in Ec. lia.
Qed.

Lemma run_opt_terminates (opt : GradientTransformation)
  (fun_ : ftree -> xfloat)
  (paramsClip : ParamsClip) (max_iter : Z) (tol : R) (init_params : ftree)
  (fuel : nat) :
  lawful opt ->
  (Z.to_nat (Z.max 1 max_iter) <= fuel)%nat ->
  let init_carry := (init_params, init opt init_params) in
  exists n carry,
    run_opt fuel init_params fun_ opt max_iter tol paramsClip = Some carry /\
    (1 <= n <= Z.to_nat (Z.max 1 max_iter))%nat /\
    iterate (step opt fun_ paramsClip) n init_carry = Some carry /\
    (forall j, (j < n)%nat ->
       exists cj, iterate (step opt fun_ paramsClip) j init_carry = Some cj /\
                  continuing_criterion opt max_iter tol cj = true) /\
    continuing_criterion opt max_iter tol carry = false.
Proof.
  intros L Hfuel init_carry.
  destruct (run_opt_first_stop opt fun_ paramsClip max_iter tol init_carry L
              (count_init opt L init_params)
              (Z.to_nat (Z.max 1 max_iter)) 0%nat init_carry)
    as (n & c' & Hn & Hit & _ & Hbefore & Hstop); trivial.
  - apply (count_init opt L).
  - intros j Hj; lia.
  - exists n, c'. repeat split; trivial; try lia.
    unfold run_opt. apply (while_loop_runs _ _ n); trivial. lia.
Qed.

(** C2 (as amended): the loop continues exactly when the iteration count is
    0, or the count is below [max_iter] and the gradient norm is at least
    [tol]; the comparison is the one of floating-point numbers, false on a
    NaN norm, so the loop stops exactly when the count is nonzero and (count
    >= max_iter, or norm < tol, or the norm is NaN).  With an optimizer that
    counts its updates, [run_opt] returns after [n] executions of the step
    with [1 <= n <= max 1 max_iter], whatever the initial gradient norm: the
    criterion holds on the first [n] carries and fails on the returned
    one. *)
Theorem run_opt_stopping_rule (opt : GradientTransformation)
  (fun_ : ftree -> xfloat) (paramsClip : ParamsClip) (max_iter : Z) (tol : R)
  (init_params : ftree) :
  (forall carry : carry_t opt,
     let iter_num := tree_get_count opt (snd carry) in
     let err := tree_l2_norm (tree_get_grad opt (snd carry)) in
     (continuing_criterion opt max_iter tol carry = true <->
      iter_num = 0%Z \/
      ((iter_num < max_iter)%Z /\ xge err (Fin tol) = true)) /\
     (continuing_criterion opt max_iter tol carry = false <->
      iter_num <> 0%Z /\
      ((iter_num >= max_iter)%Z \/ xlt err (Fin tol) = true \/
       isnan err = true))) /\
  (lawful opt ->
   forall fuel, (Z.to_nat (Z.max 1 max_iter) <= fuel)%nat ->
     let init_carry := (init_params, init opt init_params) in
     exists n carry,
       run_opt fuel init_params fun_ opt max_iter tol paramsClip
       = Some carry /\
       (1 <= n <= Z.to_nat (Z.max 1 max_iter))%nat /\
       iterate (step opt fun_ paramsClip) n init_carry = Some carry /\
       (forall j, (j < n)%nat ->
          exists cj,
            iterate (step opt fun_ paramsClip) j init_carry = Some cj /\
            continuing_criterion opt max_iter tol cj = true) /\
       continuing_criterion opt max_iter tol carry = false).
Proof.
  split.
  - intros carry. split.
    + apply continuing_criterion_true.
    + apply continuing_criterion_false.
  - intros L fuel Hfuel. now apply run_opt_terminates.
Qed.

Lemma run_opt_stopping_rule_witness :
  let opt := constant_step (Fin 0) (Leaf (Fin 0)) in
  let init_params := params_ab (Fin (1 / 2)) (Fin (1 / 2)) in
  exists n carry,
    run_opt 3 init_params (fun _ => Fin 0) opt 3 (1 / 1000)
      default_paramsClip = Some carry /\
    (1 <= n <= Z.to_nat (Z.max 1 3))%nat /\
    iterate (step opt (fun _ => Fin 0) default_paramsClip) n
      (init_params, 0%Z) = Some carry /\
    (forall j, (j < n)%nat ->
       exists cj,
         iterate (step opt (fun _ => Fin 0) default_paramsClip) j
           (init_params, 0%Z) = Some cj /\
         continuing_criterion opt 3 (1 / 1000) cj = true) /\
    continuing_criterion opt 3 (1 / 1000) carry = false.
Proof.
  apply (proj2 (run_opt_stopping_rule (constant_step (Fin 0) (Leaf (Fin 0)))
                  (fun _ => Fin 0) default_paramsClip 3 (1 / 1000)
                  (params_ab (Fin (1 / 2)) (Fin (1 / 2))))).
  - apply constant_step_lawful.
  - simpl; lia.
Defined.

(** C2 (as stated) fails on a NaN gradient: the optimizer below stores a
    NaN gradient, whose norm is NaN, and [run_opt] stops after its first
    step, with the count 1 below [max_iter = 5], although the norm is not
    below [tol]. *)
Lemma run_opt_stops_on_nan_gradient :
  let opt := constant_step (Fin 0) (Leaf NaN) in
  exists carry,
    run_opt 5 (params_ab (Fin (1 / 2)) (Fin (1 / 2))) (fun _ => Fin 0) opt 5
      (1 / 1000) default_paramsClip = Some carry /\
    continuing_criterion opt 5 (1 / 1000) carry = false /\
    ~ (tree_get_count opt (snd carry) <> 0%Z /\
       ((tree_get_count opt (snd carry) >= 5)%Z \/
        xlt (tree_l2_norm (tree_get_grad opt (snd carry))) (Fin (1 / 1000))
        = true)).
Proof.
  eexists. split; [reflexivity|]. split; [reflexivity|].
  simpl. intros [_ [H | H]]; [lia | discriminate H].
Qed.

(** C1 (as amended): from initial parameters whose clipped fields are real
    numbers within their bounds, the parameters after every number of steps
    of the loop, and the parameters [run_opt] returns, have every field
    whose name contains "alpha" either NaN or inside [alphaMin, alphaMax],
    and every field whose name contains "beta" and not "alpha" either NaN or
    inside [betaMin, betaMax]; with an optimizer that counts its updates
    [run_opt] does return. *)
Theorem run_opt_within_clip_bounds (opt : GradientTransformation)
  (fun_ : ftree -> xfloat) (paramsClip : ParamsClip) (max_iter : Z) (tol : R)
  (init_params : ftree) :
  clip_bounds real_within paramsClip init_params ->
  let init_carry := (init_params, init opt init_params) in
  (forall n carry,
     iterate (step opt fun_ paramsClip) n init_carry = Some carry ->
     clip_bounds nan_or_within paramsClip (fst carry)) /\
  (forall fuel carry,
     run_opt fuel init_params fun_ opt max_iter tol paramsClip = Some carry ->
     clip_bounds nan_or_within paramsClip (fst carry)) /\
  (lawful opt ->
   exists carry,
     run_opt (Z.to_nat (Z.max 1 max_iter)) init_params fun_ opt max_iter tol
       paramsClip = Some carry /\
     clip_bounds nan_or_within paramsClip (fst carry)).
Proof.
  intros Hinit init_carry.
  assert (H0 : feasible opt paramsClip init_params init_carry)
    by (split; [reflexivity | now apply real_within_weaken]).
  assert (Hstep : forall c c' : carry_t opt,
             feasible opt paramsClip init_params c ->
             step opt fun_ paramsClip c = Some c' ->
             feasible opt paramsClip init_params c')
    by (intros c c'; now apply step_feasible).
  assert (Hloop : forall fuel carry,
             run_opt fuel init_params fun_ opt max_iter tol paramsClip
             = Some carry ->
             clip_bounds nan_or_within paramsClip (fst carry)).
  { intros fuel carry H.
    apply (while_loop_invariant (feasible opt paramsClip init_params)
             _ _ Hstep fuel init_carry carry H0 H). }
  split; [|split].
  - intros n carry H.
    apply (iterate_invariant (feasible opt paramsClip init_params)
             _ Hstep n init_carry carry H0 H).
  - exact Hloop.
  - intros L.
    destruct (run_opt_terminates opt fun_ paramsClip max_iter tol init_params
                (Z.to_nat (Z.max 1 max_iter)) L (Nat.le_refl _))
      as (n & carry & Hrun & _).
    exists carry. split; [exact Hrun|]. now apply (Hloop _ _ Hrun).
Qed.

Lemma params_ab_within_default :
  clip_bounds real_within default_paramsClip
    (params_ab (Fin (1 / 2)) (Fin (1 / 4))).
Proof.
  intros name v [[= <- <-] | [[= <- <-] | []]]; simpl;
    split; intros H; try discriminate H; try (intros H'; try discriminate H');
    eexists; (split; [reflexivity|]); unfold in_interval; lra.
Qed.

Lemma run_opt_within_clip_bounds_witness :
  let opt := constant_step (Fin 1) (Leaf (Fin 1)) in
  let init_params := params_ab (Fin (1 / 2)) (Fin (1 / 4)) in
  (forall n carry,
     iterate (step opt (fun _ => Fin 0) default_paramsClip) n
       (init_params, 0%Z) = Some carry ->
     clip_bounds nan_or_within default_paramsClip (fst carry)) /\
  (forall fuel carry,
     run_opt fuel init_params (fun _ => Fin 0) opt 100 (1 / 1000)
       default_paramsClip = Some carry ->
     clip_bounds nan_or_within default_paramsClip (fst carry)) /\
  (exists carry,
     run_opt (Z.to_nat (Z.max 1 100)) init_params (fun _ => Fin 0) opt 100
       (1 / 1000) default_paramsClip = Some carry /\
     clip_bounds nan_or_within default_paramsClip (fst carry)).
Proof.
  destruct (run_opt_within_clip_bounds (constant_step (Fin 1) (Leaf (Fin 1)))
              (fun _ => Fin 0) default_paramsClip 100 (1 / 1000)
              (params_ab (Fin (1 / 2)) (Fin (1 / 4)))
              params_ab_within_default)
    as (Hsteps & Hloop & Hreturns).
  split; [exact Hsteps | split; [exact Hloop|]].
  exact (Hreturns (constant_step_lawful (Fin 1) (Leaf (Fin 1)))).
Defined.

(** C1 (as stated) fails for a field whose name contains both "alpha" and
    "beta": [clip_param] clips it to the alpha bounds only.  With alpha
    bounds [0, 2] and beta bounds [0, 1], the field "alpha_beta" starts at
    1/2, inside both, and one step of size 1 leaves it at 3/2, outside the
    beta bounds. *)
Lemma run_opt_beta_bounds_escape :
  let paramsClip :=
    {| alphaMin := 0; alphaMax := 2; betaMin := 0; betaMax := 1 |} in
  let init_params := Dict [("alpha_beta"%string, Leaf (Fin (1 / 2)))] in
  within_bounds paramsClip init_params /\
  exists carry,
    run_opt 1 init_params (fun _ => Fin 0)
      (constant_step (Fin 1) (Leaf (Fin 0))) 1 (1 / 1000) paramsClip
    = Some carry /\
    ~ within_bounds paramsClip (fst carry).
Proof.
  split.
  - intros name v [[= <- <-] | []]. simpl.
    split; intros _; eexists; (split; [reflexivity|]); unfold in_interval;
      lra.
  - eexists. split; [reflexivity|].
    intros H. simpl in H.
    destruct (H "alpha_beta"%string _ (or_introl eq_refl)) as [_ Hb].
    destruct (Hb eq_refl) as (r & Er & Hr). simpl in Er.
    unfold clip_param in Er. simpl in Er. rewrite clip_float_Fin in Er.
    injection Er as <-. unfold in_interval in Hr. simpl in Hr.
    unfold clip, clip_real, Rmin, Rmax in Hr.
    destruct (Rle_dec (1 / 2 + 1) 0) as [Hle | Hnle]; [lra|].
    destruct (Rle_dec (1 / 2 + 1) 2) as [Hle | Hnle']; lra.
Qed.

(** C1 (as stated) also fails on a NaN update: it passes [apply_updates]
    and the clip unchanged, and [run_opt] returns NaN parameters from
    initial parameters within their bounds. *)
Lemma run_opt_nan_escape :
  let init_params := params_ab (Fin (1 / 2)) (Fin (1 / 4)) in
  within_bounds default_paramsClip init_params /\
  run_opt 1 init_params (fun _ => Fin 0) (constant_step NaN (Leaf (Fin 0))) 1
    (1 / 1000) default_paramsClip
  = Some (params_ab NaN NaN, 1%Z) /\
  ~ within_bounds default_paramsClip (params_ab NaN NaN).
Proof.
  split; [|split].
  - intros name v [[= <- <-] | [[= <- <-] | []]]; simpl;
      split; intros H; try discriminate H;
      eexists; (split; [reflexivity|]); unfold in_interval; lra.
  - reflexivity.
  - intros H.
    destruct (H "alpha"%string NaN (or_introl eq_refl)) as [Ha _].
    destruct (Ha eq_refl) as (r & Er & _). discriminate Er.
Qed.

(** ** The multi-start selection *)

Lemma xlt_irrefl (x : xfloat) : xlt x x = false.
Proof. xfloat_cases. Qed.

Lemma xlt_below (x y b : xfloat) :
  xlt x b = true -> xlt y b = false -> isnan y = false ->
  xlt x y = true /\ xlt y x = false.
Proof. intros H1 H2 H3. split; xfloat_cases. Qed.

Lemma nan_to_inf_not_nan (x : xfloat) : isnan (nan_to_inf x) = false.
Proof. destruct x; reflexivity. Qed.

Lemma argmin_from_spec (l : list xfloat) (d : xfloat) :
  (forall x, In x l -> isnan x = false) ->
  forall xs pre best,
    l = pre ++ xs -> (best < length pre)%nat ->
    (forall j, (j < length pre)%nat ->
       xlt (nth j l d) (nth best l d) = false) ->
    (forall j, (j < best)%nat -> xlt (nth best l d) (nth j l d) = true) ->
    let b := argmin_from xs (length pre) best (nth best l d) in
    (b < length l)%nat /\
    (forall j, (j < length l)%nat -> xlt (nth j l d) (nth b l d) = false) /\
    (forall j, (j < b)%nat -> xlt (nth b l d) (nth j l d) = true).
Proof.
  intros Hnan. induction xs as [|x xs IH]; intros pre best El Hb Hmin Hfirst.
  - simpl. rewrite El, app_nil_r in *. auto.
  - assert (El' : l = (pre ++ [x]) ++ xs) by (now rewrite <- app_assoc).
    assert (Hx : nth (length pre) l d = x)
      by (rewrite El, app_nth2, Nat.sub_diag by lia; reflexivity).
    assert (Hxn : isnan x = false)
      by (apply Hnan; rewrite El; apply in_or_app; right; left; reflexivity).
    assert (Hlen : length (pre ++ [x]) = S (length pre))
      by (rewrite length_app; simpl; lia).
    simpl. rewrite Hxn. simpl. rewrite orb_false_r.
    destruct (xlt x (nth best l d)) eqn:E.
    + specialize (IH (pre ++ [x]) (length pre) El').
      rewrite Hlen, Hx in IH. apply IH.
      * lia.
      * intros j Hj. destruct (Nat.eq_dec j (length pre)) as [-> | Hne].
        -- rewrite Hx. apply xlt_irrefl.
        -- apply (xlt_below x _ (nth best l d)); trivial.
           ++ apply Hmin. lia.
           ++ apply Hnan, nth_In. rewrite El, length_app. simpl. lia.
      * intros j Hj. apply (xlt_below x _ (nth best l d)); trivial.
        -- apply Hmin. lia.
        -- apply Hnan, nth_In. rewrite El, length_app. simpl. lia.
    + specialize (IH (pre ++ [x]) best El').
      rewrite Hlen in IH. apply IH.
      * lia.
      * intros j Hj. destruct (Nat.eq_dec j (length pre)) as [-> | Hne].
        -- now rewrite Hx.
        -- apply Hmin. lia.
      * exact Hfirst.
Qed.

(** [argmin] of a NaN-free array: the first position of a smallest entry. *)
Lemma argmin_spec (l : list xfloat) (d : xfloat) :
  (forall x, In x l -> isnan x = false) -> l <> [] ->
  exists b,
    argmin l = Some b /\ (b < length l)%nat /\
    (forall j, (j < length l)%nat -> xlt (nth j l d) (nth b l d) = false) /\
    (forall j, (j < b)%nat -> xlt (nth b l d) (nth j l d) = true).
Proof.
  intros Hnan Hne. destruct l as [|x xs]; [contradiction|].
  exists (argmin_from xs 1 0 x). split; [reflexivity|].
  apply (argmin_from_spec (x :: xs) d Hnan xs [x] 0%nat); simpl; trivial.
  - lia.
  - intros j Hj. replace j with 0%nat by lia. apply xlt_irrefl.
  - intros j Hj. lia.
Qed.

Lemma forallb_isnan (loss : list xfloat) :
  forallb (fun b => b) (map isnan loss) = true <->
  forall x, In x loss -> isnan x = true.
Proof.
  rewrite forallb_forall. split.
  - intros H x Hx. apply H, in_map. exact Hx.
  - intros H b Hb. apply in_map_iff in Hb as (x & <- & Hx). now apply H.
Qed.

(** The selected run is one of the runs; when not every loss is NaN it is
    the first position of a smallest loss once NaN counts as [+inf]. *)
Lemma selected_run_spec (loss : list xfloat) :
  loss <> [] ->
  exists z,
    nanargmin loss = Some z /\
    (selected_run loss < length loss)%nat /\
    ((forall x, In x loss -> isnan x = true) ->
     z = (-1)%Z /\ selected_run loss = (length loss - 1)%nat) /\
    (~ (forall x, In x loss -> isnan x = true) ->
     let b := selected_run loss in
     z = Z.of_nat b /\
     (forall j, (j < length loss)%nat ->
        xlt (nan_to_inf (nth j loss NaN)) (nan_to_inf (nth b loss NaN))
        = false) /\
     (forall j, (j < b)%nat ->
        xlt (nan_to_inf (nth b loss NaN)) (nan_to_inf (nth j loss NaN))
        = true)).
Proof.
  intros Hne.
  assert (Hlen : (0 < length loss)%nat)
    by (destruct loss; [contradiction | simpl; lia]).
  destruct (argmin_spec (map nan_to_inf loss) PInf)
    as (b & Eb & Hb & Hmin & Hfst).
  { intros x Hx. apply in_map_iff in Hx as (y & <- & _).
    apply nan_to_inf_not_nan. }
  { destruct loss; [contradiction | discriminate]. }
  rewrite length_map in Hb, Hmin.
  assert (Hnth : forall j, nth j (map nan_to_inf loss) PInf
                           = nan_to_inf (nth j loss NaN))
    by (intros j; apply (map_nth nan_to_inf loss NaN j)).
  unfold selected_run, nanargmin. fold nan_to_inf. rewrite Eb. simpl.
  destruct (forallb (fun b0 => b0) (map isnan loss)) eqn:Eall.
  - exists (-1)%Z. simpl. split; [reflexivity|]. split; [lia|]. split.
    + intros _. split; reflexivity.
    + intros Hnot. exfalso. apply Hnot. now apply forallb_isnan.
  - exists (Z.of_nat b).
    assert (Eltb : (Z.of_nat b <? 0)%Z = false) by (apply Z.ltb_ge; lia).
    rewrite Eltb, Nat2Z.id. split; [reflexivity|]. split; [exact Hb|]. split.
    + intros Hall. apply forallb_isnan in Hall. congruence.
    + intros _. split; [reflexivity|]. split.
      * intros j Hj. rewrite <- !Hnth. now apply Hmin.
      * intros j Hj. rewrite <- !Hnth. now apply Hfst.
Qed.

Lemma index_dyn_selected {A : Type} (col : list A) (loss : list xfloat)
  (z : Z) :
  loss <> [] -> length col = length loss -> nanargmin loss = Some z ->
  index_dyn col z = nth_error col (selected_run loss).
Proof.
  intros Hne Hlen Ez.
  destruct (selected_run_spec loss Hne) as (z' & Ez' & Hsel & _).
  assert (z' = z) by congruence. subst z'.
  assert (Hpos : (0 < length loss)%nat)
    by (destruct loss; [contradiction | simpl; lia]).
  unfold selected_run in *. rewrite Ez in *. unfold index_dyn.
  rewrite Hlen. f_equal.
  destruct (z <? 0)%Z eqn:E.
  - apply Z.ltb_lt in E. unfold nanargmin in Ez.
    destruct (argmin _) as [b|]; [|discriminate]. simpl in Ez.
    destruct (forallb _ _); injection Ez as <-; lia.
  - apply Z.ltb_ge in E. lia.
Qed.

(** On well-formed runs [get_params] returns the parameters of the
    selected run, and that run exists. *)
Lemma get_params_selected (fit_model : fit_model_t) (nInits : nat)
  (params : batched_params) (loss : list xfloat) :
  fit_model <> other_callable -> (1 <= nInits)%nat ->
  well_formed_runs fit_model nInits params loss ->
  get_params fit_model params loss
  = run_params fit_model params (selected_run loss) /\
  exists v, run_params fit_model params (selected_run loss) = Some v.
Proof.
  intros Hsup Hn [Hloss Hcols].
  assert (Hne : loss <> [])
    by (destruct loss; [simpl in Hloss; lia | discriminate]).
  destruct (selected_run_spec loss Hne) as (z & Ez & Hsel & _).
  assert (Hidx : forall k, In k (param_names fit_model) ->
            exists col v, dict_get k params = Some col /\
                          index_dyn col z = Some v /\
                          nth_error col (selected_run loss) = Some v).
  { intros k Hk. destruct (Hcols k Hk) as (col & Ecol & Lcol).
    destruct (nth_error col (selected_run loss)) as [v|] eqn:Ev.
    - exists col, v. repeat split; trivial.
      rewrite (index_dyn_selected col loss z); trivial. lia.
    - apply nth_error_None in Ev. lia. }
  unfold get_params, run_params. rewrite Ez. cbn [obind].
  destruct fit_model; [| |contradiction]; cbn [param_names mapM].
  - destruct (Hidx "alpha"%string) as (ca & va & Ea & Ia & Na);
      [simpl; tauto|].
    destruct (Hidx "beta"%string) as (cb & vb & Eb & Ib & Nb);
      [simpl; tauto|].
    rewrite Ea, Eb. cbn [obind]. rewrite Ia, Ib, Na, Nb. cbn [obind]. eauto.
  - destruct (Hidx "alphaStable"%string) as (c1 & v1 & E1 & I1 & N1);
      [simpl; tauto|].
    destruct (Hidx "alphaVolatile"%string) as (c2 & v2 & E2 & I2 & N2);
      [simpl; tauto|].
    destruct (Hidx "beta"%string) as (c3 & v3 & E3 & I3 & N3);
      [simpl; tauto|].
    rewrite E1, E2, E3. cbn [obind]. rewrite I1, I2, I3, N1, N2, N3.
    cbn [obind]. eauto.
Qed.

Lemma fit_with_multiple_initial_values_unfold
  (fit_model_vectorised : vectorised_fit) (data : list array) (nInits : nat)
  (fit_model : fit_model_t) :
  fit_model <> other_callable -> length data = arity fit_model ->
  (1 <= nInits)%nat ->
  fit_with_multiple_initial_values fit_model_vectorised data nInits fit_model
  = get_params fit_model
      (fst (fit_model_vectorised fit_model
              (map (fun x => tile x nInits) data) (seq 0 nInits)))
      (snd (fit_model_vectorised fit_model
              (map (fun x => tile x nInits) data) (seq 0 nInits))).
Proof.
  intros Hsup Hlen Hn. unfold fit_with_multiple_initial_values, initial_rngs.
  destruct nInits as [|n]; [lia|].
  destruct fit_model; [| |contradiction]; simpl in Hlen.
  - destruct data as [|a [|b [|c [|d [|? ?]]]]]; try discriminate Hlen.
    cbn [obind]. now destruct (fit_model_vectorised _ _ _).
  - destruct data as [|a [|b [|c [|d [|e [|f [|g [|h [|? ?]]]]]]]]];
      try discriminate Hlen.
    cbn [obind]. now destruct (fit_model_vectorised _ _ _).
Qed.

(** The selection on the runs of one call. *)
Lemma fit_with_multiple_initial_values_selected
  (fit_model_vectorised : vectorised_fit) (data : list array) (nInits : nat)
  (fit_model : fit_model_t) :
  fit_model <> other_callable -> length data = arity fit_model ->
  (1 <= nInits)%nat ->
  let runs := fit_model_vectorised fit_model
                (map (fun x => tile x nInits) data) (seq 0 nInits) in
  well_formed_runs fit_model nInits (fst runs) (snd runs) ->
  length (snd runs) = nInits /\
  (selected_run (snd runs) < nInits)%nat /\
  exists v,
    fit_with_multiple_initial_values fit_model_vectorised data nInits
      fit_model = Some v /\
    run_params fit_model (fst runs) (selected_run (snd runs)) = Some v.
Proof.
  intros Hsup Hlen Hn runs Hwf.
  destruct (get_params_selected fit_model nInits (fst runs) (snd runs)
              Hsup Hn Hwf) as (Eg & v & Ev).
  destruct Hwf as [Hloss _].
  assert (Hne : snd runs <> [])
    by (destruct (snd runs); [simpl in Hloss; lia | discriminate]).
  destruct (selected_run_spec (snd runs) Hne) as (z & _ & Hsel & _).
  split; [exact Hloss|]. split; [lia|]. exists v. split; [|exact Ev].
  rewrite fit_with_multiple_initial_values_unfold by assumption.
  fold runs. now rewrite Eg.
Qed.


Lemma mapM_nth_error {A B : Type} (f : A -> option B) (xs : list A) :
  forall ys, mapM f xs = Some ys ->
    forall j x, nth_error xs j = Some x ->
      exists y, nth_error ys j = Some y /\ f x = Some y.
Proof.
  induction xs as [|x0 xs IH]; intros ys E j x Hj.
  - destruct j; discriminate.
  - simpl in E. destruct (f x0) as [y0|] eqn:E0; [|discriminate].
    simpl in E. destruct (mapM f xs) as [ys'|]; [|discriminate].
    injection E as <-. destruct j as [|j].
    + injection Hj as <-. exists y0. auto.
    + simpl in *. now apply IH.
Qed.

Lemma mapM_total {A B : Type} (f : A -> option B) (xs : list A) :
  (forall x, In x xs -> exists y, f x = Some y) ->
  exists ys, mapM f xs = Some ys.
Proof.
  induction xs as [|x0 xs IH]; intros H; simpl; [eauto|].
  destruct (H x0 (or_introl eq_refl)) as (y0 & ->).
  destruct IH as (ys & ->); [intros; apply H; now right|].
  simpl. eauto.
Qed.

Lemma vmap_lanes_width (data : list (list array)) (lanes : list (list array)) :
  vmap_lanes data = Some lanes ->
  forall lane, In lane lanes -> length lane = length data.
Proof.
  unfold vmap_lanes. destruct data as [|m data]; [discriminate|].
  destruct (forallb _ _); [|discriminate].
  intros [= <-] lane Hin. apply in_map_iff in Hin as (i & <- & _).
  apply (length_map (fun m' : list array => nth i m' []) (m :: data)).
Qed.

(** A selected vector has a value under every parameter name of its
    variant. *)
Lemma run_params_keys (fit_model : fit_model_t) (params : batched_params)
  (i : nat) (v : param_vector) :
  run_params fit_model params i = Some v ->
  forall k, In k (param_names fit_model) -> exists x, dict_get k v = Some x.
Proof.
  unfold run_params. destruct fit_model; simpl; intros E k Hk;
    try contradiction.
  - destruct (dict_get "alpha" params) as [ca|]; [|discriminate]. simpl in E.
    destruct (nth_error ca i) as [va|]; [|discriminate]. simpl in E.
    destruct (dict_get "beta" params) as [cb|]; [|discriminate]. simpl in E.
    destruct (nth_error cb i) as [vb|]; [|discriminate]. simpl in E.
    injection E as <-.
    destruct Hk as [<- | [<- | []]]; simpl; eauto.
  - destruct (dict_get "alphaStable" params) as [c1|]; [|discriminate].
    simpl in E. destruct (nth_error c1 i) as [v1|]; [|discriminate].
    simpl in E.
    destruct (dict_get "alphaVolatile" params) as [c2|]; [|discriminate].
    simpl in E. destruct (nth_error c2 i) as [v2|]; [|discriminate].
    simpl in E.
    destruct (dict_get "beta" params) as [c3|]; [|discriminate].
    simpl in E. destruct (nth_error c3 i) as [v3|]; [|discriminate].
    simpl in E. injection E as <-.
    destruct Hk as [<- | [<- | [<- | []]]]; simpl; eauto.
Qed.

(** The stacked output holds, in every column, entry [j] of subject [j]. *)
Lemma stacked_columns (fit_model : fit_model_t) (outs : list param_vector) :
  (forall v, In v outs ->
     forall k, In k (param_names fit_model) ->
       exists x, dict_get k v = Some x) ->
  exists table,
    mapM (fun k => col <- mapM (dict_get k) outs ;; Some (k, col))
      (param_names fit_model) = Some table /\
    forall k, In k (param_names fit_model) ->
      exists col, dict_get k table = Some col /\
                  mapM (dict_get k) outs = Some col.
Proof.
  intros Hkeys.
  assert (Hcol : forall k, In k (param_names fit_model) ->
            exists col, mapM (dict_get k) outs = Some col).
  { intros k Hk. apply mapM_total. intros v Hv. now apply (Hkeys v). }
  destruct fit_model; simpl in *.
  - destruct (Hcol "alpha"%string) as (ca & Ea); [tauto|].
    destruct (Hcol "beta"%string) as (cb & Eb); [tauto|].
    rewrite Ea, Eb. simpl. eexists; split; [reflexivity|].
    intros k [<- | [<- | []]]; simpl; eauto.
  - destruct (Hcol "alphaStable"%string) as (c1 & E1); [tauto|].
    destruct (Hcol "alphaVolatile"%string) as (c2 & E2); [tauto|].
    destruct (Hcol "beta"%string) as (c3 & E3); [tauto|].
    rewrite E1, E2, E3. simpl. eexists; split; [reflexivity|].
    intros k [<- | [<- | [<- | []]]]; simpl; eauto.
  - eexists; split; [reflexivity|]. intros k [].
Qed.

(** Every subject's lane is fitted on its own, and the table holds every
    subject's selected vector at the subject's position. *)
Lemma fit_multiple_participants_rows
  (fit_model_vectorised : vectorised_fit) (data : list (list array))
  (lanes : list (list array)) (nInits : nat) (fit_model : fit_model_t) :
  vmap_lanes data = Some lanes ->
  (forall lane, In lane lanes ->
     exists v,
       fit_with_multiple_initial_values fit_model_vectorised lane nInits
         fit_model = Some v /\
       forall k, In k (param_names fit_model) ->
         exists x, dict_get k v = Some x) ->
  exists table,
    fit_multiple_participants fit_model_vectorised data nInits fit_model
    = Some table /\
    (forall k, In k (param_names fit_model) ->
       exists col, dict_get k table = Some col) /\
    forall j lane, nth_error lanes j = Some lane ->
      exists v,
        fit_with_multiple_initial_values fit_model_vectorised lane nInits
          fit_model = Some v /\
        forall k, In k (param_names fit_model) ->
          exists col, dict_get k table = Some col /\
                      nth_error col j = dict_get k v.
Proof.
  intros Hlanes Hlane.
  destruct (mapM_total
              (fun lane => fit_with_multiple_initial_values
                             fit_model_vectorised lane nInits fit_model)
              lanes) as (outs & Eouts).
  { intros lane Hin. destruct (Hlane lane Hin) as (v & Ev & _). eauto. }
  destruct (stacked_columns fit_model outs) as (table & Et & Hcols).
  { intros v Hv k Hk. apply (In_nth_error outs) in Hv as (j & Hj).
    assert (Hj' : (j < length outs)%nat)
      by (apply nth_error_Some; congruence).
    destruct (nth_error lanes j) as [lane|] eqn:El.
    - destruct (mapM_nth_error _ _ _ Eouts j lane El) as (v' & Hv' & Ev').
      assert (v' = v) by congruence. subst v'.
      destruct (Hlane lane (nth_error_In _ _ El)) as (v2 & Ev2 & Hkeys).
      assert (v2 = v) by congruence. subst v2.
      now apply Hkeys.
    - exfalso. clear - Eouts El Hj'. revert outs j Eouts Hj' El.
      induction lanes as [|l lanes IH]; intros outs j E Hj El.
      + injection E as <-. simpl in Hj; lia.
      + simpl in E. destruct (fit_with_multiple_initial_values _ _ _ _);
          [|discriminate].
        simpl in E. destruct (mapM _ lanes) as [outs'|] eqn:E'; [|discriminate].
        injection E as <-. destruct j as [|j]; [discriminate|].
        simpl in *. apply (IH outs' j); trivial. lia. }
  exists table. split; [|split].
  - unfold fit_multiple_participants. rewrite Hlanes. cbn [obind].
    rewrite Eouts. cbn [obind]. exact Et.
  - intros k Hk. destruct (Hcols k Hk) as (col & Ecol & _). eauto.
  - intros j lane El.
    destruct (mapM_nth_error _ _ _ Eouts j lane El) as (v & Hv & Ev).
    exists v. split; [exact Ev|]. intros k Hk.
    destruct (Hcols k Hk) as (col & Ecol & Emap).
    exists col. split; [exact Ecol|].
    destruct (mapM_nth_error _ _ _ Emap j v Hv) as (y & Hy & Ey).
    congruence.
Qed.

Lemma fit_multiple_participants_lanes
  (fit_model_vectorised : vectorised_fit) (data : list (list array))
  (lanes : list (list array)) (nInits : nat) (fit_model : fit_model_t) :
  fit_model <> other_callable -> (1 <= nInits)%nat ->
  vmap_contract fit_model_vectorised fit_model ->
  length data = arity fit_model ->
  vmap_lanes data = Some lanes ->
  exists table,
    fit_multiple_participants fit_model_vectorised data nInits fit_model
    = Some table /\
    (forall k, In k (param_names fit_model) ->
       exists col, dict_get k table = Some col) /\
    forall j lane, nth_error lanes j = Some lane ->
      exists v,
        fit_with_multiple_initial_values fit_model_vectorised lane nInits
          fit_model = Some v /\
        forall k, In k (param_names fit_model) ->
          exists col, dict_get k table = Some col /\
                      nth_error col j = dict_get k v.
Proof.
  intros Hsup Hn Hc Hlen Hlanes.
  apply (fit_multiple_participants_rows fit_model_vectorised data lanes
           nInits fit_model Hlanes).
  intros lane Hin.
  pose proof (vmap_lanes_width data lanes Hlanes lane Hin) as Hw.
  pose proof (Hc (map (fun x => tile x nInits) lane) (seq 0 nInits)) as Hwf.
  rewrite length_seq in Hwf.
  destruct (fit_with_multiple_initial_values_selected fit_model_vectorised
              lane nInits fit_model Hsup ltac:(lia) Hn Hwf)
    as (_ & _ & v & Ev & Er).
  exists v. split; [exact Ev|].
  now apply (run_params_keys fit_model _ _ v Er).
Qed.

Lemma seeded_runs_contract (run : nat -> xfloat * xfloat * xfloat) :
  vmap_contract (seeded_runs run) fit_model_same_alpha.
Proof.
  intros data rngs. split; simpl.
  - apply length_map.
  - intros k [<- | [<- | []]]; simpl; eexists; split; try reflexivity;
      apply length_map.
Qed.

(** ** The grid recovery *)

Lemma update_nth_spec {A : Type} (f : A -> A) (l : list A) :
  forall i, (i < length l)%nat ->
    exists l',
      update_nth l i f = Some l' /\
      length l' = length l /\
      nth_error l' i = option_map f (nth_error l i) /\
      forall j, j <> i -> nth_error l' j = nth_error l j.
Proof.
  induction l as [|x l IH]; intros i Hi; [simpl in Hi; lia|].
  destruct i as [|i].
  - exists (f x :: l). repeat split. intros [|j] Hj; [contradiction|].
    reflexivity.
  - destruct (IH i) as (l' & E & Hlen & Hat & Hother); [simpl in Hi; lia|].
    exists (x :: l'). simpl. rewrite E. simpl. repeat split.
    + now rewrite Hlen.
    + exact Hat.
    + intros [|j] Hj; [reflexivity|]. simpl. apply Hother. lia.
Qed.

Lemma fit_row_exact (ncols : nat) (v : array) :
  length v = ncols -> fit_row ncols v = Some v.
Proof. intros <-. unfold fit_row. now rewrite Nat.eqb_refl. Qed.

Lemma set_row_spec (mat : matrix) (i ncols : nat) (v : array) :
  length v = ncols -> (i < length mat)%nat ->
  exists mat',
    set_row mat i ncols v = Some mat' /\
    length mat' = length mat /\
    nth_error mat' i = Some v /\
    forall j, j <> i -> nth_error mat' j = nth_error mat j.
Proof.
  intros Hv Hi. unfold set_row. rewrite (fit_row_exact _ _ Hv). simpl.
  destruct (update_nth_spec (fun _ => v) mat i Hi)
    as (mat' & E & Hlen & Hat & Hother).
  exists mat'. repeat split; trivial.
  rewrite Hat. destruct (nth_error mat i) eqn:En; [reflexivity|].
  apply nth_error_None in En. lia.
Qed.

Lemma grid_index (B i j : nat) :
  (j < B)%nat -> ((i * B + j) / B = i /\ (i * B + j) mod B = j)%nat.
Proof.
  intros Hj. split.
  - symmetry. apply (Nat.div_unique _ _ i j); lia.
  - symmetry. apply (Nat.mod_unique _ _ i j); lia.
Qed.

Lemma recovery_body_invariant {W : Type} (ext : collaborators W)
  (simulatedAlphaRange simulatedBetaRange trueProbability : array)
  (N k alpha beta : nat) (st : sim_state) (w : W) :
  well_shaped ext trueProbability ->
  grid_invariant ext simulatedAlphaRange simulatedBetaRange trueProbability
    N k st ->
  (k < N)%nat ->
  (alpha < length simulatedAlphaRange)%nat ->
  (beta < length simulatedBetaRange)%nat ->
  k = (alpha * length simulatedBetaRange + beta)%nat ->
  exists st' w',
    recovery_body ext simulatedAlphaRange simulatedBetaRange trueProbability
      alpha beta (st, w) = Some (st', w') /\
    grid_invariant ext simulatedAlphaRange simulatedBetaRange trueProbability
      N (S k) st'.
Proof.
  intros Hshape (Hcount & Lf & L1 & L2 & L3 & L4 & Hrows) HkN Ha Hb Hk.
  unfold recovery_body. rewrite Hcount.
  pose proof (schedule_shape ext trueProbability Hshape w) as Hs.
  destruct (generate_schedule ext trueProbability w)
    as [[[s1 s2] s3] w1] eqn:Eg.
  destruct Hs as (Hs1 & Hs2 & Hs3).
  destruct (set_row_spec (opt1RewardedMat st) k _ s1 Hs1 ltac:(lia))
    as (rm & -> & Lrm & Hrm & Orm).
  destruct (set_row_spec (magOpt1Mat st) k _ s2 Hs2 ltac:(lia))
    as (m1m & -> & Lm1 & Hm1 & Om1).
  destruct (set_row_spec (magOpt2Mat st) k _ s3 Hs3 ltac:(lia))
    as (m2m & -> & Lm2 & Hm2 & Om2).
  cbn [obind]. rewrite Hrm, Hm1, Hm2. cbn [obind].
  rewrite (nth_error_nth' simulatedAlphaRange 0 Ha).
  rewrite (nth_error_nth' simulatedBetaRange 0 Hb). cbn [obind].
  set (a := nth alpha simulatedAlphaRange 0).
  set (b := nth beta simulatedBetaRange 0).
  pose proof (simulate_shape ext trueProbability Hshape s1 s2 s3 a b w1 Hs1)
    as Hcp.
  destruct (simulate_RL_model ext s1 s2 s3 a b w1) as [[po cp] w2] eqn:Es.
  simpl in Hcp.
  pose proof (random_shape ext trueProbability Hshape
                (length trueProbability) w2) as Hd.
  destruct (rng_random ext (length trueProbability) w2) as [draws w3] eqn:Er.
  simpl in Hd.
  rewrite (broadcast2_same_length greater_as_int cp draws) by lia.
  cbn [obind].
  set (choices := zip_with greater_as_int cp draws).
  assert (Lch : length choices = length trueProbability)
    by (unfold choices; rewrite zip_with_length; lia).
  destruct (set_row_spec (choice1Mat st) k _ choices Lch ltac:(lia))
    as (chm & -> & Lcm & Hcm & Ocm).
  cbn [obind].
  destruct (update_nth_spec (set_simulatedAlpha (Fin a)) (recoveryData st) k
              ltac:(lia)) as (f1 & -> & Lf1 & Hf1 & Of1).
  cbn [obind].
  destruct (update_nth_spec (set_simulatedBeta (Fin b)) f1 k ltac:(lia))
    as (f2 & -> & Lf2 & Hf2 & Of2).
  cbn [obind]. eexists; eexists; split; [reflexivity|].
  unfold grid_invariant. cbn [counter recoveryData opt1RewardedMat magOpt1Mat
    magOpt2Mat choice1Mat].
  repeat split; try lia.
  intros c Hc. destruct (Nat.eq_dec c k) as [-> | Hne].
  - destruct (grid_index (length simulatedBetaRange) alpha beta Hb)
      as [Hdiv Hmod].
    unfold row_done. cbn [counter recoveryData opt1RewardedMat magOpt1Mat
      magOpt2Mat choice1Mat].
    rewrite Hk, Hdiv, Hmod. fold a b. rewrite <- Hk.
    destruct (nth_error (recoveryData st) k) as [row0|] eqn:E0;
      [|apply nth_error_None in E0; lia].
    rewrite Hf1 in Hf2. simpl in Hf2.
    exists (set_simulatedBeta (Fin b) (set_simulatedAlpha (Fin a) row0)),
      s1, s2, s3, choices, w.
    repeat split; trivial.
    unfold simulated_at. rewrite Eg.
    exists s1, s2, s3, choices.
    rewrite !fit_row_exact by assumption. repeat split.
    rewrite Es, Er. split; [|reflexivity].
    exists choices. split.
    + apply broadcast2_same_length. lia.
    + now apply fit_row_exact.
  - destruct (Hrows c ltac:(lia))
      as (row & r & m1 & m2 & ch & wc & H1 & H2 & H3 & H4 & H5 & H6 & H7 & H8).
    exists row, r, m1, m2, ch, wc.
    cbn [counter recoveryData opt1RewardedMat magOpt1Mat magOpt2Mat
      choice1Mat].
    rewrite Of2, Of1, Orm, Om1, Om2, Ocm by assumption.
    repeat split; assumption.
Qed.

Lemma for_range_cons {S : Type} (i : nat) (rest : list nat)
  (body : nat -> S -> option S) (s : S) :
  for_range (i :: rest) body s = s' <- body i s ;; for_range rest body s'.
Proof. reflexivity. Qed.

Lemma inner_loop_invariant {W : Type} (ext : collaborators W)
  (simulatedAlphaRange simulatedBetaRange trueProbability : array)
  (N alpha : nat) :
  well_shaped ext trueProbability ->
  (alpha < length simulatedAlphaRange)%nat ->
  (alpha * length simulatedBetaRange + length simulatedBetaRange <= N)%nat ->
  forall m j0 st w,
    (j0 + m = length simulatedBetaRange)%nat ->
    grid_invariant ext simulatedAlphaRange simulatedBetaRange trueProbability
      N (alpha * length simulatedBetaRange + j0) st ->
    exists st' w',
      for_range (seq j0 m)
        (fun beta =>
           recovery_body ext simulatedAlphaRange simulatedBetaRange
             trueProbability alpha beta) (st, w) = Some (st', w') /\
      grid_invariant ext simulatedAlphaRange simulatedBetaRange
        trueProbability N
        (alpha * length simulatedBetaRange + length simulatedBetaRange) st'.
Proof.
  intros Hshape Ha HN. induction m as [|m IH]; intros j0 st w Hj Hinv.
  - exists st, w. split; [reflexivity|].
    replace (length simulatedBetaRange) with j0 at 2 by lia. exact Hinv.
  - destruct (recovery_body_invariant ext simulatedAlphaRange
                simulatedBetaRange trueProbability N
                (alpha * length simulatedBetaRange + j0) alpha j0 st w)
      as (st1 & w1 & E1 & Hinv1); trivial; try lia.
    destruct (IH (S j0) st1 w1) as (st' & w' & E' & Hinv'); [lia | |].
    + now rewrite Nat.add_succ_r.
    + exists st', w'. split; [|exact Hinv'].
      change (seq j0 (S m)) with (j0 :: seq (S j0) m).
      rewrite for_range_cons, E1. exact E'.
Qed.

Lemma outer_loop_invariant {W : Type} (ext : collaborators W)
  (simulatedAlphaRange simulatedBetaRange trueProbability : array) :
  well_shaped ext trueProbability ->
  let A := length simulatedAlphaRange in
  let B := length simulatedBetaRange in
  forall m a0 st w,
    (a0 + m = A)%nat ->
    grid_invariant ext simulatedAlphaRange simulatedBetaRange trueProbability
      (A * B) (a0 * B) st ->
    exists st' w',
      for_range (seq a0 m)
        (fun alpha =>
           for_range (arange B)
             (fun beta =>
                recovery_body ext simulatedAlphaRange simulatedBetaRange
                  trueProbability alpha beta)) (st, w) = Some (st', w') /\
      grid_invariant ext simulatedAlphaRange simulatedBetaRange
        trueProbability (A * B) (A * B) st'.
Proof.
  intros Hshape A B. induction m as [|m IH]; intros a0 st w Ha Hinv.
  - exists st, w. split; [reflexivity|].
    replace A with a0 at 2 by lia. exact Hinv.
  - destruct (inner_loop_invariant ext simulatedAlphaRange simulatedBetaRange
                trueProbability (A * B) a0 Hshape ltac:(lia)
                ltac:(fold B; nia) B 0%nat st w eq_refl)
      as (st1 & w1 & E1 & Hinv1).
    { now rewrite Nat.add_0_r. }
    destruct (IH (S a0) st1 w1) as (st' & w' & E' & Hinv'); [lia | |].
    + fold B in Hinv1. replace (S a0 * B)%nat with (a0 * B + B)%nat by lia.
      exact Hinv1.
    + exists st', w'. split; [|exact Hinv'].
      change (seq a0 (S m)) with (a0 :: seq (S a0) m).
      rewrite for_range_cons. unfold arange at 1. rewrite E1. exact E'.
Qed.

Lemma simulate_grid_invariant {W : Type} (ext : collaborators W)
  (simulatedAlphaRange simulatedBetaRange trueProbability : array) (w : W) :
  well_shaped ext trueProbability ->
  let N := (length simulatedAlphaRange * length simulatedBetaRange)%nat in
  exists st w',
    simulate_grid ext simulatedAlphaRange simulatedBetaRange trueProbability w
    = Some (st, w') /\
    grid_invariant ext simulatedAlphaRange simulatedBetaRange trueProbability
      N N st.
Proof.
  intros Hshape N. unfold simulate_grid, arange at 1.
  apply (outer_loop_invariant ext simulatedAlphaRange simulatedBetaRange
           trueProbability Hshape (length simulatedAlphaRange) 0%nat).
  - reflexivity.
  - unfold grid_invariant, zeros. simpl. rewrite !repeat_length.
    repeat split. intros c Hc. lia.
Qed.

Lemma set_column_spec (setter : xfloat -> recovery_row -> recovery_row)
  (frame : list recovery_row) :
  forall column, length column = length frame ->
    exists frame',
      set_column setter frame column = Some frame' /\
      length frame' = length frame /\
      forall c row v,
        nth_error frame c = Some row -> nth_error column c = Some v ->
        nth_error frame' c = Some (setter v row).
Proof.
  induction frame as [|r frame IH]; intros [|v column] Hlen;
    try discriminate Hlen.
  - exists []. repeat split. intros [|c]; discriminate.
  - destruct (IH column) as (frame' & E & Hl & Hnth); [simpl in Hlen; lia|].
    exists (setter v r :: frame'). simpl. rewrite E. simpl. repeat split.
    + now rewrite Hl.
    + intros [|c] row x Hr Hx; simpl in *.
      * now injection Hr as <-; injection Hx as <-.
      * now apply Hnth.
Qed.

Lemma mapM_length {A B : Type} (f : A -> option B) (xs : list A) :
  forall ys, mapM f xs = Some ys -> length ys = length xs.
Proof.
  induction xs as [|x xs IH]; intros ys E; simpl in E.
  - now injection E as <-.
  - destruct (f x); [|discriminate]. simpl in E.
    destruct (mapM f xs) as [ys'|]; [|discriminate].
    injection E as <-. simpl. now rewrite (IH ys').
Qed.

(** The columns of the stacked output have one entry per subject. *)
Lemma fit_multiple_participants_height
  (fit_model_vectorised : vectorised_fit) (data lanes : list (list array))
  (nInits : nat) (fit_model : fit_model_t) (table : batched_params) :
  vmap_lanes data = Some lanes ->
  fit_multiple_participants fit_model_vectorised data nInits fit_model
  = Some table ->
  forall k col, dict_get k table = Some col -> length col = length lanes.
Proof.
  intros Hlanes. unfold fit_multiple_participants. rewrite Hlanes.
  cbn [obind]. destruct (mapM _ lanes) as [outs|] eqn:Eouts; [|discriminate].
  cbn [obind]. apply mapM_length in Eouts. rewrite <- Eouts. clear Eouts.
  generalize (param_names fit_model). intros names. revert table.
  induction names as [|n names IH]; intros table E k col Hk; simpl in E.
  - injection E as <-. discriminate.
  - destruct (mapM (dict_get n) outs) as [c|] eqn:Ec; [|discriminate].
    simpl in E. destruct (mapM _ names) as [rest|] eqn:Er; [|discriminate].
    injection E as <-. simpl in Hk. destruct (String.eqb k n).
    + injection Hk as <-. now apply mapM_length in Ec.
    + now apply (IH rest eq_refl k).
Qed.

(** The lanes of the stacked matrices: lane [c] holds row [c] of each. *)
Lemma stacked_data_lanes (st : sim_state) (N : nat) :
  length (opt1RewardedMat st) = N -> length (magOpt1Mat st) = N ->
  length (magOpt2Mat st) = N -> length (choice1Mat st) = N ->
  exists lanes,
    vmap_lanes (stacked_data st) = Some lanes /\ length lanes = N /\
    forall c r m1 m2 ch,
      nth_error (opt1RewardedMat st) c = Some r ->
      nth_error (magOpt1Mat st) c = Some m1 ->
      nth_error (magOpt2Mat st) c = Some m2 ->
      nth_error (choice1Mat st) c = Some ch ->
      nth_error lanes c = Some [r; m1; m2; ch].
Proof.
  intros L1 L2 L3 L4. unfold vmap_lanes, stacked_data.
  cbn [forallb]. rewrite L1, L2, L3, L4, !Nat.eqb_refl. cbn [andb].
  eexists. split; [reflexivity|]. split.
  - now rewrite length_map, length_seq.
  - intros c r m1 m2 ch H1 H2 H3 H4.
    assert (Hc : (c < N)%nat)
      by (rewrite <- L1; apply nth_error_Some; congruence).
    rewrite nth_error_map, nth_error_seq.
    destruct (Nat.ltb_spec c N) as [_ | Hge]; [|lia]. simpl.
    now rewrite (nth_error_nth _ _ _ H1), (nth_error_nth _ _ _ H2),
      (nth_error_nth _ _ _ H3), (nth_error_nth _ _ _ H4).
Qed.

(** C9: the recovery returns a table with exactly A*B rows; row [c] holds
    [simulatedAlphaRange[c div B]] and [simulatedBetaRange[c mod B]] (alpha
    the outer loop, beta the inner one), lane [c] of the stacked data handed
    to the population fit is a TrialBatch simulated at that very grid point,
    and the recovered columns of row [c] are the parameters fitted to that
    lane. *)
Theorem recovery_table_aligned {W : Type}
  (fit_model_vectorised : vectorised_fit) (ext : collaborators W)
  (simulatedAlphaRange simulatedBetaRange trueProbability : array)
  (w : W) (nInits : nat) :
  well_shaped ext trueProbability ->
  vmap_contract fit_model_vectorised fit_model_same_alpha ->
  (1 <= nInits)%nat ->
  let A := length simulatedAlphaRange in
  let B := length simulatedBetaRange in
  exists st lanes table w',
    simulate_grid ext simulatedAlphaRange simulatedBetaRange trueProbability w
    = Some (st, w') /\
    vmap_lanes (stacked_data st) = Some lanes /\
    run_paramterer_recovery fit_model_vectorised ext simulatedAlphaRange
      simulatedBetaRange trueProbability w nInits = Some (table, w') /\
    length table = (A * B)%nat /\
    length lanes = (A * B)%nat /\
    forall c, (c < A * B)%nat ->
      let a := nth (c / B) simulatedAlphaRange 0 in
      let b := nth (c mod B) simulatedBetaRange 0 in
      exists row lane wc v,
        nth_error table c = Some row /\
        simulatedAlpha row = Fin a /\
        simulatedBeta row = Fin b /\
        nth_error lanes c = Some lane /\
        simulated_at ext trueProbability a b wc lane /\
        fit_with_multiple_initial_values fit_model_vectorised lane nInits
          fit_model_same_alpha = Some v /\
        dict_get "alpha" v = Some (recoveredAlpha row) /\
        dict_get "beta" v = Some (recoveredBeta row).
Proof.
  intros Hshape Hc Hn A B.
  destruct (simulate_grid_invariant ext simulatedAlphaRange
              simulatedBetaRange trueProbability w Hshape)
    as (st & w' & Esim & Hinv).
  fold A B in Hinv.
  destruct Hinv as (_ & Lf & L1 & L2 & L3 & L4 & Hrows).
  destruct (stacked_data_lanes st (A * B) L1 L2 L3 L4)
    as (lanes & Elanes & Llanes & Hlane).
  destruct (fit_multiple_participants_lanes fit_model_vectorised
              (stacked_data st) lanes nInits fit_model_same_alpha)
    as (ptable & Efit & Hcols & Hfit); trivial; try discriminate.
  destruct (Hcols "alpha"%string) as (colA & EA); [simpl; tauto|].
  destruct (Hcols "beta"%string) as (colB & EB); [simpl; tauto|].
  pose proof (fit_multiple_participants_height _ _ _ _ _ _ Elanes Efit
                _ _ EA) as LA.
  pose proof (fit_multiple_participants_height _ _ _ _ _ _ Elanes Efit
                _ _ EB) as LB.
  destruct (set_column_spec set_recoveredAlpha (recoveryData st) colA)
    as (f1 & E1 & Lf1 & H1); [lia|].
  destruct (set_column_spec set_recoveredBeta f1 colB)
    as (f2 & E2 & Lf2 & H2); [lia|].
  exists st, lanes, f2, w'. split; [exact Esim|]. split; [exact Elanes|].
  split; [|split; [lia | split; [exact Llanes|]]].
  - unfold run_paramterer_recovery. rewrite Esim. cbn [obind].
    rewrite Efit. cbn [obind]. rewrite EA. cbn [obind]. rewrite E1.
    cbn [obind]. rewrite EB. cbn [obind]. rewrite E2. reflexivity.
  - intros c Hlt a b.
    destruct (Hrows c Hlt)
      as (row & r & m1 & m2 & ch & wc & R1 & R2 & R3 & R4 & R5 & R6 & R7 & R8).
    fold B in R2, R3, R8. fold a in R2, R8. fold b in R3, R8.
    pose proof (Hlane c r m1 m2 ch R4 R5 R6 R7) as El.
    destruct (Hfit c _ El) as (v & Ev & Hv).
    destruct (Hv "alpha"%string) as (colA' & EA' & NA); [simpl; tauto|].
    destruct (Hv "beta"%string) as (colB' & EB' & NB); [simpl; tauto|].
    assert (colA' = colA) by congruence. subst colA'.
    assert (colB' = colB) by congruence. subst colB'.
    destruct (nth_error colA c) as [va|] eqn:EvA;
      [|apply nth_error_None in EvA; lia].
    destruct (nth_error colB c) as [vb|] eqn:EvB;
      [|apply nth_error_None in EvB; lia].
    pose proof (H1 c row va R1 EvA) as F1.
    pose proof (H2 c _ vb F1 EvB) as F2.
    exists (set_recoveredBeta vb (set_recoveredAlpha va row)),
      [r; m1; m2; ch], wc, v.
    repeat split; trivial; simpl; congruence.
Qed.

Lemma constant_collaborators_well_shaped (trueProbability : array) :
  well_shaped constant_collaborators trueProbability.
Proof.
  constructor; simpl.
  - intros w. now rewrite !length_map.
  - intros r m1 m2 a b w H. now rewrite length_map.
  - intros n w. apply repeat_length.
Qed.

Lemma recovery_table_aligned_witness :
  let simulatedAlphaRange := [1 / 10; 1 / 2; 9 / 10] in
  let simulatedBetaRange := [1 / 20; 1 / 5] in
  let trueProbability := [7 / 10; 7 / 10] in
  let fit := seeded_runs (fun s => (Fin (INR s), Fin (1 / 2), Fin (INR s))) in
  exists st lanes table w',
    simulate_grid constant_collaborators simulatedAlphaRange
      simulatedBetaRange trueProbability 0%nat = Some (st, w') /\
    vmap_lanes (stacked_data st) = Some lanes /\
    run_paramterer_recovery fit constant_collaborators simulatedAlphaRange
      simulatedBetaRange trueProbability 0%nat 2 = Some (table, w') /\
    length table = (3 * 2)%nat /\
    length lanes = (3 * 2)%nat /\
    forall c, (c < 3 * 2)%nat ->
      let a := nth (c / 2) simulatedAlphaRange 0 in
      let b := nth (c mod 2) simulatedBetaRange 0 in
      exists row lane wc v,
        nth_error table c = Some row /\
        simulatedAlpha row = Fin a /\
        simulatedBeta row = Fin b /\
        nth_error lanes c = Some lane /\
        simulated_at constant_collaborators trueProbability a b wc lane /\
        fit_with_multiple_initial_values fit lane 2 fit_model_same_alpha
        = Some v /\
        dict_get "alpha" v = Some (recoveredAlpha row) /\
        dict_get "beta" v = Some (recoveredBeta row).
Proof.
  apply (recovery_table_aligned
           (seeded_runs (fun s => (Fin (INR s), Fin (1 / 2), Fin (INR s))))
           constant_collaborators [1 / 10; 1 / 2; 9 / 10] [1 / 20; 1 / 5]
           [7 / 10; 7 / 10] 0%nat 2).
  - apply constant_collaborators_well_shaped.
  - apply seeded_runs_contract.
  - lia.
Defined.

(* ===================================================================== *)
(** * Further properties of the code *)
(* ===================================================================== *)

(** ** The belief trajectory at the ends of the learning-rate range *)

Lemma post_update_alpha_0 (r : array) (p0 : R) (k : nat) :
  post_update r 0 0 p0 k = p0.
Proof.
  induction k as [|k IH]; [reflexivity|].
  rewrite post_update_succ, IH. ring.
Qed.

Lemma post_update_alpha_1 (r : array) (p0 : R) (k : nat) :
  post_update r 1 0 p0 (S k) = getitem r k.
Proof. rewrite post_update_succ. simpl. ring. Qed.

(** X1: with a learning rate of 0 nothing is learnt: on T >= 1 trials the
    belief stays at the starting probability, whatever the outcomes. *)
Theorem belief_trajectory_alpha_0 (rewarded1 : array) (p0 : R) :
  (1 <= length rewarded1)%nat ->
  belief_trajectory rewarded1 0 p0 = repeat p0 (length rewarded1).
Proof.
  intros HT. apply (nth_ext _ _ 0 0).
  - rewrite belief_trajectory_length, repeat_length by exact HT. reflexivity.
  - intros t Ht. rewrite belief_trajectory_length in Ht by exact HT.
    rewrite belief_trajectory_nth, post_update_alpha_0 by exact Ht.
    symmetry. apply nth_repeat_lt. exact Ht.
Qed.

Lemma belief_trajectory_alpha_0_witness :
  belief_trajectory [1; 0; 1] 0 (1 / 2) = repeat (1 / 2) (length [1; 0; 1]).
Proof.
  apply (belief_trajectory_alpha_0 [1; 0; 1] (1 / 2)). simpl; lia.
Defined.

(** X2: with a learning rate of 1 the belief entering a trial is the
    outcome of the trial before: the trajectory is the starting probability
    followed by the outcomes without the last one. *)
Theorem belief_trajectory_alpha_1 (rewarded1 : array) (p0 : R) :
  (1 <= length rewarded1)%nat ->
  belief_trajectory rewarded1 1 p0 = p0 :: removelast rewarded1.
Proof.
  intros HT. apply (nth_ext _ _ 0 0).
  - rewrite belief_trajectory_length by exact HT.
    simpl. rewrite removelast_length. lia.
  - intros t Ht. rewrite belief_trajectory_length in Ht by exact HT.
    rewrite belief_trajectory_nth by exact Ht.
    destruct t as [|t]; [reflexivity|].
    rewrite post_update_alpha_1, getitem_nth by lia.
    simpl. symmetry. apply nth_removelast. lia.
Qed.

Lemma belief_trajectory_alpha_1_witness :
  belief_trajectory [1; 0; 1] 1 (1 / 2) = (1 / 2) :: removelast [1; 0; 1].
Proof.
  apply (belief_trajectory_alpha_1 [1; 0; 1] (1 / 2)). simpl; lia.
Defined.

(** ** The belief as a recency-weighted average *)

Lemma sum_array_app (xs ys : array) :
  sum_array (xs ++ ys) = sum_array xs + sum_array ys.
Proof.
  unfold sum_array. induction xs as [|x xs IH]; simpl; [ring|].
  rewrite IH. ring.
Qed.

Lemma sum_array_scale (c : R) (xs : array) :
  sum_array (map (fun x => c * x) xs) = c * sum_array xs.
Proof.
  unfold sum_array. induction xs as [|x xs IH]; simpl; [ring|].
  rewrite IH. ring.
Qed.

Lemma post_update_weighted (r : array) (alpha p0 : R) (k : nat) :
  post_update r alpha 0 p0 k
  = (1 - alpha) ^ k * p0 + sum_array (recency_weights r alpha k).
Proof.
  induction k as [|k IH].
  - simpl. unfold sum_array. simpl. ring.
  - rewrite post_update_succ, IH, Nat.add_0_l. unfold recency_weights.
    rewrite seq_S, map_app, sum_array_app, Nat.add_0_l.
    assert (E : map (fun j => alpha * (1 - alpha) ^ (S k - 1 - j) * getitem r j)
                  (seq 0 k)
                = map (fun x => (1 - alpha) * x)
                    (map (fun j => alpha * (1 - alpha) ^ (k - 1 - j)
                                   * getitem r j) (seq 0 k))).
    { rewrite map_map. apply map_ext_in. intros j Hj.
      apply in_seq in Hj.
      replace (S k - 1 - j)%nat with (S (k - 1 - j)) by lia.
      rewrite <- tech_pow_Rmult. ring. }
    rewrite E, sum_array_scale.
    change (sum_array (map ?f [k])) with (f k + 0). cbv beta.
    replace (S k - 1 - k)%nat with 0%nat by lia.
    rewrite <- tech_pow_Rmult, pow_O. ring.
Qed.

(** X3: the belief entering trial [t] is an exponentially weighted average:
    the starting probability weighted by [(1 - alpha)^t] plus every earlier
    outcome [rewarded1[j]] weighted by [alpha * (1 - alpha)^(t-1-j)]. *)
Theorem belief_trajectory_weighted_average (rewarded1 : array)
  (alpha p0 : R) (t : nat) :
  (t < length rewarded1)%nat ->
  nth t (belief_trajectory rewarded1 alpha p0) 0
  = (1 - alpha) ^ t * p0
    + sum_array
        (map (fun j => alpha * (1 - alpha) ^ (t - 1 - j) * nth j rewarded1 0)
           (seq 0 t)).
Proof.
  intros Ht. rewrite belief_trajectory_nth, post_update_weighted by exact Ht.
  f_equal. unfold recency_weights. f_equal. apply map_ext_in.
  intros j Hj. apply in_seq in Hj. rewrite getitem_nth by lia. reflexivity.
Qed.

Lemma belief_trajectory_weighted_average_witness :
  nth 2 (belief_trajectory [1; 0; 1] (1 / 4) (1 / 2)) 0
  = (1 - 1 / 4) ^ 2 * (1 / 2)
    + sum_array
        (map (fun j => 1 / 4 * (1 - 1 / 4) ^ (2 - 1 - j) * nth j [1; 0; 1] 0)
           (seq 0 2)).
Proof.
  apply (belief_trajectory_weighted_average [1; 0; 1] (1 / 4) (1 / 2) 2).
  simpl; lia.
Defined.

(** ** The loss at [beta = 0], under exchange of the options, and on
    arrays of different lengths *)

Lemma sum_array_const (c : R) (xs : array) :
  (forall x, In x xs -> x = c) -> sum_array xs = INR (length xs) * c.
Proof.
  induction xs as [|x xs IH]; intros H.
  - unfold sum_array. simpl. ring.
  - change (sum_array (x :: xs)) with (x + sum_array xs).
    rewrite IH by (intros; apply H; now right).
    replace (INR (length (x :: xs))) with (INR (length xs) + 1)
      by (symmetry; exact (S_INR (length xs))).
    rewrite (H x) at 1 by now left.
    ring.
Qed.

Lemma mean_const (c : R) (xs : array) :
  xs <> [] -> (forall x, In x xs -> x = c) -> mean xs = Some c.
Proof.
  intros Hne H. destruct xs as [|x xs]; [contradiction|].
  unfold mean. rewrite (sum_array_const c) by exact H. f_equal.
  field. apply not_0_INR. discriminate.
Qed.

Lemma cross_entropy_at_0 (d c : R) :
  sigmoid_binary_cross_entropy1 (0 * d) c = ln 2.
Proof.
  unfold sigmoid_binary_cross_entropy1, log_sigmoid.
  rewrite Rmult_0_l. repeat rewrite Ropp_0. rewrite exp_0.
  replace (1 + 1) with 2 by ring. ring.
Qed.

(** X4: with an inverse temperature of 0 both options are always equally
    likely, and the loss of every TrialBatch is [ln 2], whatever the learning
    rate, the magnitudes and the choices. *)
Theorem loss_RL_model_beta_0
  (rewarded1 mag1 mag2 choice1 : array) (alpha startingProb : R)
  (U : utility_function_t) :
  (1 <= length rewarded1)%nat ->
  length mag1 = length rewarded1 ->
  length mag2 = length rewarded1 ->
  length choice1 = length rewarded1 ->
  elementwise U ->
  loss_RL_model (rewarded1, mag1, mag2, choice1) (params_ab alpha 0)
    startingProb U = Some (ln 2).
Proof.
  intros HT H1 H2 Hc HU. unfold loss_RL_model.
  cbn [params_ab tree_get_0 tree_get_all flat_map
    fst snd String.eqb Ascii.eqb Bool.eqb app obind].
  pose proof (belief_trajectory_length rewarded1 alpha startingProb HT) as Lp.
  destruct (HU mag1 (belief_trajectory rewarded1 alpha startingProb))
    as (u1 & -> & Lu1); [lia|].
  destruct (HU mag2 (map (fun p => 1 - p)
                       (belief_trajectory rewarded1 alpha startingProb)))
    as (u2 & -> & Lu2); [rewrite length_map; lia|].
  cbn [obind].
  rewrite (broadcast2_same_length Rminus u1 u2) by lia. cbn [obind].
  set (diff := zip_with Rminus u1 u2).
  assert (Ld : length diff = length rewarded1)
    by (unfold diff; rewrite zip_with_length; lia).
  unfold sigmoid_binary_cross_entropy.
  rewrite (broadcast2_map_l sigmoid_binary_cross_entropy1 (fun d => 0 * d)).
  rewrite broadcast2_same_length by lia. cbn [obind].
  set (losses := zip_with _ diff choice1).
  assert (Hb : broadcast2
                 (fun d c => sigmoid_binary_cross_entropy1 (0 * d) c)
                 diff choice1 = Some losses)
    by (apply broadcast2_same_length; lia).
  apply mean_const.
  - intros E. assert (L : length losses = 0%nat) by (now rewrite E).
    unfold losses in L. rewrite zip_with_length in L. lia.
  - intros x Hx. destruct (broadcast2_In _ _ _ _ _ Hb Hx) as (d & c & _ & ->).
    apply cross_entropy_at_0.
Qed.

Lemma loss_RL_model_beta_0_witness :
  loss_RL_model ([1; 0], [10; 20], [30; 5], [1; 0]) (params_ab (1 / 2) 0)
    (1 / 2) utility_fun = Some (ln 2).
Proof.
  apply (loss_RL_model_beta_0 [1; 0] [10; 20] [30; 5] [1; 0] (1 / 2) (1 / 2)
           utility_fun).
  - simpl; lia.
  - reflexivity.
  - reflexivity.
  - reflexivity.
  - exact utility_fun_elementwise.
Defined.

Lemma getitem_map (f : R -> R) (r : array) (t : nat) :
  r <> [] -> getitem (map f r) t = f (getitem r t).
Proof.
  intros Hne. unfold getitem. rewrite length_map.
  assert (Hlt : (Nat.min t (length r - 1) < length r)%nat)
    by (destruct r; [contradiction | simpl; lia]).
  rewrite (nth_indep (map f r) 0 (f 0)) by (now rewrite length_map).
  apply map_nth.
Qed.

Lemma post_update_complement (r : array) (alpha p0 : R) (k : nat) :
  r <> [] ->
  post_update (map (fun x => 1 - x) r) alpha 0 (1 - p0) k
  = 1 - post_update r alpha 0 p0 k.
Proof.
  intros Hne. induction k as [|k IH]; [reflexivity|].
  rewrite !post_update_succ, IH. simpl.
  rewrite (getitem_map (fun x => 1 - x)) by exact Hne. ring.
Qed.

(** The belief about option 2 is the complement of the belief about
    option 1. *)
Lemma belief_trajectory_complement (r : array) (alpha p0 : R) :
  belief_trajectory (map (fun x => 1 - x) r) alpha (1 - p0)
  = map (fun p => 1 - p) (belief_trajectory r alpha p0).
Proof.
  destruct r as [|r0 r]; [reflexivity|].
  set (rr := r0 :: r).
  assert (HT : (1 <= length rr)%nat) by (simpl; lia).
  assert (Hne : rr <> []) by discriminate.
  apply (nth_ext _ _ 0 (1 - 0)).
  - rewrite length_map, !belief_trajectory_length;
      rewrite ?length_map; trivial.
  - intros t Ht.
    rewrite belief_trajectory_length in Ht by (now rewrite length_map).
    rewrite length_map in Ht.
    rewrite (map_nth (fun p => 1 - p)).
    rewrite !belief_trajectory_nth by (rewrite ?length_map; exact Ht).
    now apply post_update_complement.
Qed.

Lemma zip_with_flip (f : R -> R -> R) (xs ys : array) :
  zip_with (fun y x => f x y) ys xs = zip_with f xs ys.
Proof.
  revert ys; induction xs as [|x xs IH]; intros [|y ys]; simpl; auto.
  now rewrite IH.
Qed.

Lemma broadcast2_flip (f : R -> R -> R) (xs ys : array) :
  broadcast2 (fun y x => f x y) ys xs = broadcast2 f xs ys.
Proof.
  unfold broadcast2. rewrite (Nat.eqb_sym (length ys) (length xs)).
  destruct (Nat.eqb (length xs) (length ys)) eqn:E.
  - now rewrite zip_with_flip.
  - destruct (Nat.eqb (length ys) 1) eqn:Ey;
      destruct (Nat.eqb (length xs) 1) eqn:Ex; try reflexivity.
    apply Nat.eqb_eq in Ex, Ey. apply Nat.eqb_neq in E. lia.
Qed.

Lemma zip_with_post (f : R -> R -> R) (g : R -> R) (xs ys : array) :
  zip_with (fun x y => g (f x y)) xs ys = map g (zip_with f xs ys).
Proof.
  revert ys; induction xs as [|x xs IH]; intros [|y ys]; simpl; auto.
  now rewrite IH.
Qed.

Lemma broadcast2_post (f : R -> R -> R) (g : R -> R) (xs ys : array) :
  broadcast2 (fun x y => g (f x y)) xs ys
  = option_map (map g) (broadcast2 f xs ys).
Proof.
  unfold broadcast2.
  destruct (Nat.eqb (length xs) (length ys)).
  - simpl. now rewrite zip_with_post.
  - destruct (Nat.eqb (length xs) 1).
    + simpl. now rewrite map_map.
    + destruct (Nat.eqb (length ys) 1); [|reflexivity].
      simpl. now rewrite map_map.
Qed.

(** X5: the loss does not depend on which option is called option 1:
    exchanging the two magnitudes and replacing outcomes, choices and the
    starting probability by their complements leaves the loss of the
    multiplicative utility unchanged. *)
Theorem loss_RL_model_option_exchange
  (rewarded1 mag1 mag2 choice1 : array) (alpha beta startingProb : R) :
  loss_RL_model (rewarded1, mag1, mag2, choice1) (params_ab alpha beta)
    startingProb utility_fun
  = loss_RL_model
      (map (fun r => 1 - r) rewarded1, mag2, mag1,
       map (fun c => 1 - c) choice1)
      (params_ab alpha beta) (1 - startingProb) utility_fun.
Proof.
  unfold loss_RL_model.
  cbn [params_ab tree_get_0 tree_get_all flat_map
    fst snd String.eqb Ascii.eqb Bool.eqb app obind].
  rewrite belief_trajectory_complement.
  set (P := belief_trajectory rewarded1 alpha startingProb).
  assert (EP : map (fun p => 1 - p) (map (fun p => 1 - p) P) = P).
  { rewrite map_map. rewrite <- (map_id P) at 2.
    apply map_ext. intros; ring. }
  rewrite EP.
  destruct (utility_fun mag1 P) as [u1|];
    destruct (utility_fun mag2 (map (fun p => 1 - p) P)) as [u2|];
    try reflexivity.
  cbn [obind].
  assert (Ed : broadcast2 Rminus u2 u1
               = option_map (map Ropp) (broadcast2 Rminus u1 u2)).
  { rewrite <- (broadcast2_post Rminus Ropp).
    transitivity (broadcast2 (fun a b => b - a) u1 u2).
    - exact (broadcast2_flip (fun a b => b - a) u1 u2).
    - apply broadcast2_ext. intros; ring. }
  rewrite Ed.
  destruct (broadcast2 Rminus u1 u2) as [diff|]; [|reflexivity].
  cbn [option_map obind]. unfold sigmoid_binary_cross_entropy.
  rewrite map_map.
  rewrite (broadcast2_map_l sigmoid_binary_cross_entropy1
             (fun d => beta * d)).
  rewrite (broadcast2_map sigmoid_binary_cross_entropy1
             (fun d => beta * - d) (fun c => 1 - c)).
  f_equal. apply broadcast2_ext. intros d c.
  replace (beta * - d) with (- beta * d) by ring.
  symmetry. apply cross_entropy_flip.
Qed.

Lemma broadcast2_mismatch_raises (f : R -> R -> R) (xs ys : array) :
  length xs <> length ys -> length xs <> 1%nat -> length ys <> 1%nat ->
  broadcast2 f xs ys = None.
Proof.
  intros H H1 H2. unfold broadcast2.
  apply Nat.eqb_neq in H, H1, H2. now rewrite H, H1, H2.
Qed.

Lemma broadcast2_length_right (f : R -> R -> R) (xs ys zs : array) :
  broadcast2 f xs ys = Some zs -> length ys <> 1%nat ->
  length zs = length ys.
Proof.
  unfold broadcast2. intros H H2.
  destruct (Nat.eqb (length xs) (length ys)) eqn:E.
  - apply Nat.eqb_eq in E. injection H as <-. rewrite zip_with_length. lia.
  - destruct (Nat.eqb (length xs) 1).
    + injection H as <-. apply length_map.
    + apply Nat.eqb_neq in H2. rewrite H2 in H. discriminate.
Qed.

(** X6: on two or more trials, a magnitude or choice array whose length is
    neither the number of trials nor 1 makes the loss raise: arrays of
    different lengths are never silently truncated. *)
Theorem loss_RL_model_length_mismatch
  (rewarded1 mag1 mag2 choice1 : array) (params : ptree) (startingProb : R) :
  (2 <= length rewarded1)%nat ->
  (length mag1 <> length rewarded1 /\ length mag1 <> 1%nat) \/
  (length mag2 <> length rewarded1 /\ length mag2 <> 1%nat) \/
  (length choice1 <> length rewarded1 /\ length choice1 <> 1%nat) ->
  loss_RL_model (rewarded1, mag1, mag2, choice1) params startingProb
    utility_fun = None.
Proof.
  intros HT Hbad. unfold loss_RL_model.
  destruct (tree_get_0 params "alpha") as [alpha|]; [|reflexivity].
  destruct (tree_get_0 params "beta") as [beta|]; [|reflexivity].
  cbn [obind].
  set (P := belief_trajectory rewarded1 alpha startingProb).
  assert (LP : length P = length rewarded1)
    by (apply belief_trajectory_length; lia).
  assert (LP' : length (map (fun p => 1 - p) P) = length rewarded1)
    by (now rewrite length_map).
  unfold utility_fun.
  destruct (broadcast2 Rmult mag1 P) as [u1|] eqn:E1.
  2: reflexivity.
  destruct (broadcast2 Rmult mag2 (map (fun p => 1 - p) P)) as [u2|] eqn:E2.
  2: reflexivity.
  cbn [obind].
  pose proof (broadcast2_length_right _ _ _ _ E1 ltac:(lia)) as L1.
  pose proof (broadcast2_length_right _ _ _ _ E2 ltac:(lia)) as L2.
  destruct Hbad as [[Hm Hm1] | [[Hm Hm1] | [Hc Hc1]]].
  - rewrite broadcast2_mismatch_raises in E1 by lia. discriminate.
  - rewrite broadcast2_mismatch_raises in E2 by lia. discriminate.
  - rewrite (broadcast2_same_length Rminus u1 u2) by lia. cbn [obind].
    unfold sigmoid_binary_cross_entropy.
    rewrite broadcast2_mismatch_raises; [reflexivity | | |].
    + rewrite length_map, zip_with_length. lia.
    + rewrite length_map, zip_with_length. lia.
    + exact Hc1.
Qed.

Lemma loss_RL_model_length_mismatch_witness :
  loss_RL_model ([1; 0; 1], [10; 20; 30], [30; 5; 1], [1; 0])
    (params_ab (1 / 2) 1) (1 / 2) utility_fun = None.
Proof.
  apply (loss_RL_model_length_mismatch [1; 0; 1] [10; 20; 30] [30; 5; 1]
           [1; 0] (params_ab (1 / 2) 1) (1 / 2)).
  - simpl; lia.
  - right. right. simpl. split; lia.
Defined.

(** ** The projection onto the bounds *)

Lemma clip_idempotent (x lo hi : R) : clip (clip x lo hi) lo hi = clip x lo hi.
Proof. unfold clip, clip_real. clip_cases. Qed.



Lemma clip_param_idempotent (paramsClip : ParamsClip) (x : R) (name : string) :
  clip_param paramsClip (clip_param paramsClip x name) name
  = clip_param paramsClip x name.
Proof.
  unfold clip_param. destruct (contains "alpha" name).
  - apply clip_idempotent.
  - destruct (contains "beta" name); [apply clip_idempotent | reflexivity].
Qed.



(** X7: projecting twice is projecting once. *)
Theorem project_params_idempotent (params : ptree) (paramsClip : ParamsClip) :
  project_params (project_params params paramsClip) paramsClip
  = project_params params paramsClip.
Proof.
  unfold project_params. generalize EmptyString as path.
  induction params as [v | items IH] using ptree_induction; intros path.
  - simpl. f_equal. apply clip_param_idempotent.
  - simpl. f_equal. rewrite map_map. apply map_ext_in.
    intros [k t] Hin. simpl. f_equal.
    rewrite Forall_forall in IH. apply (IH (k, t) Hin).
Qed.




(** X9: the projection keeps the names and the order of the fields, and
    it never changes a field whose name contains neither "alpha" nor
    "beta". *)
Theorem project_params_keeps_other_fields (params : ptree)
  (paramsClip : ParamsClip) :
  map fst (fields (project_params params paramsClip) "")
  = map fst (fields params "") /\
  forall i name v,
    nth_error (fields params "") i = Some (name, v) ->
    contains "alpha" name = false -> contains "beta" name = false ->
    nth_error (fields (project_params params paramsClip) "") i
    = Some (name, v).
Proof.
  split.
  - apply (field_names_apply_clip paramsClip params "").
  - intros i name v Hi Ha Hb. unfold project_params.
    rewrite fields_apply_clip, nth_error_map, Hi. simpl.
    unfold clip_param. now rewrite Ha, Hb.
Qed.

Lemma project_params_keeps_other_fields_witness :
  let params := Dict [("alpha"%string, Leaf 2); ("omega"%string, Leaf 5)] in
  map fst (fields (project_params params default_paramsClip) "")
  = map fst (fields params "") /\
  nth_error (fields (project_params params default_paramsClip) "") 1
  = Some ("omega"%string, 5).
Proof.
  destruct (project_params_keeps_other_fields
              (Dict [("alpha"%string, Leaf 2); ("omega"%string, Leaf 5)])
              default_paramsClip) as [Hnames Hfield].
  split; [exact Hnames|]. apply Hfield; reflexivity.
Defined.









(** ** How long the optimizer loop runs *)

Lemma while_loop_exit {C : Type} (cond_fun : C -> bool)
  (body_fun : C -> option C) :
  forall fuel c c',
    while_loop fuel cond_fun body_fun c = Some c' -> cond_fun c' = false.
Proof.
  induction fuel as [|fuel IH]; intros c c'; simpl.
  - destruct (cond_fun c) eqn:E; [discriminate|]. now intros [= <-].
  - destruct (cond_fun c) eqn:E; [|now intros [= <-]].
    destruct (body_fun c) as [c1|]; [|discriminate]. simpl. apply IH.
Qed.

(** X12: whatever [run_opt] returns has passed the stopping test: its
    iteration count is not 0, and the count has reached [max_iter], or the
    norm of its gradient is below [tol], or that norm is NaN. *)
Theorem run_opt_result_has_stopped (fuel : nat) (init_params : ftree)
  (fun_ : ftree -> xfloat) (opt : GradientTransformation) (max_iter : Z)
  (tol : R) (paramsClip : ParamsClip) (carry : carry_t opt) :
  run_opt fuel init_params fun_ opt max_iter tol paramsClip = Some carry ->
  tree_get_count opt (snd carry) <> 0%Z /\
  ((tree_get_count opt (snd carry) >= max_iter)%Z \/
   xlt (tree_l2_norm (tree_get_grad opt (snd carry))) (Fin tol) = true \/
   isnan (tree_l2_norm (tree_get_grad opt (snd carry))) = true).
Proof.
  intros H. apply continuing_criterion_false.
  apply (while_loop_exit _ _ _ _ _ H).
Qed.

Lemma run_opt_result_has_stopped_witness :
  let opt := constant_step (Fin 0) (Leaf NaN) in
  exists carry : carry_t opt,
    run_opt 5 (params_ab (Fin (1 / 2)) (Fin (1 / 2))) (fun _ => Fin 0) opt 5
      (1 / 1000) default_paramsClip = Some carry /\
    tree_get_count opt (snd carry) <> 0%Z /\
    ((tree_get_count opt (snd carry) >= 5)%Z \/
     xlt (tree_l2_norm (tree_get_grad opt (snd carry))) (Fin (1 / 1000))
     = true \/
     isnan (tree_l2_norm (tree_get_grad opt (snd carry))) = true).
Proof.
  eexists. split; [reflexivity|].
  apply (run_opt_result_has_stopped 5 (params_ab (Fin (1 / 2)) (Fin (1 / 2)))
           (fun _ => Fin 0) (constant_step (Fin 0) (Leaf NaN)) 5 (1 / 1000)
           default_paramsClip).
  reflexivity.
Defined.

(** X13: with [max_iter <= 1] and an optimizer that counts its updates,
    [run_opt] is exactly one step from the initial parameters, whatever the
    gradient and the tolerance. *)
Theorem run_opt_single_step (fuel : nat) (init_params : ftree)
  (fun_ : ftree -> xfloat) (opt : GradientTransformation) (max_iter : Z)
  (tol : R) (paramsClip : ParamsClip) :
  lawful opt -> (max_iter <= 1)%Z -> (1 <= fuel)%nat ->
  run_opt fuel init_params fun_ opt max_iter tol paramsClip
  = step opt fun_ paramsClip (init_params, init opt init_params) /\
  run_opt fuel init_params fun_ opt max_iter tol paramsClip <> None.
Proof.
  intros L Hmax Hfuel.
  assert (E1 : Z.to_nat (Z.max 1 max_iter) = 1%nat) by lia.
  destruct (run_opt_terminates opt fun_ paramsClip max_iter tol init_params
              fuel L ltac:(lia)) as (n & carry & Hrun & Hn & Hit & _).
  assert (n = 1%nat) by lia. subst n.
  cbn [iterate obind] in Hit. split; [|congruence]. now rewrite Hrun, Hit.
Qed.

Lemma run_opt_single_step_witness :
  let opt := constant_step (Fin 1) (Leaf (Fin 1)) in
  let init_params := params_ab (Fin (1 / 2)) (Fin (1 / 2)) in
  run_opt 5 init_params (fun _ => Fin 0) opt 0 (1 / 1000) default_paramsClip
  = step opt (fun _ => Fin 0) default_paramsClip (init_params, 0%Z) /\
  run_opt 5 init_params (fun _ => Fin 0) opt 0 (1 / 1000) default_paramsClip
  <> None.
Proof.
  apply (run_opt_single_step 5 (params_ab (Fin (1 / 2)) (Fin (1 / 2)))
           (fun _ => Fin 0) (constant_step (Fin 1) (Leaf (Fin 1))) 0
           (1 / 1000) default_paramsClip).
  - apply constant_step_lawful.
  - lia.
  - lia.
Defined.

Lemma iterate_count (opt : GradientTransformation) (fun_ : ftree -> xfloat)
  (paramsClip : ParamsClip) (c0 : carry_t opt) :
  lawful opt -> tree_get_count opt (snd c0) = 0%Z ->
  forall n c,
    iterate (step opt fun_ paramsClip) n c0 = Some c ->
    tree_get_count opt (snd c) = Z.of_nat n.
Proof.
  intros L H0. induction n as [|n IH]; intros c H.
  - injection H as <-. exact H0.
  - simpl in H.
    destruct (iterate (step opt fun_ paramsClip) n c0) as [c1|];
      [|discriminate].
    simpl in H. destruct (step_total opt fun_ paramsClip c1 L)
      as (c' & E & Hc).
    assert (c' = c) by congruence. subst c'.
    rewrite Hc, (IH c1 eq_refl). lia.
Qed.

(** X14: if after each of the first [max_iter - 1] steps the norm of the
    stored gradient is at or above [tol], an optimizer that counts its
    updates is stepped exactly [max_iter] times: the loop neither stops
    early nor runs longer. *)
Theorem run_opt_runs_max_iter (fuel : nat) (init_params : ftree)
  (fun_ : ftree -> xfloat) (opt : GradientTransformation) (max_iter : Z)
  (tol : R) (paramsClip : ParamsClip) :
  lawful opt -> (1 <= max_iter)%Z -> (Z.to_nat max_iter <= fuel)%nat ->
  (forall k carry,
     (1 <= k < Z.to_nat max_iter)%nat ->
     iterate (step opt fun_ paramsClip) k (init_params, init opt init_params)
     = Some carry ->
     xge (tree_l2_norm (tree_get_grad opt (snd carry))) (Fin tol) = true) ->
  run_opt fuel init_params fun_ opt max_iter tol paramsClip
  = iterate (step opt fun_ paramsClip) (Z.to_nat max_iter)
      (init_params, init opt init_params) /\
  run_opt fuel init_params fun_ opt max_iter tol paramsClip <> None.
Proof.
  intros L Hmax Hfuel Hgrad.
  destruct (run_opt_terminates opt fun_ paramsClip max_iter tol init_params
              fuel L ltac:(lia)) as (n & carry & Hrun & Hn & Hit & _ & Hstop).
  pose proof (iterate_count opt fun_ paramsClip
                (init_params, init opt init_params) L
                (count_init opt L init_params) n carry Hit) as Hc.
  destruct (Nat.eq_dec n (Z.to_nat max_iter)) as [-> | Hne].
  - split; [|congruence]. now rewrite Hrun, Hit.
  - exfalso. specialize (Hgrad n carry ltac:(lia) Hit).
    apply continuing_criterion_false in Hstop as [_ [Hge | Hlow]];
      [lia|].
    apply xge_false in Hlow. congruence.
Qed.

Lemma run_opt_runs_max_iter_witness :
  let opt := constant_step (Fin 0) (Leaf (Fin 1)) in
  let init_params := params_ab (Fin (1 / 2)) (Fin (1 / 2)) in
  run_opt 3 init_params (fun _ => Fin 0) opt 3 (1 / 1000) default_paramsClip
  = iterate (step opt (fun _ => Fin 0) default_paramsClip) (Z.to_nat 3)
      (init_params, 0%Z) /\
  run_opt 3 init_params (fun _ => Fin 0) opt 3 (1 / 1000) default_paramsClip
  <> None.
Proof.
  apply (run_opt_runs_max_iter 3 (params_ab (Fin (1 / 2)) (Fin (1 / 2)))
           (fun _ => Fin 0) (constant_step (Fin 0) (Leaf (Fin 1))) 3
           (1 / 1000) default_paramsClip).
  - apply constant_step_lawful.
  - lia.
  - simpl; lia.
  - intros k carry _ _. unfold tree_l2_norm. simpl.
    replace (1 * 1 + 0) with 1 by ring.
    destruct (Rlt_dec 1 0) as [H | _]; [lra|]. simpl.
    apply Rge_bool_true. rewrite sqrt_1. lra.
Defined.

(** ** The multi-start selection at its edges *)

(** X15: with [nInits = 1] the selection returns the parameters of the
    single run, seeded 0, whatever its loss, also when that loss is NaN. *)
Theorem multi_start_single_run
  (fit_model_vectorised : vectorised_fit) (data : list array)
  (fit_model : fit_model_t) :
  fit_model <> other_callable -> length data = arity fit_model ->
  let runs := fit_model_vectorised fit_model
                (map (fun x => tile x 1) data) [0%nat] in
  well_formed_runs fit_model 1 (fst runs) (snd runs) ->
  fit_with_multiple_initial_values fit_model_vectorised data 1 fit_model
  = run_params fit_model (fst runs) 0 /\
  fit_with_multiple_initial_values fit_model_vectorised data 1 fit_model
  <> None.
Proof.
  intros Hsup Hlen runs Hwf.
  destruct (fit_with_multiple_initial_values_selected fit_model_vectorised
              data 1 fit_model Hsup Hlen (Nat.le_refl 1) Hwf)
    as (_ & Hsel & v & Ev & Er).
  subst runs. cbv zeta in Hsel, Er.
  apply Nat.lt_1_r in Hsel. rewrite Hsel in Er.
  split; rewrite Ev; [symmetry; exact Er | discriminate].
Qed.

Lemma multi_start_single_run_witness :
  fit_with_multiple_initial_values
    (fixed_runs [Fin (1 / 2)] [Fin (1 / 4)] [NaN]) one_trial 1
    fit_model_same_alpha
  = run_params fit_model_same_alpha
      (fst (fixed_runs [Fin (1 / 2)] [Fin (1 / 4)] [NaN] fit_model_same_alpha
              (map (fun x => tile x 1) one_trial) [0%nat])) 0 /\
  fit_with_multiple_initial_values
    (fixed_runs [Fin (1 / 2)] [Fin (1 / 4)] [NaN]) one_trial 1
    fit_model_same_alpha <> None.
Proof.
  apply (multi_start_single_run
           (fixed_runs [Fin (1 / 2)] [Fin (1 / 4)] [NaN]) one_trial
           fit_model_same_alpha).
  - discriminate.
  - reflexivity.
  - split; [reflexivity|].
    intros k [<- | [<- | []]]; simpl; eauto.
Defined.

(** X16: on a vmapped fit that keeps its contract the selection raises in
    exactly three cases: the [fit_model] argument is none of the two
    supported functions, the data tuple has the wrong number of arrays, or
    [nInits] is 0. *)
Theorem fit_with_multiple_initial_values_raises
  (fit_model_vectorised : vectorised_fit) (data : list array) (nInits : nat)
  (fit_model : fit_model_t) :
  vmap_contract fit_model_vectorised fit_model ->
  (fit_with_multiple_initial_values fit_model_vectorised data nInits
     fit_model = None <->
   fit_model = other_callable \/ length data <> arity fit_model \/
   nInits = 0%nat).
Proof.
  intros Hc. split.
  - intros HNone.
    assert (Hsup : fit_model = other_callable \/ fit_model <> other_callable)
      by (destruct fit_model; [right | right | left];
          first [reflexivity | discriminate]).
    destruct Hsup as [Hsup | Hsup]; [now left | right].
    destruct (Nat.eq_dec (length data) (arity fit_model)) as [Hlen | Hlen];
      [right | now left].
    destruct nInits as [|n]; [reflexivity | exfalso].
    pose proof (Hc (map (fun x => tile x (S n)) data) (seq 0 (S n))) as Hwf.
    rewrite length_seq in Hwf.
    destruct (fit_with_multiple_initial_values_selected fit_model_vectorised
                data (S n) fit_model Hsup Hlen ltac:(lia) Hwf)
      as (_ & _ & v & Ev & _).
    congruence.
  - intros [-> | [Hlen | ->]].
    + unfold fit_with_multiple_initial_values.
      now destruct data.
    + unfold fit_with_multiple_initial_values.
      destruct fit_model; simpl in Hlen.
      * destruct data as [|a [|b [|c [|d [|? ?]]]]]; try reflexivity.
        simpl in Hlen; lia.
      * destruct data as [|a [|b [|c [|d [|e [|f [|g [|h [|? ?]]]]]]]]];
          try reflexivity.
        simpl in Hlen; lia.
      * now destruct data.
    + unfold fit_with_multiple_initial_values.
      destruct (match fit_model with
                | fit_model_same_alpha => _
                | fit_model_alpha_difference => _
                | other_callable => _
                end); reflexivity.
Qed.

Lemma fit_with_multiple_initial_values_raises_witness :
  fit_with_multiple_initial_values (seeded_runs (fun s => (Fin 0, Fin 0, NaN)))
    [[1]; [1]; [1]] 3 fit_model_same_alpha = None <->
  fit_model_same_alpha = other_callable \/
  length [[1]; [1]; [1]] <> arity fit_model_same_alpha \/ 3%nat = 0%nat.
Proof.
  apply (fit_with_multiple_initial_values_raises
           (seeded_runs (fun s => (Fin 0, Fin 0, NaN))) [[1]; [1]; [1]] 3
           fit_model_same_alpha).
  apply seeded_runs_contract.
Defined.

(** ** The simulated data of the grid recovery *)

Lemma fit_row_entries (ncols : nat) (v row : array) :
  fit_row ncols v = Some row ->
  length row = ncols /\ forall x, In x row -> In x v.
Proof.
  unfold fit_row. destruct (Nat.eqb (length v) ncols) eqn:E.
  - apply Nat.eqb_eq in E. intros [= <-]. auto.
  - destruct (Nat.eqb (length v) 1) eqn:E1; [|discriminate].
    intros [= <-]. split; [apply repeat_length|].
    intros x Hx. apply repeat_spec in Hx. subst x.
    destruct v as [|y [|? ?]]; try discriminate. now left.
Qed.

Lemma greater_as_int_binary (p d : R) : binary (greater_as_int p d).
Proof. unfold greater_as_int, binary. destruct (Rgt_dec p d); auto. Qed.

(** A TrialBatch simulated at a grid point has four arrays with one entry
    per trial, and its choices are 0 or 1. *)
Lemma simulated_at_well_formed {W : Type} (ext : collaborators W)
  (trueProbability : array) (a b : R) (w : W) (lane : list array) :
  simulated_at ext trueProbability a b w lane ->
  exists r m1 m2 ch,
    lane = [r; m1; m2; ch] /\
    length r = length trueProbability /\
    length m1 = length trueProbability /\
    length m2 = length trueProbability /\
    length ch = length trueProbability /\
    Forall binary ch.
Proof.
  unfold simulated_at.
  destruct (generate_schedule ext trueProbability w) as [[[s1 s2] s3] w1].
  intros (r & m1 & m2 & ch & F1 & F2 & F3 & H).
  destruct (simulate_RL_model ext r m1 m2 a b w1) as [[po cp] w2].
  destruct (rng_random ext (length trueProbability) w2) as [draws w3].
  destruct H as [(raw & Eraw & Fch) ->].
  exists r, m1, m2, ch.
  destruct (fit_row_entries _ _ _ F1) as [L1 _].
  destruct (fit_row_entries _ _ _ F2) as [L2 _].
  destruct (fit_row_entries _ _ _ F3) as [L3 _].
  destruct (fit_row_entries _ _ _ Fch) as [L4 Hin].
  repeat split; trivial.
  apply Forall_forall. intros x Hx. apply Hin in Hx.
  destruct (broadcast2_In _ _ _ _ _ Eraw Hx) as (p & d & _ & ->).
  apply greater_as_int_binary.
Qed.

(** X17: the data the grid recovery hands to the population fit is a stack
    of well-formed TrialBatches: the four matrices have one row per grid
    point, every row has one entry per trial, and every simulated choice is
    0 or 1. *)
Theorem simulate_grid_stack_well_formed {W : Type} (ext : collaborators W)
  (simulatedAlphaRange simulatedBetaRange trueProbability : array)
  (w w' : W) (st : sim_state) :
  well_shaped ext trueProbability ->
  simulate_grid ext simulatedAlphaRange simulatedBetaRange trueProbability w
  = Some (st, w') ->
  let N := (length simulatedAlphaRange * length simulatedBetaRange)%nat in
  (forall mat, In mat (stacked_data st) ->
     length mat = N /\
     forall row, In row mat -> length row = length trueProbability) /\
  forall row, In row (choice1Mat st) -> Forall binary row.
Proof.
  intros Hshape Hsim N.
  destruct (simulate_grid_invariant ext simulatedAlphaRange
              simulatedBetaRange trueProbability w Hshape)
    as (st0 & w0 & E0 & Hinv).
  assert (st0 = st) by congruence. subst st0. fold N in Hinv.
  destruct Hinv as (_ & _ & L1 & L2 & L3 & L4 & Hrows).
  assert (Hrow : forall c, (c < N)%nat ->
            exists r m1 m2 ch,
              nth_error (opt1RewardedMat st) c = Some r /\
              nth_error (magOpt1Mat st) c = Some m1 /\
              nth_error (magOpt2Mat st) c = Some m2 /\
              nth_error (choice1Mat st) c = Some ch /\
              length r = length trueProbability /\
              length m1 = length trueProbability /\
              length m2 = length trueProbability /\
              length ch = length trueProbability /\
              Forall binary ch).
  { intros c Hc.
    destruct (Hrows c Hc)
      as (row & r & m1 & m2 & ch & wc & _ & _ & _ & R1 & R2 & R3 & R4 & Hs).
    destruct (simulated_at_well_formed _ _ _ _ _ _ Hs)
      as (r' & m1' & m2' & ch' & [= -> -> -> ->] & Hl).
    exists r', m1', m2', ch'. tauto. }
  split.
  - assert (Hmat : forall mat (sel : array * array * array * array -> array),
               length mat = N ->
               (forall c r m1 m2 ch,
                  nth_error (opt1RewardedMat st) c = Some r ->
                  nth_error (magOpt1Mat st) c = Some m1 ->
                  nth_error (magOpt2Mat st) c = Some m2 ->
                  nth_error (choice1Mat st) c = Some ch ->
                  nth_error mat c = Some (sel (r, m1, m2, ch))) ->
               (forall r m1 m2 ch,
                  length r = length trueProbability ->
                  length m1 = length trueProbability ->
                  length m2 = length trueProbability ->
                  length ch = length trueProbability ->
                  length (sel (r, m1, m2, ch)) = length trueProbability) ->
               length mat = N /\
               forall row, In row mat ->
                           length row = length trueProbability).
    { intros mat sel Lm Hsel Hlen. split; [exact Lm|].
      intros row Hin. apply In_nth_error in Hin as (c & Ec).
      assert (Hc : (c < N)%nat)
        by (rewrite <- Lm; apply nth_error_Some; congruence).
      destruct (Hrow c Hc)
        as (r & m1 & m2 & ch & E1 & E2 & E3 & E4 & H1 & H2 & H3 & H4 & _).
      rewrite (Hsel c r m1 m2 ch E1 E2 E3 E4) in Ec. injection Ec as <-.
      now apply Hlen. }
    intros mat Hin. simpl in Hin.
    destruct Hin as [<- | [<- | [<- | [<- | []]]]].
    + apply (Hmat _ (fun t => fst (fst (fst t)))); auto.
    + apply (Hmat _ (fun t => snd (fst (fst t)))); auto.
    + apply (Hmat _ (fun t => snd (fst t))); auto.
    + apply (Hmat _ (fun t => snd t)); auto.
  - intros row Hin. apply In_nth_error in Hin as (c & Ec).
    assert (Hc : (c < N)%nat)
      by (rewrite <- L4; apply nth_error_Some; congruence).
    destruct (Hrow c Hc)
      as (r & m1 & m2 & ch & _ & _ & _ & E4 & _ & _ & _ & _ & Hb).
    congruence.
Qed.

Lemma simulate_grid_stack_well_formed_witness :
  exists st w',
    simulate_grid constant_collaborators [1 / 10; 1 / 2] [1 / 20]
      [7 / 10; 7 / 10] 0%nat = Some (st, w') /\
    (forall mat, In mat (stacked_data st) ->
       length mat = (2 * 1)%nat /\
       forall row, In row mat -> length row = 2%nat) /\
    forall row, In row (choice1Mat st) -> Forall binary row.
Proof.
  eexists. eexists. split; [reflexivity|].
  eapply (simulate_grid_stack_well_formed constant_collaborators
            [1 / 10; 1 / 2] [1 / 20] [7 / 10; 7 / 10] 0%nat).
  - apply constant_collaborators_well_shaped.
  - reflexivity.
Defined.

(** ** The loss at floating-point parameters *)

Lemma scan_snd_length {C X Y : Type} (f : C -> X -> C * Y) (xs : list X) :
  forall c, length (snd (scan f c xs)) = length xs.
Proof.
  induction xs as [|x xs IH]; intros c; simpl; [reflexivity|].
  destruct (f c x) as [c1 y]. specialize (IH c1).
  destruct (scan f c1 xs). simpl in *. now rewrite IH.
Qed.

Lemma removelast_length_any {A : Type} (l : list A) :
  length (removelast l) = (length l - 1)%nat.
Proof.
  induction l as [|x l IH]; [reflexivity|].
  destruct l as [|y l]; [reflexivity|].
  change (removelast (x :: y :: l)) with (x :: removelast (y :: l)).
  simpl length in *. rewrite IH. lia.
Qed.

Lemma removelast_map_any {A B : Type} (f : A -> B) (l : list A) :
  removelast (map f l) = map f (removelast l).
Proof.
  induction l as [|x l IH]; [reflexivity|].
  destruct l as [|y l]; [reflexivity|].
  change (removelast (map f (x :: y :: l)))
    with (f x :: removelast (map f (y :: l))).
  now rewrite IH.
Qed.

Lemma removelast_Forall {A : Type} (P : A -> Prop) (l : list A) :
  Forall P l -> Forall P (removelast l).
Proof.
  induction 1 as [|x l Hx Hl IH]; [constructor|].
  destruct l as [|y l]; [constructor|].
  change (removelast (x :: y :: l)) with (x :: removelast (y :: l)).
  now constructor.
Qed.

Lemma IEEE_zip_with_length (f : xfloat -> xfloat -> xfloat) (xs ys : farray) :
  length (IEEE.zip_with f xs ys) = Nat.min (length xs) (length ys).
Proof.
  revert ys; induction xs as [|x xs IH]; intros [|y ys]; simpl; auto.
Qed.

Lemma IEEE_broadcast2_same_length (f : xfloat -> xfloat -> xfloat)
  (xs ys : farray) :
  length xs = length ys ->
  IEEE.broadcast2 f xs ys = Some (IEEE.zip_with f xs ys).
Proof.
  intros E. unfold IEEE.broadcast2. now rewrite E, Nat.eqb_refl.
Qed.

Lemma IEEE_belief_trajectory_length (r : farray) (alpha p0 : xfloat) :
  (1 <= length r)%nat ->
  length (IEEE.belief_trajectory r alpha p0) = length r.
Proof.
  intros H. unfold IEEE.belief_trajectory, arange. simpl.
  rewrite removelast_length_any, scan_snd_length, length_seq. lia.
Qed.

(** On a TrialBatch the loss with the default utility is defined at all
    floating-point parameters. *)
Lemma IEEE_loss_value (rewarded1 mag1 mag2 choice1 : array)
  (alpha beta : xfloat) (startingProb : R) :
  (1 <= length rewarded1)%nat ->
  length mag1 = length rewarded1 ->
  length mag2 = length rewarded1 ->
  length choice1 = length rewarded1 ->
  let probOpt1 :=
    IEEE.belief_trajectory (map Fin rewarded1) alpha (Fin startingProb) in
  IEEE.loss_RL_model (rewarded1, mag1, mag2, choice1) (params_ab alpha beta)
    startingProb IEEE.utility_fun
  = Some (IEEE.mean
            (IEEE.zip_with IEEE.sigmoid_binary_cross_entropy1
               (map (xmul beta)
                  (IEEE.zip_with xsub
                     (IEEE.zip_with xmul (map Fin mag1) probOpt1)
                     (IEEE.zip_with xmul (map Fin mag2)
                        (map (xsub (Fin 1)) probOpt1))))
               (map Fin choice1))).
Proof.
  intros HT H1 H2 Hc probOpt1. unfold IEEE.loss_RL_model.
  cbn [params_ab tree_get_0 tree_get_all flat_map
    fst snd String.eqb Ascii.eqb Bool.eqb app obind].
  fold probOpt1.
  assert (Lp : length probOpt1 = length rewarded1).
  { unfold probOpt1. rewrite IEEE_belief_trajectory_length;
      rewrite length_map; [reflexivity | exact HT]. }
  unfold IEEE.utility_fun, IEEE.sigmoid_binary_cross_entropy.
  rewrite (IEEE_broadcast2_same_length xmul (map Fin mag1) probOpt1)
    by (rewrite length_map; lia).
  cbn [obind].
  rewrite (IEEE_broadcast2_same_length xmul (map Fin mag2))
    by (rewrite !length_map; lia).
  cbn [obind].
  rewrite (IEEE_broadcast2_same_length xsub)
    by (rewrite !IEEE_zip_with_length, !length_map; lia).
  cbn [obind].
  rewrite (IEEE_broadcast2_same_length IEEE.sigmoid_binary_cross_entropy1)
    by (rewrite length_map, !IEEE_zip_with_length, !length_map; lia).
  reflexivity.
Qed.

(** *** Without infinite parameters the loss is not infinite *)

Lemma noinf_Fin (r : R) : noinf (Fin r).
Proof. split; discriminate. Qed.

Lemma noinf_xopp (x : xfloat) : noinf x -> noinf (xopp x).
Proof. intros [H1 H2]; destruct x; split; simpl; congruence. Qed.

Lemma noinf_xadd (x y : xfloat) : noinf x -> noinf y -> noinf (xadd x y).
Proof.
  intros [H1 H2] [H3 H4]; destruct x, y; split; simpl; congruence.
Qed.

Lemma noinf_xsub (x y : xfloat) : noinf x -> noinf y -> noinf (xsub x y).
Proof. intros Hx Hy. apply noinf_xadd; [exact Hx | now apply noinf_xopp]. Qed.

Lemma noinf_xmul (x y : xfloat) : noinf x -> noinf y -> noinf (xmul x y).
Proof.
  intros [H1 H2] [H3 H4]; destruct x, y; split; simpl; congruence.
Qed.

Lemma noinf_log_sigmoid (x : xfloat) : noinf x -> noinf (IEEE.log_sigmoid x).
Proof. intros [H1 H2]; destruct x; split; simpl; congruence. Qed.

Lemma noinf_cross_entropy (logit label : xfloat) :
  noinf logit -> noinf label ->
  noinf (IEEE.sigmoid_binary_cross_entropy1 logit label).
Proof.
  intros Hz Hc. unfold IEEE.sigmoid_binary_cross_entropy1.
  apply noinf_xsub; apply noinf_xmul;
    auto using noinf_xopp, noinf_xsub, noinf_log_sigmoid, noinf_Fin.
Qed.

Lemma noinf_reals (a : array) : Forall noinf (map Fin a).
Proof. apply Forall_map, Forall_forall. intros; apply noinf_Fin. Qed.

Lemma IEEE_zip_with_Forall (P : xfloat -> Prop)
  (f : xfloat -> xfloat -> xfloat) :
  (forall x y, P x -> P y -> P (f x y)) ->
  forall xs ys, Forall P xs -> Forall P ys -> Forall P (IEEE.zip_with f xs ys).
Proof.
  intros Hf xs ys Hx. revert ys.
  induction Hx as [|x xs Hx _ IH]; intros ys Hy; [constructor|].
  destruct Hy as [|y ys Hy Hys]; [constructor|].
  simpl. constructor; auto.
Qed.

Lemma noinf_getitem (a : farray) (t : nat) :
  Forall noinf a -> noinf (IEEE.getitem a t).
Proof.
  intros H. unfold IEEE.getitem.
  destruct (nth_in_or_default (Nat.min t (length a - 1)) a NaN) as [Hin | ->].
  - rewrite Forall_forall in H. now apply H.
  - split; discriminate.
Qed.

Lemma scan_Forall {C X : Type} (P : C -> Prop) (f : C -> X -> C * C) :
  (forall c x, P c -> P (fst (f c x)) /\ P (snd (f c x))) ->
  forall xs c, P c -> Forall P (snd (scan f c xs)).
Proof.
  intros Hf. induction xs as [|x xs IH]; intros c Hc; simpl; [constructor|].
  destruct (Hf c x Hc) as [H1 H2]. destruct (f c x) as [c1 y]. simpl in *.
  specialize (IH c1 H1). destruct (scan f c1 xs). simpl in *.
  now constructor.
Qed.

Lemma noinf_belief_trajectory (r : array) (alpha : xfloat) (p0 : R) :
  noinf alpha ->
  Forall noinf (IEEE.belief_trajectory (map Fin r) alpha (Fin p0)).
Proof.
  intros Ha. unfold IEEE.belief_trajectory. simpl.
  constructor; [apply noinf_Fin|]. apply removelast_Forall.
  apply scan_Forall; [|apply noinf_Fin].
  intros c t Hc. unfold IEEE.compute_probOpt1. simpl.
  assert (noinf (xadd c (xmul alpha
                           (xsub (IEEE.getitem (map Fin r) t) c)))).
  { apply noinf_xadd; [exact Hc|]. apply noinf_xmul; [exact Ha|].
    apply noinf_xsub; [|exact Hc]. apply noinf_getitem, noinf_reals. }
  now split.
Qed.

Lemma noinf_mean (xs : farray) : Forall noinf xs -> noinf (IEEE.mean xs).
Proof.
  intros H. unfold IEEE.mean. destruct xs as [|x xs]; [split; discriminate|].
  assert (Hs : noinf (fold_right xadd (Fin 0) (x :: xs))).
  { induction H as [|y ys Hy _ IH]; [apply noinf_Fin|].
    simpl. now apply noinf_xadd. }
  destruct (fold_right xadd (Fin 0) (x :: xs)); [apply noinf_Fin | | |];
    exact Hs.
Qed.

(** On a TrialBatch, with the default utility and parameters that are real
    numbers or NaN, the loss is a real number or NaN. *)
Lemma IEEE_loss_noinf (rewarded1 mag1 mag2 choice1 : array)
  (alpha beta : xfloat) (startingProb : R) :
  (1 <= length rewarded1)%nat ->
  length mag1 = length rewarded1 ->
  length mag2 = length rewarded1 ->
  length choice1 = length rewarded1 ->
  noinf alpha -> noinf beta ->
  exists loss,
    IEEE.loss_RL_model (rewarded1, mag1, mag2, choice1) (params_ab alpha beta)
      startingProb IEEE.utility_fun = Some loss /\
    noinf loss.
Proof.
  intros HT H1 H2 Hc Ha Hb.
  rewrite (IEEE_loss_value rewarded1 mag1 mag2 choice1 alpha beta
             startingProb HT H1 H2 Hc).
  eexists. split; [reflexivity|].
  pose proof (noinf_belief_trajectory rewarded1 alpha startingProb Ha) as Hp.
  apply noinf_mean.
  apply IEEE_zip_with_Forall;
    [exact noinf_cross_entropy | | apply noinf_reals].
  apply Forall_map.
  assert (Hd : Forall noinf
                 (IEEE.zip_with xsub
                    (IEEE.zip_with xmul (map Fin mag1)
                       (IEEE.belief_trajectory (map Fin rewarded1) alpha
                          (Fin startingProb)))
                    (IEEE.zip_with xmul (map Fin mag2)
                       (map (xsub (Fin 1))
                          (IEEE.belief_trajectory (map Fin rewarded1) alpha
                             (Fin startingProb)))))).
  { apply IEEE_zip_with_Forall; [exact noinf_xsub | |];
      apply IEEE_zip_with_Forall;
      try exact noinf_xmul; try apply noinf_reals; trivial.
    apply Forall_map. revert Hp. apply Forall_impl.
    intros p Hpp. apply noinf_xsub; [apply noinf_Fin | exact Hpp]. }
  revert Hd. apply Forall_impl. intros d Hdd. now apply noinf_xmul.
Qed.

(** *** At real parameters the loss is the loss in exact arithmetic *)

Lemma IEEE_zip_with_reals (f : R -> R -> R) (F : xfloat -> xfloat -> xfloat) :
  (forall a b, F (Fin a) (Fin b) = Fin (f a b)) ->
  forall xs ys,
    IEEE.zip_with F (map Fin xs) (map Fin ys) = map Fin (zip_with f xs ys).
Proof.
  intros HF. induction xs as [|x xs IH]; intros [|y ys]; simpl; auto.
  now rewrite HF, IH.
Qed.

Lemma IEEE_getitem_reals (r : array) (t : nat) :
  r <> [] -> IEEE.getitem (map Fin r) t = Fin (getitem r t).
Proof.
  intros Hne. unfold IEEE.getitem, getitem. rewrite length_map.
  assert (Hlt : (Nat.min t (length r - 1) < length r)%nat)
    by (destruct r; [contradiction | simpl; lia]).
  rewrite (nth_indep (map Fin r) NaN (Fin 0)) by (now rewrite length_map).
  apply map_nth.
Qed.

Lemma IEEE_scan_reals (r : array) (alpha : R) :
  r <> [] ->
  forall xs c,
    snd (scan (IEEE.compute_probOpt1 (map Fin r) (Fin alpha)) (Fin c) xs)
    = map Fin (snd (scan (compute_probOpt1 r alpha) c xs)).
Proof.
  intros Hne. induction xs as [|t xs IH]; intros c; simpl; [reflexivity|].
  rewrite (IEEE_getitem_reals r t Hne). simpl.
  specialize (IH (c + alpha * (getitem r t - c))).
  unfold Rminus in *.
  destruct (scan (IEEE.compute_probOpt1 (map Fin r) (Fin alpha)) _ xs).
  destruct (scan (compute_probOpt1 r alpha) _ xs).
  simpl in *. now rewrite IH.
Qed.

Lemma IEEE_belief_trajectory_reals (r : array) (alpha p0 : R) :
  IEEE.belief_trajectory (map Fin r) (Fin alpha) (Fin p0)
  = map Fin (belief_trajectory r alpha p0).
Proof.
  unfold IEEE.belief_trajectory, belief_trajectory. rewrite length_map.
  simpl. f_equal. rewrite <- removelast_map_any. f_equal.
  destruct r as [|x r]; [reflexivity|].
  apply IEEE_scan_reals. discriminate.
Qed.

Lemma IEEE_mean_reals (xs : array) :
  xs <> [] ->
  Some (IEEE.mean (map Fin xs)) = option_map Fin (mean xs).
Proof.
  intros Hne. destruct xs as [|x xs]; [contradiction|].
  assert (Hs : forall l, fold_right xadd (Fin 0) (map Fin l)
                         = Fin (sum_array l)).
  { induction l as [|y l IH]; [reflexivity|]. simpl. now rewrite IH. }
  unfold IEEE.mean, mean.
  change (map Fin (x :: xs)) with (Fin x :: map Fin xs).
  change (fold_right xadd (Fin 0) (Fin x :: map Fin xs))
    with (fold_right xadd (Fin 0) (map Fin (x :: xs))).
  rewrite Hs. cbn [option_map]. do 3 f_equal.
  simpl length. now rewrite length_map.
Qed.

(** The loss with the default utility on a TrialBatch, array by array. *)
Lemma loss_RL_model_value (rewarded1 mag1 mag2 choice1 : array)
  (alpha beta startingProb : R) :
  (1 <= length rewarded1)%nat ->
  length mag1 = length rewarded1 ->
  length mag2 = length rewarded1 ->
  length choice1 = length rewarded1 ->
  let probOpt1 := belief_trajectory rewarded1 alpha startingProb in
  let losses :=
    zip_with sigmoid_binary_cross_entropy1
      (map (fun d => beta * d)
         (zip_with Rminus (zip_with Rmult mag1 probOpt1)
            (zip_with Rmult mag2 (map (fun p => 1 - p) probOpt1))))
      choice1 in
  loss_RL_model (rewarded1, mag1, mag2, choice1) (params_ab alpha beta)
    startingProb utility_fun = mean losses /\
  length losses = length rewarded1.
Proof.
  intros HT H1 H2 Hc probOpt1 losses. unfold loss_RL_model.
  cbn [params_ab tree_get_0 tree_get_all flat_map
    fst snd String.eqb Ascii.eqb Bool.eqb app obind].
  fold probOpt1.
  assert (Lp : length probOpt1 = length rewarded1)
    by (apply belief_trajectory_length; exact HT).
  unfold utility_fun, sigmoid_binary_cross_entropy.
  rewrite (broadcast2_same_length Rmult mag1 probOpt1) by lia.
  cbn [obind].
  rewrite (broadcast2_same_length Rmult mag2) by (rewrite length_map; lia).
  cbn [obind].
  rewrite (broadcast2_same_length Rminus)
    by (rewrite !zip_with_length, length_map; lia).
  cbn [obind].
  rewrite (broadcast2_same_length sigmoid_binary_cross_entropy1)
    by (rewrite length_map, !zip_with_length, length_map; lia).
  cbn [obind]. split; [reflexivity|].
  unfold losses.
  rewrite !zip_with_length, !length_map, !zip_with_length, length_map. lia.
Qed.

(** On a TrialBatch, at real parameters, the floating-point loss with the
    default utility is the loss in exact arithmetic. *)
Lemma IEEE_loss_reals (rewarded1 mag1 mag2 choice1 : array)
  (alpha beta startingProb : R) :
  (1 <= length rewarded1)%nat ->
  length mag1 = length rewarded1 ->
  length mag2 = length rewarded1 ->
  length choice1 = length rewarded1 ->
  IEEE.loss_RL_model (rewarded1, mag1, mag2, choice1)
    (params_ab (Fin alpha) (Fin beta)) startingProb IEEE.utility_fun
  = option_map Fin
      (loss_RL_model (rewarded1, mag1, mag2, choice1) (params_ab alpha beta)
         startingProb utility_fun).
Proof.
  intros HT H1 H2 Hc.
  rewrite (IEEE_loss_value rewarded1 mag1 mag2 choice1 (Fin alpha) (Fin beta)
             startingProb HT H1 H2 Hc).
  destruct (loss_RL_model_value rewarded1 mag1 mag2 choice1 alpha beta
              startingProb HT H1 H2 Hc) as [-> Ll].
  rewrite IEEE_belief_trajectory_reals.
  set (p := belief_trajectory rewarded1 alpha startingProb) in *.
  replace (map (xsub (Fin 1)) (map Fin p))
    with (map Fin (map (fun q => 1 - q) p))
    by (rewrite !map_map; reflexivity).
  rewrite !(IEEE_zip_with_reals Rmult xmul) by reflexivity.
  rewrite (IEEE_zip_with_reals Rminus xsub) by reflexivity.
  replace (map (xmul (Fin beta))
             (map Fin (zip_with Rminus (zip_with Rmult mag1 p)
                         (zip_with Rmult mag2 (map (fun q => 1 - q) p)))))
    with (map Fin (map (fun d => beta * d)
                     (zip_with Rminus (zip_with Rmult mag1 p)
                        (zip_with Rmult mag2 (map (fun q => 1 - q) p)))))
    by (rewrite !map_map; reflexivity).
  rewrite (IEEE_zip_with_reals sigmoid_binary_cross_entropy1
             IEEE.sigmoid_binary_cross_entropy1) by reflexivity.
  apply IEEE_mean_reals. intros E. rewrite E in Ll. simpl in Ll. lia.
Qed.

(** ** The two model fitters *)

Lemma uniform_in_bounds (prng : PRNG) (key : prng_key prng) (lo hi : R) :
  prng_lawful prng -> lo <= hi -> in_interval lo hi (uniform prng key lo hi).
Proof.
  intros L H. pose proof (uniform_unit prng L key) as Hu.
  unfold in_interval, uniform. set (u := uniform_bits prng key) in *.
  assert (u * (hi - lo) + lo <= hi) by nra.
  unfold Rmax. destruct (Rle_dec lo (u * (hi - lo) + lo)); lra.
Qed.

Lemma tree_shape_apply_clip {A : Type} `{Clip A} (paramsClip : ParamsClip)
  (params : tree A) :
  forall path,
    tree_shape (apply_clip paramsClip params path) = tree_shape params.
Proof.
  unfold tree_shape.
  induction params as [v | items IH] using ptree_induction; intros path.
  - reflexivity.
  - simpl. f_equal. rewrite map_map. apply map_ext_in.
    intros [k t] Hin. simpl. f_equal.
    rewrite Forall_forall in IH. apply (IH (k, t) Hin).
Qed.

Lemma tree_shape_apply_updates (params : ftree) :
  forall updates params',
    apply_updates params updates = Some params' ->
    tree_shape params' = tree_shape params.
Proof.
  unfold tree_shape.
  induction params as [v | items IH] using ptree_induction;
    intros [u | us] params'; simpl; try discriminate.
  - intros [= <-]. reflexivity.
  - destruct (zip_items apply_updates items us) as [items'|] eqn:E;
      [|discriminate].
    intros [= <-]. simpl. f_equal. revert us items' E.
    induction IH as [|[k t] items Hk _ IHitems]; intros [|[k' u] us] items';
      simpl; try discriminate.
    + intros [= <-]. reflexivity.
    + destruct (String.eqb k k'); [|discriminate].
      destruct (apply_updates t u) as [t'|] eqn:Et; [|discriminate].
      simpl. destruct (zip_items apply_updates items us) as [r|] eqn:Er;
        [|discriminate].
      intros [= <-]. simpl. f_equal.
      * f_equal. simpl in Hk. now apply (Hk u).
      * now apply (IHitems us).
Qed.

Lemma step_tree_shape (opt : GradientTransformation) (fun_ : ftree -> xfloat)
  (paramsClip : ParamsClip) (c c' : carry_t opt) :
  step opt fun_ paramsClip c = Some c' ->
  tree_shape (fst c') = tree_shape (fst c).
Proof.
  unfold step. destruct c as [params state].
  destruct (value_and_grad_from_state opt fun_ params state) as [value grad].
  destruct (update opt grad state params value grad fun_) as [updates state'].
  destruct (apply_updates params updates) as [p'|] eqn:E; [|discriminate].
  intros [= <-]. simpl. unfold project_params.
  rewrite tree_shape_apply_clip. now apply (tree_shape_apply_updates _ updates).
Qed.

(** What [run_opt] returns has the structure of the initial parameters, and
    every clipped field of it is NaN or a real number within its bounds. *)
Lemma run_opt_shape_and_bounds (fuel : nat) (init_params : ftree)
  (fun_ : ftree -> xfloat) (opt : GradientTransformation) (max_iter : Z)
  (tol : R) (paramsClip : ParamsClip) (carry : carry_t opt) :
  clip_bounds real_within paramsClip init_params ->
  run_opt fuel init_params fun_ opt max_iter tol paramsClip = Some carry ->
  tree_shape (fst carry) = tree_shape init_params /\
  clip_bounds nan_or_within paramsClip (fst carry).
Proof.
  intros Hinit Hrun.
  apply (while_loop_invariant
           (fun c : carry_t opt =>
              tree_shape (fst c) = tree_shape init_params /\
              feasible opt paramsClip init_params c)
           _ _) in Hrun.
  - destruct Hrun as (Hs & _ & Hb). now split.
  - intros c c' (Hs & Hf) E. split.
    + rewrite (step_tree_shape _ _ _ _ _ E). exact Hs.
    + apply (step_feasible opt fun_ paramsClip init_params c c' Hinit Hf E).
  - simpl. split; [reflexivity|]. split; [reflexivity|].
    now apply real_within_weaken.
Qed.

Lemma tree_shape_params_ab {A : Type} (p : tree A) (a0 b0 : A) :
  tree_shape p = tree_shape (params_ab a0 b0) ->
  exists a b, p = params_ab a b.
Proof.
  unfold tree_shape, params_ab. destruct p as [v | items]; [discriminate|].
  simpl. intros [= E].
  destruct items as [|[k1 t1] [|[k2 t2] [|? ?]]]; try discriminate.
  simpl in E. injection E as Ek1 Et1 Ek2 Et2. subst k1 k2.
  destruct t1 as [a|?]; [|discriminate]. destruct t2 as [b|?]; [|discriminate].
  exists a, b. reflexivity.
Qed.

Lemma tree_shape_params_split {A : Type} (p : tree A) (a0 a1 b0 : A) :
  tree_shape p = tree_shape (params_split a0 a1 b0) ->
  exists aS aV b, p = params_split aS aV b.
Proof.
  unfold tree_shape, params_split. destruct p as [v | items]; [discriminate|].
  simpl. intros [= E].
  destruct items as [|[k1 t1] [|[k2 t2] [|[k3 t3] [|? ?]]]]; try discriminate.
  simpl in E. injection E as Ek1 Et1 Ek2 Et2 Ek3 Et3. subst k1 k2 k3.
  destruct t1 as [a|?]; [|discriminate]. destruct t2 as [b|?]; [|discriminate].
  destruct t3 as [c|?]; [|discriminate].
  exists a, b, c. reflexivity.
Qed.

Lemma nan_or_within_noinf (lo hi : R) (x : xfloat) :
  nan_or_within lo hi x -> noinf x.
Proof. intros [-> | (r & -> & _)]; split; discriminate. Qed.

(** On a TrialBatch with choices 0 or 1 the loss in exact arithmetic, with
    the default utility, is defined, and it is not negative. *)
Lemma loss_RL_model_nonneg (rewarded1 mag1 mag2 choice1 : array)
  (alpha beta startingProb : R) :
  trial_batch rewarded1 mag1 mag2 choice1 ->
  Forall binary choice1 ->
  exists loss : R,
    loss_RL_model (rewarded1, mag1, mag2, choice1) (params_ab alpha beta)
      startingProb utility_fun = Some loss /\ 0 <= loss.
Proof.
  intros (HT & H1 & H2 & Hc) Hbin.
  destruct (loss_RL_model_value rewarded1 mag1 mag2 choice1 alpha beta
              startingProb HT H1 H2 Hc) as [E Ll].
  rewrite E.
  set (losses := zip_with sigmoid_binary_cross_entropy1 _ choice1) in *.
  destruct (mean losses) as [loss|] eqn:Em.
  - exists loss. split; [reflexivity|].
    apply (mean_nonneg losses); [|exact Em].
    intros x Hx. unfold losses in Hx.
    apply zip_with_In in Hx as (z & c & Hin & ->).
    apply cross_entropy_nonneg. rewrite Forall_forall in Hbin. now apply Hbin.
  - destruct losses; [simpl in Ll; lia | discriminate].
Qed.

(** The floating-point loss of a TrialBatch with the default utility: at
    parameters that are real numbers or NaN it is defined and no infinity;
    at real parameters it is the loss in exact arithmetic. *)
Lemma IEEE_loss_spec (rewarded1 mag1 mag2 choice1 : array)
  (alpha beta : xfloat) (startingProb : R) :
  trial_batch rewarded1 mag1 mag2 choice1 ->
  noinf alpha -> noinf beta ->
  exists loss,
    IEEE.loss_RL_model (rewarded1, mag1, mag2, choice1) (params_ab alpha beta)
      startingProb IEEE.utility_fun = Some loss /\
    noinf loss /\
    forall a b, alpha = Fin a -> beta = Fin b ->
      exists l,
        loss = Fin l /\
        loss_RL_model (rewarded1, mag1, mag2, choice1) (params_ab a b)
          startingProb utility_fun = Some l.
Proof.
  intros (HT & H1 & H2 & Hc) Ha Hb.
  destruct (IEEE_loss_noinf rewarded1 mag1 mag2 choice1 alpha beta
              startingProb HT H1 H2 Hc Ha Hb) as (loss & El & Hl).
  exists loss. split; [exact El|]. split; [exact Hl|].
  intros a b -> ->.
  rewrite (IEEE_loss_reals rewarded1 mag1 mag2 choice1 a b startingProb
             HT H1 H2 Hc) in El.
  destruct (loss_RL_model (rewarded1, mag1, mag2, choice1) (params_ab a b)
              startingProb utility_fun) as [l|]; [|discriminate].
  injection El as <-. eauto.
Qed.

(** What [fit_model_same_alpha] returns, if it returns. *)
Lemma fit_model_same_alpha_result (prng : PRNG) (fuel : nat)
  (data : trial_data) (rng : option (prng_key prng))
  (startingProb : R) (paramsClip : ParamsClip)
  (U : IEEE.utility_function_t)
  (opt : GradientTransformation) (max_iter : Z) (tol : R)
  (finalParams : ftree) (finalState : opt_state opt) (finalLoss : xfloat) :
  prng_lawful prng ->
  alphaMin paramsClip <= alphaMax paramsClip ->
  betaMin paramsClip <= betaMax paramsClip ->
  ModelFitter.fit_model_same_alpha prng fuel data rng startingProb paramsClip
    U opt max_iter tol = Some (finalParams, finalState, finalLoss) ->
  exists alpha beta,
    finalParams = params_ab alpha beta /\
    nan_or_within (alphaMin paramsClip) (alphaMax paramsClip) alpha /\
    nan_or_within (betaMin paramsClip) (betaMax paramsClip) beta /\
    IEEE.loss_RL_model data finalParams startingProb U = Some finalLoss.
Proof.
  intros Lp Ha Hb. unfold ModelFitter.fit_model_same_alpha.
  set (key := match rng with None => PRNGKey prng 0 | Some k => k end).
  pose proof (split_length prng Lp key 3) as Hsplit.
  destruct (split prng key 3) as [|k0 [|kA [|kB [|? ?]]]];
    try discriminate Hsplit.
  set (a0 := uniform prng kA (alphaMin paramsClip) (alphaMax paramsClip)).
  set (b0 := uniform prng kB (betaMin paramsClip) (betaMax paramsClip)).
  fold (params_ab (Fin a0) (Fin b0)).
  set (loss_fun := fun params =>
         IEEE.loss_RL_model data params startingProb U).
  assert (Hinit : clip_bounds real_within paramsClip
                    (params_ab (Fin a0) (Fin b0))).
  { intros name v [[= <- <-] | [[= <- <-] | []]]; simpl;
      split; intros; try discriminate;
      eexists; (split; [reflexivity|]); now apply uniform_in_bounds. }
  destruct (run_opt fuel (params_ab (Fin a0) (Fin b0)) (loss_value loss_fun)
              opt max_iter tol paramsClip) as [[fp fs]|] eqn:Hrun;
    cbn [obind]; [|discriminate].
  destruct (IEEE.loss_RL_model data fp startingProb U) as [fl|] eqn:El;
    cbn [obind]; [|discriminate].
  intros [= <- <- <-].
  destruct (run_opt_shape_and_bounds _ _ _ _ _ _ _ _ Hinit Hrun) as [Hs Hw].
  destruct (tree_shape_params_ab _ _ _ Hs) as (alpha & beta & E).
  simpl in E. subst fp. exists alpha, beta. split; [reflexivity|].
  split; [|split]; [ | | exact El].
  - apply (Hw "alpha"%string alpha); [now left | reflexivity].
  - apply (Hw "beta"%string beta); [right; now left | | ]; reflexivity.
Qed.

(** [fit_model_same_alpha] returns on a TrialBatch. *)
Lemma fit_model_same_alpha_returns (prng : PRNG) (fuel : nat)
  (rewarded1 mag1 mag2 choice1 : array) (rng : option (prng_key prng))
  (startingProb : R) (paramsClip : ParamsClip)
  (opt : GradientTransformation) (max_iter : Z) (tol : R) :
  prng_lawful prng ->
  alphaMin paramsClip <= alphaMax paramsClip ->
  betaMin paramsClip <= betaMax paramsClip ->
  lawful opt ->
  trial_batch rewarded1 mag1 mag2 choice1 ->
  (Z.to_nat (Z.max 1 max_iter) <= fuel)%nat ->
  exists alpha beta finalState finalLoss,
    ModelFitter.fit_model_same_alpha prng fuel
      (rewarded1, mag1, mag2, choice1) rng startingProb paramsClip
      IEEE.utility_fun opt max_iter tol
    = Some (params_ab alpha beta, finalState, finalLoss) /\
    nan_or_within (alphaMin paramsClip) (alphaMax paramsClip) alpha /\
    nan_or_within (betaMin paramsClip) (betaMax paramsClip) beta /\
    noinf finalLoss /\
    forall a b, alpha = Fin a -> beta = Fin b ->
      exists l,
        finalLoss = Fin l /\
        loss_RL_model (rewarded1, mag1, mag2, choice1) (params_ab a b)
          startingProb utility_fun = Some l.
Proof.
  intros Lp Ha Hb Lo Hshape Hfuel.
  destruct (ModelFitter.fit_model_same_alpha prng fuel
              (rewarded1, mag1, mag2, choice1) rng startingProb paramsClip
              IEEE.utility_fun opt max_iter tol)
    as [[[fp fs] fl]|] eqn:Efit.
  - destruct (fit_model_same_alpha_result _ _ _ _ _ _ _ _ _ _ _ _ _
                Lp Ha Hb Efit) as (alpha & beta & -> & HA & HB & El).
    exists alpha, beta, fs, fl. split; [reflexivity|].
    split; [exact HA|]. split; [exact HB|].
    destruct (IEEE_loss_spec rewarded1 mag1 mag2 choice1 alpha beta
                startingProb Hshape (nan_or_within_noinf _ _ _ HA)
                (nan_or_within_noinf _ _ _ HB)) as (loss & El' & Hn & Hr).
    assert (loss = fl) by congruence. subst loss. now split.
  - exfalso. revert Efit. unfold ModelFitter.fit_model_same_alpha.
    set (key := match rng with None => PRNGKey prng 0 | Some k => k end).
    pose proof (split_length prng Lp key 3) as Hsplit.
    destruct (split prng key 3) as [|k0 [|kA [|kB [|? ?]]]];
      try discriminate Hsplit.
    set (a0 := uniform prng kA (alphaMin paramsClip) (alphaMax paramsClip)).
    set (b0 := uniform prng kB (betaMin paramsClip) (betaMax paramsClip)).
    fold (params_ab (Fin a0) (Fin b0)).
    set (loss_fun := fun params =>
           IEEE.loss_RL_model (rewarded1, mag1, mag2, choice1) params
             startingProb IEEE.utility_fun).
    assert (Hinit : clip_bounds real_within paramsClip
                      (params_ab (Fin a0) (Fin b0))).
    { intros name v [[= <- <-] | [[= <- <-] | []]]; simpl;
        split; intros; try discriminate;
        eexists; (split; [reflexivity|]); now apply uniform_in_bounds. }
    destruct (run_opt_terminates opt (loss_value loss_fun) paramsClip
                max_iter tol (params_ab (Fin a0) (Fin b0)) fuel Lo Hfuel)
      as (n & [fp fs] & Hrun & _).
    rewrite Hrun. cbn [obind].
    destruct (run_opt_shape_and_bounds _ _ _ _ _ _ _ _ Hinit Hrun)
      as [Hs Hw].
    destruct (tree_shape_params_ab _ _ _ Hs) as (alpha & beta & E).
    simpl in E. subst fp.
    assert (HA : nan_or_within (alphaMin paramsClip) (alphaMax paramsClip)
                   alpha)
      by (apply (Hw "alpha"%string alpha); [now left | reflexivity]).
    assert (HB : nan_or_within (betaMin paramsClip) (betaMax paramsClip) beta)
      by (apply (Hw "beta"%string beta); [right; now left | | ];
          reflexivity).
    destruct (IEEE_loss_spec rewarded1 mag1 mag2 choice1 alpha beta
                startingProb Hshape (nan_or_within_noinf _ _ _ HA)
                (nan_or_within_noinf _ _ _ HB)) as (loss & El & _).
    unfold loss_fun. rewrite El. discriminate.
Qed.

(** X18: [fit_model_same_alpha] with ordered bounds: whatever it returns is
    a dictionary with exactly the fields alpha and beta, each of them NaN or
    a real number within its bounds ([alphaMin, alphaMax] and
    [betaMin, betaMax]), together with the loss at these parameters; on a
    TrialBatch with choices 0 or 1, with the default utility and an optimizer
    that counts its updates, it does return, its loss is no infinity, and
    unless a parameter is NaN the loss is the loss in exact arithmetic at
    the returned parameters, which is not negative. *)
Theorem fit_model_same_alpha_feasible (prng : PRNG) (fuel : nat)
  (rewarded1 mag1 mag2 choice1 : array) (rng : option (prng_key prng))
  (startingProb : R) (paramsClip : ParamsClip)
  (opt : GradientTransformation) (max_iter : Z) (tol : R) :
  prng_lawful prng ->
  alphaMin paramsClip <= alphaMax paramsClip ->
  betaMin paramsClip <= betaMax paramsClip ->
  let data := (rewarded1, mag1, mag2, choice1) in
  let fit := fun U =>
    ModelFitter.fit_model_same_alpha prng fuel data rng startingProb
      paramsClip U opt max_iter tol in
  (forall U finalParams finalState finalLoss,
     fit U = Some (finalParams, finalState, finalLoss) ->
     exists alpha beta,
       finalParams = params_ab alpha beta /\
       nan_or_within (alphaMin paramsClip) (alphaMax paramsClip) alpha /\
       nan_or_within (betaMin paramsClip) (betaMax paramsClip) beta /\
       IEEE.loss_RL_model data finalParams startingProb U = Some finalLoss) /\
  (lawful opt ->
   trial_batch rewarded1 mag1 mag2 choice1 -> Forall binary choice1 ->
   (Z.to_nat (Z.max 1 max_iter) <= fuel)%nat ->
   exists alpha beta finalState finalLoss,
     fit IEEE.utility_fun
     = Some (params_ab alpha beta, finalState, finalLoss) /\
     noinf finalLoss /\
     (alpha = NaN \/ beta = NaN \/
      exists a b l,
        alpha = Fin a /\ beta = Fin b /\ finalLoss = Fin l /\ 0 <= l /\
        loss_RL_model data (params_ab a b) startingProb utility_fun
        = Some l)).
Proof.
  intros Lp Ha Hb data fit. split.
  - intros U finalParams finalState finalLoss Efit.
    now apply (fit_model_same_alpha_result prng fuel data rng startingProb
                 paramsClip U opt max_iter tol finalParams finalState).
  - intros Lo Hshape Hbin Hfuel.
    destruct (fit_model_same_alpha_returns prng fuel rewarded1 mag1 mag2
                choice1 rng startingProb paramsClip opt max_iter tol
                Lp Ha Hb Lo Hshape Hfuel)
      as (alpha & beta & fs & fl & Efit & HA & HB & Hn & Hr).
    exists alpha, beta, fs, fl. split; [exact Efit|]. split; [exact Hn|].
    destruct HA as [-> | (a & -> & _)]; [now left|].
    destruct HB as [-> | (b & -> & _)]; [right; now left|].
    right; right. destruct (Hr a b eq_refl eq_refl) as (l & -> & El).
    exists a, b, l. repeat split; trivial.
    destruct (loss_RL_model_nonneg rewarded1 mag1 mag2 choice1 a b
                startingProb Hshape Hbin) as (l' & El' & Hl').
    unfold data in El. congruence.
Qed.

Lemma midpoint_prng_lawful : prng_lawful midpoint_prng.
Proof.
  constructor; simpl.
  - intros k n. now rewrite length_map, length_seq.
  - intros _. lra.
Qed.

Lemma binary_10 : Forall binary [1; 0].
Proof.
  apply Forall_cons; [right; reflexivity|].
  apply Forall_cons; [left; reflexivity|]. apply Forall_nil.
Qed.

Lemma binary_01 : Forall binary [0; 1].
Proof.
  apply Forall_cons; [left; reflexivity|].
  apply Forall_cons; [right; reflexivity|]. apply Forall_nil.
Qed.

Lemma fit_model_same_alpha_feasible_witness :
  let data := ([1; 0], [10; 20], [30; 5], [1; 0]) in
  let fit := fun U =>
    ModelFitter.fit_model_same_alpha midpoint_prng 3 data None
      (1 / 2) default_paramsClip U
      (constant_step (Fin 1) (Leaf (Fin 0))) 3 (1 / 1000) in
  (forall U finalParams finalState finalLoss,
     fit U = Some (finalParams, finalState, finalLoss) ->
     exists alpha beta,
       finalParams = params_ab alpha beta /\
       nan_or_within 0 1 alpha /\ nan_or_within 0 1 beta /\
       IEEE.loss_RL_model data finalParams (1 / 2) U = Some finalLoss) /\
  (exists alpha beta finalState finalLoss,
     fit IEEE.utility_fun
     = Some (params_ab alpha beta, finalState, finalLoss) /\
     noinf finalLoss /\
     (alpha = NaN \/ beta = NaN \/
      exists a b l,
        alpha = Fin a /\ beta = Fin b /\ finalLoss = Fin l /\ 0 <= l /\
        loss_RL_model data (params_ab a b) (1 / 2) utility_fun = Some l)).
Proof.
  destruct (fit_model_same_alpha_feasible midpoint_prng 3 [1; 0] [10; 20]
              [30; 5] [1; 0] None (1 / 2) default_paramsClip
              (constant_step (Fin 1) (Leaf (Fin 0))) 3 (1 / 1000))
    as (Hany & Hreturns).
  - exact midpoint_prng_lawful.
  - simpl; lra.
  - simpl; lra.
  - split; [exact Hany|]. apply Hreturns.
    + apply constant_step_lawful.
    + repeat split; simpl; lia.
    + exact binary_10.
    + simpl; lia.
Defined.

Lemma split_loss_fun_params_split
  (rS m1S m2S cS rV m1V m2V cV : array) (startingProb : R)
  (U : IEEE.utility_function_t) (aS aV b : xfloat) :
  ModelFitter.split_loss_fun (rS, m1S, m2S, cS, rV, m1V, m2V, cV)
    startingProb U (params_split aS aV b)
  = lossStable <- IEEE.loss_RL_model (rS, m1S, m2S, cS) (params_ab aS b)
                    startingProb U ;;
    lossVolatile <- IEEE.loss_RL_model (rV, m1V, m2V, cV) (params_ab aV b)
                      startingProb U ;;
    Some (xadd lossStable lossVolatile).
Proof. reflexivity. Qed.

(** What [fit_model_alpha_difference] returns, if it returns. *)
Lemma fit_model_alpha_difference_result (prng : PRNG) (fuel : nat)
  (rS m1S m2S cS rV m1V m2V cV : array) (rng : option (prng_key prng))
  (startingProb : R) (paramsClip : ParamsClip)
  (U : IEEE.utility_function_t)
  (opt : GradientTransformation) (max_iter : Z) (tol : R)
  (finalParams : ftree) (finalState : opt_state opt) (finalLoss : xfloat) :
  prng_lawful prng ->
  alphaMin paramsClip <= alphaMax paramsClip ->
  betaMin paramsClip <= betaMax paramsClip ->
  ModelFitter.fit_model_alpha_difference prng fuel
    (rS, m1S, m2S, cS, rV, m1V, m2V, cV) rng startingProb paramsClip
    U opt max_iter tol = Some (finalParams, finalState, finalLoss) ->
  exists alphaStable alphaVolatile beta lossStable lossVolatile,
    finalParams = params_split alphaStable alphaVolatile beta /\
    nan_or_within (alphaMin paramsClip) (alphaMax paramsClip) alphaStable /\
    nan_or_within (alphaMin paramsClip) (alphaMax paramsClip)
      alphaVolatile /\
    nan_or_within (betaMin paramsClip) (betaMax paramsClip) beta /\
    IEEE.loss_RL_model (rS, m1S, m2S, cS) (params_ab alphaStable beta)
      startingProb U = Some lossStable /\
    IEEE.loss_RL_model (rV, m1V, m2V, cV) (params_ab alphaVolatile beta)
      startingProb U = Some lossVolatile /\
    finalLoss = xadd lossStable lossVolatile.
Proof.
  intros Lp Ha Hb. unfold ModelFitter.fit_model_alpha_difference.
  set (key := match rng with None => PRNGKey prng 0 | Some k => k end).
  pose proof (split_length prng Lp key 4) as Hsplit.
  destruct (split prng key 4) as [|k0 [|kS [|kV [|kB [|? ?]]]]];
    try discriminate Hsplit.
  set (s0 := uniform prng kS (alphaMin paramsClip) (alphaMax paramsClip)).
  set (v0 := uniform prng kV (alphaMin paramsClip) (alphaMax paramsClip)).
  set (b0 := uniform prng kB (betaMin paramsClip) (betaMax paramsClip)).
  fold (params_split (Fin s0) (Fin v0) (Fin b0)).
  set (loss_fun := ModelFitter.split_loss_fun
                     (rS, m1S, m2S, cS, rV, m1V, m2V, cV) startingProb U).
  assert (Hinit : clip_bounds real_within paramsClip
                    (params_split (Fin s0) (Fin v0) (Fin b0))).
  { intros name v [[= <- <-] | [[= <- <-] | [[= <- <-] | []]]]; simpl;
      split; intros; try discriminate;
      eexists; (split; [reflexivity|]); now apply uniform_in_bounds. }
  destruct (run_opt fuel (params_split (Fin s0) (Fin v0) (Fin b0))
              (loss_value loss_fun) opt max_iter tol paramsClip)
    as [[fp fs]|] eqn:Hrun; cbn [obind]; [|discriminate].
  destruct (run_opt_shape_and_bounds _ _ _ _ _ _ _ _ Hinit Hrun) as [Hs Hw].
  destruct (tree_shape_params_split _ _ _ _ Hs) as (aS & aV & b & E).
  simpl in E. subst fp. unfold loss_fun.
  rewrite split_loss_fun_params_split.
  destruct (IEEE.loss_RL_model (rS, m1S, m2S, cS) (params_ab aS b)
              startingProb U) as [lS|] eqn:ElS; cbn [obind]; [|discriminate].
  destruct (IEEE.loss_RL_model (rV, m1V, m2V, cV) (params_ab aV b)
              startingProb U) as [lV|] eqn:ElV; cbn [obind]; [|discriminate].
  intros [= <- <- <-]. exists aS, aV, b, lS, lV.
  split; [reflexivity|].
  split; [apply (Hw "alphaStable"%string aS); [now left | reflexivity]|].
  split; [apply (Hw "alphaVolatile"%string aV);
          [right; now left | reflexivity]|].
  split; [apply (Hw "beta"%string b);
          [right; right; now left | | ]; reflexivity|].
  split; [exact ElS|]. split; [exact ElV | reflexivity].
Qed.

(** [fit_model_alpha_difference] returns on two TrialBatches. *)
Lemma fit_model_alpha_difference_returns (prng : PRNG) (fuel : nat)
  (rS m1S m2S cS rV m1V m2V cV : array) (rng : option (prng_key prng))
  (startingProb : R) (paramsClip : ParamsClip)
  (opt : GradientTransformation) (max_iter : Z) (tol : R) :
  prng_lawful prng ->
  alphaMin paramsClip <= alphaMax paramsClip ->
  betaMin paramsClip <= betaMax paramsClip ->
  lawful opt ->
  trial_batch rS m1S m2S cS -> trial_batch rV m1V m2V cV ->
  (Z.to_nat (Z.max 1 max_iter) <= fuel)%nat ->
  exists alphaStable alphaVolatile beta finalState finalLoss,
    ModelFitter.fit_model_alpha_difference prng fuel
      (rS, m1S, m2S, cS, rV, m1V, m2V, cV) rng startingProb paramsClip
      IEEE.utility_fun opt max_iter tol
    = Some (params_split alphaStable alphaVolatile beta, finalState,
            finalLoss) /\
    nan_or_within (alphaMin paramsClip) (alphaMax paramsClip) alphaStable /\
    nan_or_within (alphaMin paramsClip) (alphaMax paramsClip)
      alphaVolatile /\
    nan_or_within (betaMin paramsClip) (betaMax paramsClip) beta /\
    noinf finalLoss /\
    forall aS aV b,
      alphaStable = Fin aS -> alphaVolatile = Fin aV -> beta = Fin b ->
      exists lS lV,
        finalLoss = Fin (lS + lV) /\
        loss_RL_model (rS, m1S, m2S, cS) (params_ab aS b) startingProb
          utility_fun = Some lS /\
        loss_RL_model (rV, m1V, m2V, cV) (params_ab aV b) startingProb
          utility_fun = Some lV.
Proof.
  intros Lp Ha Hb Lo HshapeS HshapeV Hfuel.
  assert (Hloss : forall aS aV b,
            nan_or_within (alphaMin paramsClip) (alphaMax paramsClip) aS ->
            nan_or_within (alphaMin paramsClip) (alphaMax paramsClip) aV ->
            nan_or_within (betaMin paramsClip) (betaMax paramsClip) b ->
            exists lS lV,
              IEEE.loss_RL_model (rS, m1S, m2S, cS) (params_ab aS b)
                startingProb IEEE.utility_fun = Some lS /\
              IEEE.loss_RL_model (rV, m1V, m2V, cV) (params_ab aV b)
                startingProb IEEE.utility_fun = Some lV /\
              noinf (xadd lS lV) /\
              forall rS' rV' b', aS = Fin rS' -> aV = Fin rV' -> b = Fin b' ->
                exists xS xV,
                  xadd lS lV = Fin (xS + xV) /\
                  loss_RL_model (rS, m1S, m2S, cS) (params_ab rS' b')
                    startingProb utility_fun = Some xS /\
                  loss_RL_model (rV, m1V, m2V, cV) (params_ab rV' b')
                    startingProb utility_fun = Some xV).
  { intros aS aV b HS HV HB.
    destruct (IEEE_loss_spec rS m1S m2S cS aS b startingProb HshapeS
                (nan_or_within_noinf _ _ _ HS) (nan_or_within_noinf _ _ _ HB))
      as (lS & ElS & HnS & HrS).
    destruct (IEEE_loss_spec rV m1V m2V cV aV b startingProb HshapeV
                (nan_or_within_noinf _ _ _ HV) (nan_or_within_noinf _ _ _ HB))
      as (lV & ElV & HnV & HrV).
    exists lS, lV. split; [exact ElS|]. split; [exact ElV|].
    split; [now apply noinf_xadd|].
    intros rS' rV' b' E1 E2 E3.
    destruct (HrS rS' b' E1 E3) as (xS & -> & ExS).
    destruct (HrV rV' b' E2 E3) as (xV & -> & ExV).
    exists xS, xV. repeat split; trivial. }
  destruct (ModelFitter.fit_model_alpha_difference prng fuel
              (rS, m1S, m2S, cS, rV, m1V, m2V, cV) rng startingProb
              paramsClip IEEE.utility_fun opt max_iter tol)
    as [[[fp fs] fl]|] eqn:Efit.
  - destruct (fit_model_alpha_difference_result _ _ _ _ _ _ _ _ _ _ _ _ _ _
                _ _ _ _ _ _ Lp Ha Hb Efit)
      as (aS & aV & b & lS & lV & -> & HS & HV & HB & ElS & ElV & ->).
    exists aS, aV, b, fs, (xadd lS lV). split; [reflexivity|].
    split; [exact HS|]. split; [exact HV|]. split; [exact HB|].
    destruct (Hloss aS aV b HS HV HB) as (lS' & lV' & ElS' & ElV' & Hn & Hr).
    assert (lS' = lS) by congruence. assert (lV' = lV) by congruence.
    subst lS' lV'. now split.
  - exfalso. revert Efit. unfold ModelFitter.fit_model_alpha_difference.
    set (key := match rng with None => PRNGKey prng 0 | Some k => k end).
    pose proof (split_length prng Lp key 4) as Hsplit.
    destruct (split prng key 4) as [|k0 [|kS [|kV [|kB [|? ?]]]]];
      try discriminate Hsplit.
    set (s0 := uniform prng kS (alphaMin paramsClip) (alphaMax paramsClip)).
    set (v0 := uniform prng kV (alphaMin paramsClip) (alphaMax paramsClip)).
    set (b0 := uniform prng kB (betaMin paramsClip) (betaMax paramsClip)).
    fold (params_split (Fin s0) (Fin v0) (Fin b0)).
    set (loss_fun := ModelFitter.split_loss_fun
                       (rS, m1S, m2S, cS, rV, m1V, m2V, cV) startingProb
                       IEEE.utility_fun).
    assert (Hinit : clip_bounds real_within paramsClip
                      (params_split (Fin s0) (Fin v0) (Fin b0))).
    { intros name v [[= <- <-] | [[= <- <-] | [[= <- <-] | []]]]; simpl;
        split; intros; try discriminate;
        eexists; (split; [reflexivity|]); now apply uniform_in_bounds. }
    destruct (run_opt_terminates opt (loss_value loss_fun) paramsClip
                max_iter tol (params_split (Fin s0) (Fin v0) (Fin b0)) fuel
                Lo Hfuel)
      as (n & [fp fs] & Hrun & _).
    rewrite Hrun. cbn [obind].
    destruct (run_opt_shape_and_bounds _ _ _ _ _ _ _ _ Hinit Hrun)
      as [Hs Hw].
    destruct (tree_shape_params_split _ _ _ _ Hs) as (aS & aV & b & E).
    simpl in E. subst fp.
    destruct (Hloss aS aV b) as (lS & lV & ElS & ElV & _).
    { apply (Hw "alphaStable"%string aS); [now left | reflexivity]. }
    { apply (Hw "alphaVolatile"%string aV);
        [right; now left | reflexivity]. }
    { apply (Hw "beta"%string b);
        [right; right; now left | | ]; reflexivity. }
    unfold loss_fun. rewrite split_loss_fun_params_split, ElS, ElV.
    discriminate.
Qed.

(** X19: [fit_model_alpha_difference] with ordered bounds: whatever it
    returns is a dictionary with exactly the fields alphaStable,
    alphaVolatile and beta, each of them NaN or a real number within its
    bounds (both learning rates [alphaMin, alphaMax], beta
    [betaMin, betaMax]), and its loss is the loss of the stable block at
    (alphaStable, beta) plus the loss of the volatile block at
    (alphaVolatile, beta); on two TrialBatches with choices 0 or 1, with the
    default utility and an optimizer that counts its updates, it does
    return, its loss is no infinity, and unless a parameter is NaN the loss
    is the sum of the two losses in exact arithmetic, which are not
    negative. *)
Theorem fit_model_alpha_difference_feasible (prng : PRNG) (fuel : nat)
  (rS m1S m2S cS rV m1V m2V cV : array) (rng : option (prng_key prng))
  (startingProb : R) (paramsClip : ParamsClip)
  (opt : GradientTransformation) (max_iter : Z) (tol : R) :
  prng_lawful prng ->
  alphaMin paramsClip <= alphaMax paramsClip ->
  betaMin paramsClip <= betaMax paramsClip ->
  let fit := fun U =>
    ModelFitter.fit_model_alpha_difference prng fuel
      (rS, m1S, m2S, cS, rV, m1V, m2V, cV) rng startingProb
      paramsClip U opt max_iter tol in
  (forall U finalParams finalState finalLoss,
     fit U = Some (finalParams, finalState, finalLoss) ->
     exists alphaStable alphaVolatile beta lossStable lossVolatile,
       finalParams = params_split alphaStable alphaVolatile beta /\
       nan_or_within (alphaMin paramsClip) (alphaMax paramsClip)
         alphaStable /\
       nan_or_within (alphaMin paramsClip) (alphaMax paramsClip)
         alphaVolatile /\
       nan_or_within (betaMin paramsClip) (betaMax paramsClip) beta /\
       IEEE.loss_RL_model (rS, m1S, m2S, cS) (params_ab alphaStable beta)
         startingProb U = Some lossStable /\
       IEEE.loss_RL_model (rV, m1V, m2V, cV) (params_ab alphaVolatile beta)
         startingProb U = Some lossVolatile /\
       finalLoss = xadd lossStable lossVolatile) /\
  (lawful opt ->
   trial_batch rS m1S m2S cS -> Forall binary cS ->
   trial_batch rV m1V m2V cV -> Forall binary cV ->
   (Z.to_nat (Z.max 1 max_iter) <= fuel)%nat ->
   exists alphaStable alphaVolatile beta finalState finalLoss,
     fit IEEE.utility_fun
     = Some (params_split alphaStable alphaVolatile beta, finalState,
             finalLoss) /\
     noinf finalLoss /\
     (alphaStable = NaN \/ alphaVolatile = NaN \/ beta = NaN \/
      exists aS aV b lS lV,
        alphaStable = Fin aS /\ alphaVolatile = Fin aV /\ beta = Fin b /\
        finalLoss = Fin (lS + lV) /\ 0 <= lS /\ 0 <= lV /\
        loss_RL_model (rS, m1S, m2S, cS) (params_ab aS b) startingProb
          utility_fun = Some lS /\
        loss_RL_model (rV, m1V, m2V, cV) (params_ab aV b) startingProb
          utility_fun = Some lV)).
Proof.
  intros Lp Ha Hb fit. split.
  - intros U finalParams finalState finalLoss Efit.
    now apply (fit_model_alpha_difference_result prng fuel rS m1S m2S cS
                 rV m1V m2V cV rng startingProb paramsClip U opt max_iter tol
                 finalParams finalState).
  - intros Lo HshapeS HbinS HshapeV HbinV Hfuel.
    destruct (fit_model_alpha_difference_returns prng fuel rS m1S m2S cS
                rV m1V m2V cV rng startingProb paramsClip opt max_iter tol
                Lp Ha Hb Lo HshapeS HshapeV Hfuel)
      as (aS & aV & b & fs & fl & Efit & HS & HV & HB & Hn & Hr).
    exists aS, aV, b, fs, fl. split; [exact Efit|]. split; [exact Hn|].
    destruct HS as [-> | (xS & -> & _)]; [now left|].
    destruct HV as [-> | (xV & -> & _)]; [right; now left|].
    destruct HB as [-> | (xb & -> & _)]; [right; right; now left|].
    right; right; right.
    destruct (Hr xS xV xb eq_refl eq_refl eq_refl) as (lS & lV & -> & ES & EV).
    exists xS, xV, xb, lS, lV. repeat split; trivial.
    + destruct (loss_RL_model_nonneg rS m1S m2S cS xS xb startingProb
                  HshapeS HbinS) as (l' & El' & Hl'). congruence.
    + destruct (loss_RL_model_nonneg rV m1V m2V cV xV xb startingProb
                  HshapeV HbinV) as (l' & El' & Hl'). congruence.
Qed.

Lemma fit_model_alpha_difference_feasible_witness :
  let fit := fun U =>
    ModelFitter.fit_model_alpha_difference midpoint_prng 3
      ([1; 0], [10; 20], [30; 5], [1; 0],
       [0; 1], [5; 50], [40; 8], [0; 1]) None
      (1 / 2) default_paramsClip U
      (constant_step (Fin 1) (Leaf (Fin 0))) 3 (1 / 1000) in
  exists alphaStable alphaVolatile beta finalState finalLoss,
    fit IEEE.utility_fun
    = Some (params_split alphaStable alphaVolatile beta, finalState,
            finalLoss) /\
    noinf finalLoss /\
    (alphaStable = NaN \/ alphaVolatile = NaN \/ beta = NaN \/
     exists aS aV b lS lV,
       alphaStable = Fin aS /\ alphaVolatile = Fin aV /\ beta = Fin b /\
       finalLoss = Fin (lS + lV) /\ 0 <= lS /\ 0 <= lV /\
       loss_RL_model ([1; 0], [10; 20], [30; 5], [1; 0]) (params_ab aS b)
         (1 / 2) utility_fun = Some lS /\
       loss_RL_model ([0; 1], [5; 50], [40; 8], [0; 1]) (params_ab aV b)
         (1 / 2) utility_fun = Some lV).
Proof.
  destruct (fit_model_alpha_difference_feasible midpoint_prng 3
              [1; 0] [10; 20] [30; 5] [1; 0] [0; 1] [5; 50] [40; 8] [0; 1]
              None (1 / 2) default_paramsClip
              (constant_step (Fin 1) (Leaf (Fin 0))) 3 (1 / 1000))
    as (_ & Hreturns).
  - exact midpoint_prng_lawful.
  - simpl; lra.
  - simpl; lra.
  - apply Hreturns.
    + apply constant_step_lawful.
    + repeat split; simpl; lia.
    + exact binary_10.
    + repeat split; simpl; lia.
    + exact binary_01.
    + simpl; lia.
Defined.

(** ** The multi-start selection over the fitted runs *)

Lemma lane_shaped_arity (fit_model : fit_model_t) (data : list array) :
  lane_shaped fit_model data ->
  fit_model <> other_callable /\ length data = arity fit_model /\ data <> [].
Proof.
  destruct fit_model;
    destruct data as [|a [|b [|c [|d [|e [|f [|g [|h [|? ?]]]]]]]]];
    simpl; intros H; try contradiction;
    (split; [discriminate | split; [reflexivity | discriminate]]).
Qed.

Lemma map_const_seq {A : Type} (x : A) (n : nat) :
  forall s, map (fun _ => x) (seq s n) = repeat x n.
Proof.
  induction n as [|n IH]; intros s; simpl; [reflexivity|]. now rewrite IH.
Qed.

Lemma nth_tile (x : array) (n i : nat) :
  (i < n)%nat -> nth i (tile x n) [] = x.
Proof.
  intros H. apply nth_error_nth. unfold tile. now apply nth_error_repeat.
Qed.

(** The lanes of data tiled [n] times are [n] copies of the data. *)
Lemma vmap_lanes_tile (data : list array) (n : nat) :
  data <> [] ->
  vmap_lanes (map (fun x => tile x n) data) = Some (repeat data n).
Proof.
  intros Hne. destruct data as [|m data]; [contradiction|].
  unfold vmap_lanes. cbn [map].
  assert (Hall : forallb (fun m' : list array =>
                            Nat.eqb (length m') (length (tile m n)))
                   (tile m n :: map (fun x => tile x n) data) = true).
  { apply forallb_forall. intros m' Hin. apply Nat.eqb_eq.
    change (tile m n :: map (fun x => tile x n) data)
      with (map (fun x => tile x n) (m :: data)) in Hin.
    apply in_map_iff in Hin as (x & <- & _).
    unfold tile. now rewrite !repeat_length. }
  rewrite Hall. f_equal.
  unfold tile at 3. rewrite repeat_length.
  rewrite <- (map_const_seq (m :: data) n 0). apply map_ext_in.
  intros i Hi. apply in_seq in Hi. f_equal.
  - apply nth_tile. lia.
  - rewrite map_map. rewrite <- (map_id data) at 2. apply map_ext.
    intros x. apply nth_tile. lia.
Qed.

Lemma run_lanes_tile
  (fit : fit_model_t -> list array -> nat -> option (param_vector * xfloat))
  (fit_model : fit_model_t) (data : list array) (n : nat) :
  data <> [] ->
  run_lanes fit fit_model (map (fun x => tile x n) data) (seq 0 n)
  = mapM (fun i => fit fit_model data i) (seq 0 n).
Proof.
  intros Hne. unfold run_lanes. rewrite (vmap_lanes_tile data n Hne).
  cbn [obind]. rewrite repeat_length, length_seq, Nat.eqb_refl.
  generalize 0%nat. induction n as [|n IH]; intros s; simpl; [reflexivity|].
  now rewrite IH.
Qed.

Lemma isfinite_Fin (x : xfloat) : isfinite x = true -> exists r, x = Fin r.
Proof. destruct x; try discriminate. eauto. Qed.

(** One run of [jax.vmap(fit_model)] on the data of a subject: it returns
    a value for every parameter of the variant, none of them infinite, and
    a loss that is no infinity; when every parameter is a real number, so is
    the loss. *)
Lemma lane_fit_spec (prng : PRNG) (opt : GradientTransformation) (fuel : nat)
  (fit_model : fit_model_t) (data : list array) (seed : nat) :
  prng_lawful prng -> lawful opt -> (100 <= fuel)%nat ->
  lane_shaped fit_model data ->
  exists v l,
    lane_fit prng opt fuel fit_model data seed = Some (v, l) /\
    v = map (fun k => (k, entry k v)) (param_names fit_model) /\
    Forall (fun kv => noinf (snd kv)) v /\
    noinf l /\
    (finite_looking v -> isfinite l = true).
Proof.
  intros Lp Lo Hfuel Hshape.
  assert (Ha : alphaMin default_paramsClip <= alphaMax default_paramsClip)
    by (simpl; lra).
  assert (Hb : betaMin default_paramsClip <= betaMax default_paramsClip)
    by (simpl; lra).
  assert (Hf : (Z.to_nat (Z.max 1 100) <= fuel)%nat) by (simpl; lia).
  destruct fit_model;
    destruct data as [|r [|m1 [|m2 [|c [|rV [|m1V [|m2V [|cV [|? ?]]]]]]]]];
    simpl in Hshape; try contradiction.
  - destruct (fit_model_same_alpha_returns prng fuel r m1 m2 c
                (Some (PRNGKey prng seed)) (1 / 2) default_paramsClip opt
                100 (1 / 1000) Lp Ha Hb Lo Hshape Hf)
      as (alpha & beta & fs & fl & Efit & HA & HB & Hn & Hr).
    exists [("alpha"%string, alpha); ("beta"%string, beta)], fl.
    split; [|split; [|split; [|split]]].
    + unfold lane_fit. rewrite Efit. reflexivity.
    + reflexivity.
    + repeat (apply Forall_cons;
              [simpl; eapply nan_or_within_noinf; eassumption|]).
      apply Forall_nil.
    + exact Hn.
    + intros Hfin. inversion Hfin as [|? ? Hfa Hrest]; subst.
      inversion Hrest as [|? ? Hfb _]; subst. simpl in Hfa, Hfb.
      destruct (isfinite_Fin _ Hfa) as (a & ->).
      destruct (isfinite_Fin _ Hfb) as (b & ->).
      destruct (Hr a b eq_refl eq_refl) as (l & -> & _). reflexivity.
  - destruct Hshape as [HshapeS HshapeV].
    destruct (fit_model_alpha_difference_returns prng fuel r m1 m2 c
                rV m1V m2V cV (Some (PRNGKey prng seed)) (1 / 2)
                default_paramsClip opt 100 (1 / 1000) Lp Ha Hb Lo
                HshapeS HshapeV Hf)
      as (aS & aV & beta & fs & fl & Efit & HS & HV & HB & Hn & Hr).
    exists [("alphaStable"%string, aS); ("alphaVolatile"%string, aV);
            ("beta"%string, beta)], fl.
    split; [|split; [|split; [|split]]].
    + unfold lane_fit. rewrite Efit. reflexivity.
    + reflexivity.
    + repeat (apply Forall_cons;
              [simpl; eapply nan_or_within_noinf; eassumption|]).
      apply Forall_nil.
    + exact Hn.
    + intros Hfin. inversion Hfin as [|? ? Hf1 Hrest]; subst.
      inversion Hrest as [|? ? Hf2 Hrest2]; subst.
      inversion Hrest2 as [|? ? Hf3 _]; subst. simpl in Hf1, Hf2, Hf3.
      destruct (isfinite_Fin _ Hf1) as (x1 & ->).
      destruct (isfinite_Fin _ Hf2) as (x2 & ->).
      destruct (isfinite_Fin _ Hf3) as (x3 & ->).
      destruct (Hr x1 x2 x3 eq_refl eq_refl eq_refl) as (lS & lV & -> & _).
      reflexivity.
Qed.

Lemma stack_runs_well_formed (fit_model : fit_model_t)
  (outs : list (param_vector * xfloat)) :
  well_formed_runs fit_model (length outs)
    (fst (stack_runs fit_model outs)) (snd (stack_runs fit_model outs)).
Proof.
  split; [apply length_map|].
  destruct fit_model; simpl; intros k Hk.
  - destruct Hk as [<- | [<- | []]]; simpl; eexists;
      (split; [reflexivity | apply length_map]).
  - destruct Hk as [<- | [<- | [<- | []]]]; simpl; eexists;
      (split; [reflexivity | apply length_map]).
  - contradiction.
Qed.

Lemma stack_runs_run (fit_model : fit_model_t)
  (outs : list (param_vector * xfloat)) (i : nat) (v : param_vector)
  (l : xfloat) :
  nth_error outs i = Some (v, l) ->
  v = map (fun k => (k, entry k v)) (param_names fit_model) ->
  run_params fit_model (fst (stack_runs fit_model outs)) i = Some v /\
  run_loss (snd (stack_runs fit_model outs)) i = l.
Proof.
  intros E Hv. split.
  - unfold run_params, stack_runs.
    destruct fit_model; cbn [fst param_names map mapM dict_get String.eqb
                               Ascii.eqb Bool.eqb obind];
      rewrite ?(map_nth_error _ _ _ E); cbn [obind fst];
      f_equal; symmetry; exact Hv.
  - unfold run_loss, stack_runs. cbn [snd]. apply nth_error_nth.
    now rewrite (map_nth_error _ _ _ E).
Qed.

(** The runs of one call of [fit_with_multiple_initial_values]: run [i] is
    the fit function on the data of the subject with the key [PRNGKey(i)],
    and the vmapped fit returns its parameters in row [i] of every column
    and its loss in entry [i] of the losses. *)
Lemma multi_start_runs (prng : PRNG) (opt : GradientTransformation)
  (fuel : nat) (fit_model_vectorised : vectorised_fit) (data : list array)
  (nInits : nat) (fit_model : fit_model_t) :
  prng_lawful prng -> lawful opt -> (100 <= fuel)%nat ->
  vmap_of fit_model_vectorised (lane_fit prng opt fuel) ->
  lane_shaped fit_model data ->
  let runs := fit_model_vectorised fit_model
                (map (fun x => tile x nInits) data) (seq 0 nInits) in
  well_formed_runs fit_model nInits (fst runs) (snd runs) /\
  forall i, (i < nInits)%nat ->
    exists v,
      lane_fit prng opt fuel fit_model data i
      = Some (v, run_loss (snd runs) i) /\
      run_params fit_model (fst runs) i = Some v.
Proof.
  intros Lp Lo Hfuel Hvmap Hshape runs.
  destruct (lane_shaped_arity fit_model data Hshape) as (_ & _ & Hne).
  destruct (mapM_total (fun i => lane_fit prng opt fuel fit_model data i)
              (seq 0 nInits)) as (outs & Eouts).
  { intros i _.
    destruct (lane_fit_spec prng opt fuel fit_model data i Lp Lo Hfuel Hshape)
      as (v & l & E & _). eauto. }
  assert (Eruns : runs = stack_runs fit_model outs).
  { apply Hvmap. now rewrite run_lanes_tile. }
  pose proof (mapM_length _ _ _ Eouts) as Hlen. rewrite length_seq in Hlen.
  rewrite Eruns. split.
  - rewrite <- Hlen. apply stack_runs_well_formed.
  - intros i Hi.
    assert (Hseq : nth_error (seq 0 nInits) i = Some i).
    { rewrite nth_error_nth' with (d := 0%nat) by (now rewrite length_seq).
      now rewrite seq_nth. }
    destruct (mapM_nth_error _ _ _ Eouts i i Hseq) as ([v l] & Hv & Ev).
    destruct (lane_fit_spec prng opt fuel fit_model data i Lp Lo Hfuel Hshape)
      as (v' & l' & E' & Hkeys & _).
    assert (v' = v /\ l' = l) as [-> ->] by (split; congruence).
    destruct (stack_runs_run fit_model outs i v l Hv Hkeys) as [Hp Hl].
    exists v. rewrite Hl. now split.
Qed.

(** *** The optimizers and the vmapped fit of the examples *)

Lemma vmapped_vmap_of
  (fit : fit_model_t -> list array -> nat -> option (param_vector * xfloat)) :
  vmap_of (vmapped fit) fit.
Proof. intros fit_model data rngs outs E. unfold vmapped. now rewrite E. Qed.


(** With updates of NaN a run ends at NaN parameters and a NaN loss. *)
Lemma nan_step_lane (seed : nat) :
  lane_fit midpoint_prng (constant_step NaN (Leaf NaN)) 100
    fit_model_same_alpha two_trials seed
  = Some ([("alpha"%string, NaN); ("beta"%string, NaN)], NaN).
Proof. reflexivity. Qed.


Lemma two_trials_shaped : lane_shaped fit_model_same_alpha two_trials.
Proof. repeat split; simpl; lia. Qed.

(** *** The selected run *)



Lemma not_finite_looking_nan (v : param_vector) :
  Forall (fun kv => noinf (snd kv)) v -> ~ finite_looking v ->
  Exists (fun kv => snd kv = NaN) v.
Proof.
  unfold finite_looking. induction 1 as [|[k x] v Hx Hv IH]; intros Hnot.
  - exfalso. apply Hnot. constructor.
  - destruct x as [r | | |].
    + apply Exists_cons_tl. apply IH. intros Hf. apply Hnot.
      constructor; [reflexivity | exact Hf].
    + destruct Hx as [Hx _]. now contradiction Hx.
    + destruct Hx as [_ Hx]. now contradiction Hx.
    + now apply Exists_cons_hd.
Qed.

(** The fit of one subject with [nInits] starts returns a vector with a
    value under every parameter name of the variant. *)
Lemma multi_start_returns (prng : PRNG) (opt : GradientTransformation)
  (fuel : nat) (fit_model_vectorised : vectorised_fit) (data : list array)
  (nInits : nat) (fit_model : fit_model_t) :
  prng_lawful prng -> lawful opt -> (100 <= fuel)%nat ->
  vmap_of fit_model_vectorised (lane_fit prng opt fuel) ->
  lane_shaped fit_model data -> (1 <= nInits)%nat ->
  exists v,
    fit_with_multiple_initial_values fit_model_vectorised data nInits
      fit_model = Some v /\
    forall k, In k (param_names fit_model) ->
      exists x, dict_get k v = Some x.
Proof.
  intros Lp Lo Hfuel Hvmap Hshape Hn.
  destruct (lane_shaped_arity fit_model data Hshape) as (Hsup & Hlen & _).
  destruct (multi_start_runs prng opt fuel fit_model_vectorised data nInits
              fit_model Lp Lo Hfuel Hvmap Hshape) as [Hwf _].
  destruct (fit_with_multiple_initial_values_selected fit_model_vectorised
              data nInits fit_model Hsup Hlen Hn Hwf)
    as (_ & _ & v & Ev & Er).
  exists v. split; [exact Ev|].
  now apply (run_params_keys fit_model _ _ v Er).
Qed.

(** C6: when every run of a subject has a non-finite loss,
    [fit_with_multiple_initial_values] raises nothing and returns the
    parameters of one of these runs; as the loss of a run is the loss at its
    final parameters, and real parameters give a real loss, these parameters
    are not finite-looking: one of them is NaN, the sentinel that surfaces the
    failure.  [fit_multiple_participants] fits every subject on its own lane
    and returns the table of every subject's own selected vector, whether or
    not the fit of another subject is degenerate. *)
Theorem degenerate_fit_surfaces_nan (prng : PRNG)
  (opt : GradientTransformation) (fuel : nat)
  (fit_model_vectorised : vectorised_fit) (nInits : nat)
  (fit_model : fit_model_t) :
  prng_lawful prng -> lawful opt -> (100 <= fuel)%nat ->
  vmap_of fit_model_vectorised (lane_fit prng opt fuel) ->
  (1 <= nInits)%nat ->
  (forall data, lane_shaped fit_model data ->
     let runs := fit_model_vectorised fit_model
                   (map (fun x => tile x nInits) data) (seq 0 nInits) in
     (forall i, (i < nInits)%nat -> isfinite (run_loss (snd runs) i) = false) ->
     exists v,
       fit_with_multiple_initial_values fit_model_vectorised data nInits
         fit_model = Some v /\
       Exists (fun kv => snd kv = NaN) v /\
       surfaces_failure
         (fit_with_multiple_initial_values fit_model_vectorised data nInits
            fit_model)) /\
  (forall data lanes,
     vmap_lanes data = Some lanes ->
     (forall lane, In lane lanes -> lane_shaped fit_model lane) ->
     exists table,
       fit_multiple_participants fit_model_vectorised data nInits fit_model
       = Some table /\
       forall j lane, nth_error lanes j = Some lane ->
         exists v,
           fit_with_multiple_initial_values fit_model_vectorised lane nInits
             fit_model = Some v /\
           forall k, In k (param_names fit_model) ->
             exists col, dict_get k table = Some col /\
                         nth_error col j = dict_get k v).
Proof.
  intros Lp Lo Hfuel Hvmap Hn. split.
  - intros data Hshape runs Hall.
    destruct (lane_shaped_arity fit_model data Hshape) as (Hsup & Hlen & _).
    destruct (multi_start_runs prng opt fuel fit_model_vectorised data nInits
                fit_model Lp Lo Hfuel Hvmap Hshape) as [Hwf Hruns].
    fold runs in Hwf, Hruns.
    destruct (fit_with_multiple_initial_values_selected fit_model_vectorised
                data nInits fit_model Hsup Hlen Hn Hwf)
      as (_ & Hsel & v & Ev & Er).
    fold runs in Hsel, Er.
    destruct (Hruns _ Hsel) as (v' & Elane & Er').
    assert (v' = v) by congruence. subst v'.
    destruct (lane_fit_spec prng opt fuel fit_model data
                (selected_run (snd runs)) Lp Lo Hfuel Hshape)
      as (v' & l' & E' & _ & Hnoinf & _ & Hfin).
    assert (v' = v /\ l' = run_loss (snd runs) (selected_run (snd runs)))
      as [-> ->] by (split; congruence).
    assert (Hnot : ~ finite_looking v).
    { intros Hf. specialize (Hfin Hf). rewrite (Hall _ Hsel) in Hfin.
      discriminate. }
    exists v. split; [exact Ev|].
    split; [now apply not_finite_looking_nan|].
    rewrite Ev. exact Hnot.
  - intros data lanes Hlanes Hshapes.
    destruct (fit_multiple_participants_rows fit_model_vectorised data lanes
                nInits fit_model Hlanes) as (table & Et & _ & Hrows).
    + intros lane Hin.
      apply (multi_start_returns prng opt fuel); auto.
    + exists table. now split.
Qed.

Lemma degenerate_fit_surfaces_nan_witness :
  let fit := vmapped (lane_fit midpoint_prng
                        (constant_step NaN (Leaf NaN)) 100) in
  (exists v,
     fit_with_multiple_initial_values fit two_trials 2 fit_model_same_alpha
     = Some v /\
     Exists (fun kv => snd kv = NaN) v /\
     surfaces_failure
       (fit_with_multiple_initial_values fit two_trials 2
          fit_model_same_alpha)) /\
  (exists table,
     fit_multiple_participants fit two_subjects 2 fit_model_same_alpha
     = Some table /\
     forall j lane,
       nth_error [[[1; 0]; [10; 20]; [30; 5]; [1; 0]];
                  [[0; 1]; [5; 50]; [40; 8]; [0; 1]]] j = Some lane ->
       exists v,
         fit_with_multiple_initial_values fit lane 2 fit_model_same_alpha
         = Some v /\
         forall k, In k (param_names fit_model_same_alpha) ->
           exists col, dict_get k table = Some col /\
                       nth_error col j = dict_get k v).
Proof.
  intros fit.
  destruct (degenerate_fit_surfaces_nan midpoint_prng
              (constant_step NaN (Leaf NaN)) 100 fit 2 fit_model_same_alpha)
    as (Hone & Hall).
  - exact midpoint_prng_lawful.
  - apply constant_step_lawful.
  - lia.
  - apply vmapped_vmap_of.
  - lia.
  - split.
    + apply (Hone two_trials); [exact two_trials_shaped|].
      intros i Hi. destruct i as [|[|i]]; [reflexivity | reflexivity | lia].
    + apply (Hall two_subjects); [reflexivity|].
      intros lane [<- | [<- | []]]; repeat split; simpl; lia.
Defined.

(** ** The split recovery *)

Lemma mapM_rows_default (c : nat) (data : list matrix) :
  forall lane, mapM (fun m : matrix => nth_error m c) data = Some lane ->
    map (fun m : matrix => nth c m []) data = lane.
Proof.
  induction data as [|m data IH]; intros lane E; simpl in E.
  - now injection E as <-.
  - destruct (nth_error m c) as [row|] eqn:En; [|discriminate].
    cbn [obind] in E.
    destruct (mapM _ data) as [rest|]; [|discriminate].
    injection E as <-. simpl.
    now rewrite (nth_error_nth _ _ _ En), (IH rest).
Qed.

(** The lanes of stacked matrices of one height: lane [c] holds row [c] of
    each. *)
Lemma vmap_lanes_rows (data : list matrix) (N : nat) :
  data <> [] -> Forall (fun m : matrix => length m = N) data ->
  exists lanes,
    vmap_lanes data = Some lanes /\ length lanes = N /\
    forall c lane,
      mapM (fun m : matrix => nth_error m c) data = Some lane ->
      nth_error lanes c = Some lane.
Proof.
  intros Hne HF. destruct data as [|m data]; [contradiction|].
  pose proof (Forall_inv HF) as Lm. cbv beta in Lm.
  unfold vmap_lanes.
  assert (Hall : forallb (fun m' : list array =>
                            Nat.eqb (length m') (length m)) (m :: data)
                 = true).
  { apply forallb_forall. intros m' Hin. rewrite Forall_forall in HF.
    rewrite (HF m' Hin), Lm. apply Nat.eqb_refl. }
  rewrite Hall. eexists. split; [reflexivity|]. split.
  - now rewrite length_map, length_seq.
  - intros c lane E.
    assert (Hc : (c < N)%nat).
    { simpl in E. destruct (nth_error m c) eqn:En; [|discriminate].
      rewrite <- Lm. apply nth_error_Some. congruence. }
    rewrite nth_error_map, nth_error_seq, Lm.
    destruct (Nat.ltb_spec c N) as [_ | Hge]; [|lia]. simpl.
    f_equal. exact (mapM_rows_default c (m :: data) lane E).
Qed.

Lemma assign_column_spec {Row : Type} (setter : xfloat -> Row -> Row)
  (frame : list Row) :
  forall column, length column = length frame ->
    exists frame',
      assign_column setter frame column = Some frame' /\
      length frame' = length frame /\
      forall c row v,
        nth_error frame c = Some row -> nth_error column c = Some v ->
        nth_error frame' c = Some (setter v row).
Proof.
  induction frame as [|r frame IH]; intros [|v column] Hlen;
    try discriminate Hlen.
  - exists []. repeat split. intros [|c]; discriminate.
  - destruct (IH column) as (frame' & E & Hl & Hnth); [simpl in Hlen; lia|].
    exists (setter v r :: frame'). simpl. rewrite E. simpl. repeat split.
    + now rewrite Hl.
    + intros [|c] row x Hr Hx; simpl in *.
      * now injection Hr as <-; injection Hx as <-.
      * now apply Hnth.
Qed.

Lemma split_recovery_body_invariant {W : Type} (ext : collaborators W)
  (stableAlphas volatileAlphas betas : array)
  (trueProbabilityStable trueProbabilityVolatile : array)
  (N k : nat) (st : split_state) (w : W) :
  well_shaped ext trueProbabilityStable ->
  well_shaped ext trueProbabilityVolatile ->
  length trueProbabilityVolatile = length trueProbabilityStable ->
  split_invariant ext stableAlphas volatileAlphas betas
    trueProbabilityStable trueProbabilityVolatile N k st ->
  (k < N)%nat ->
  (k < length stableAlphas)%nat -> (k < length volatileAlphas)%nat ->
  (k < length betas)%nat ->
  exists st' w',
    split_recovery_body ext stableAlphas volatileAlphas betas
      trueProbabilityStable trueProbabilityVolatile k (st, w)
    = Some (st', w') /\
    split_invariant ext stableAlphas volatileAlphas betas
      trueProbabilityStable trueProbabilityVolatile N (S k) st'.
Proof.
  intros HshS HshV HTV (HF & Hrows) HkN HkS HkV Hkb.
  unfold split_stacked_data in HF.
  apply Forall_cons_iff in HF as [L1 HF].
  apply Forall_cons_iff in HF as [L2 HF].
  apply Forall_cons_iff in HF as [L3 HF].
  apply Forall_cons_iff in HF as [L4 HF].
  apply Forall_cons_iff in HF as [L5 HF].
  apply Forall_cons_iff in HF as [L6 HF].
  apply Forall_cons_iff in HF as [L7 HF].
  apply Forall_cons_iff in HF as [L8 _].
  unfold split_recovery_body.
  pose proof (schedule_shape ext _ HshS w) as Hs.
  destruct (generate_schedule ext trueProbabilityStable w)
    as [[[s1 s2] s3] w1] eqn:EgS.
  destruct Hs as (Hs1 & Hs2 & Hs3).
  destruct (set_row_spec (opt1RewardedStableMat st) k _ s1 Hs1 ltac:(lia))
    as (rS & -> & LrS & HrS & OrS).
  destruct (set_row_spec (magOpt1StableMat st) k _ s2 Hs2 ltac:(lia))
    as (m1S & -> & Lm1S & Hm1S & Om1S).
  destruct (set_row_spec (magOpt2StableMat st) k _ s3 Hs3 ltac:(lia))
    as (m2S & -> & Lm2S & Hm2S & Om2S).
  cbn [obind].
  pose proof (schedule_shape ext _ HshV w1) as Hv.
  destruct (generate_schedule ext trueProbabilityVolatile w1)
    as [[[v1 v2] v3] w2] eqn:EgV.
  destruct Hv as (Hv1 & Hv2 & Hv3). rewrite HTV in Hv1, Hv2, Hv3.
  destruct (set_row_spec (opt1RewardedVolatileMat st) k _ v1 Hv1 ltac:(lia))
    as (rV & -> & LrV & HrV & OrV).
  destruct (set_row_spec (magOpt1VolatileMat st) k _ v2 Hv2 ltac:(lia))
    as (m1V & -> & Lm1V & Hm1V & Om1V).
  destruct (set_row_spec (magOpt2VolatileMat st) k _ v3 Hv3 ltac:(lia))
    as (m2V & -> & Lm2V & Hm2V & Om2V).
  cbn [obind]. rewrite HrS, Hm1S, Hm2S. cbn [obind].
  rewrite (nth_error_nth' stableAlphas 0 HkS).
  rewrite (nth_error_nth' betas 0 Hkb). cbn [obind].
  set (aS := nth k stableAlphas 0). set (b := nth k betas 0).
  pose proof (simulate_shape ext _ HshS s1 s2 s3 aS b w2 Hs1) as HcpS.
  destruct (simulate_RL_model ext s1 s2 s3 aS b w2) as [[poS cpS] w3] eqn:EsS.
  simpl in HcpS.
  rewrite HrV, Hm1V, Hm2V. cbn [obind].
  rewrite (nth_error_nth' volatileAlphas 0 HkV). cbn [obind].
  set (aV := nth k volatileAlphas 0).
  pose proof (simulate_shape ext _ HshS v1 v2 v3 aV b w3 Hv1) as HcpV.
  destruct (simulate_RL_model ext v1 v2 v3 aV b w3) as [[poV cpV] w4] eqn:EsV.
  simpl in HcpV.
  pose proof (random_shape ext _ HshS (length s1) w4) as HdS.
  destruct (rng_random ext (length s1) w4) as [drawsS w5] eqn:ErS.
  simpl in HdS.
  rewrite (broadcast2_same_length greater_as_int cpS drawsS) by lia.
  cbn [obind].
  set (choicesS := zip_with greater_as_int cpS drawsS).
  assert (LchS : length choicesS = length trueProbabilityStable)
    by (unfold choicesS; rewrite zip_with_length; lia).
  destruct (set_row_spec (choice1StableMat st) k _ choicesS LchS ltac:(lia))
    as (chS & -> & LcS & HcS & OcS).
  cbn [obind].
  pose proof (random_shape ext _ HshS (length v1) w5) as HdV.
  destruct (rng_random ext (length v1) w5) as [drawsV w6] eqn:ErV.
  simpl in HdV.
  rewrite (broadcast2_same_length greater_as_int cpV drawsV) by lia.
  cbn [obind].
  set (choicesV := zip_with greater_as_int cpV drawsV).
  assert (LchV : length choicesV = length trueProbabilityStable)
    by (unfold choicesV; rewrite zip_with_length; lia).
  destruct (set_row_spec (choice1VolatileMat st) k _ choicesV LchV
              ltac:(lia)) as (chV & -> & LcV & HcV & OcV).
  cbn [obind]. eexists; eexists; split; [reflexivity|].
  split.
  - unfold split_stacked_data. cbn.
    repeat (apply Forall_cons; [lia|]). apply Forall_nil.
  - intros c Hc. destruct (Nat.eq_dec c k) as [-> | Hne].
    + exists [s1; s2; s3; choicesS; v1; v2; v3; choicesV], w. split.
      * unfold split_stacked_data. cbn.
        rewrite HrS, Hm1S, Hm2S, HcS, HrV, Hm1V, Hm2V, HcV. reflexivity.
      * fold aS aV b. unfold split_simulated_at. rewrite EgS, EgV.
        exists s1, s2, s3, choicesS, v1, v2, v3, choicesV.
        rewrite !fit_row_exact by assumption.
        do 6 (split; [reflexivity|]).
        rewrite EsS, EsV, ErS, ErV. split; [|split; [|reflexivity]].
        -- exists choicesS. split; [apply broadcast2_same_length; lia|].
           now apply fit_row_exact.
        -- exists choicesV. split; [apply broadcast2_same_length; lia|].
           now apply fit_row_exact.
    + destruct (Hrows c ltac:(lia)) as (lane & wp & El & Hsim).
      exists lane, wp. split; [|exact Hsim].
      unfold split_stacked_data in *. cbn in *.
      now rewrite OrS, Om1S, Om2S, OcS, OrV, Om1V, Om2V, OcV by assumption.
Qed.

Lemma split_loop_invariant {W : Type} (ext : collaborators W)
  (stableAlphas volatileAlphas betas : array)
  (trueProbabilityStable trueProbabilityVolatile : array) (N : nat) :
  well_shaped ext trueProbabilityStable ->
  well_shaped ext trueProbabilityVolatile ->
  length trueProbabilityVolatile = length trueProbabilityStable ->
  (N <= length stableAlphas)%nat -> (N <= length volatileAlphas)%nat ->
  (N <= length betas)%nat ->
  forall m p0 st w,
    (p0 + m = N)%nat ->
    split_invariant ext stableAlphas volatileAlphas betas
      trueProbabilityStable trueProbabilityVolatile N p0 st ->
    exists st' w',
      for_range (seq p0 m)
        (split_recovery_body ext stableAlphas volatileAlphas betas
           trueProbabilityStable trueProbabilityVolatile) (st, w)
      = Some (st', w') /\
      split_invariant ext stableAlphas volatileAlphas betas
        trueProbabilityStable trueProbabilityVolatile N N st'.
Proof.
  intros HshS HshV HTV HS HV HB.
  induction m as [|m IH]; intros p0 st w Hp Hinv.
  - exists st, w. split; [reflexivity|].
    replace N with p0 at 2 by lia. exact Hinv.
  - destruct (split_recovery_body_invariant ext stableAlphas volatileAlphas
                betas trueProbabilityStable trueProbabilityVolatile N p0 st w)
      as (st1 & w1 & E1 & Hinv1); trivial; try lia.
    destruct (IH (S p0) st1 w1) as (st' & w' & E' & Hinv'); [lia | exact Hinv1 |].
    exists st', w'. split; [|exact Hinv'].
    change (seq p0 (S m)) with (p0 :: seq (S p0) m).
    rewrite for_range_cons, E1. exact E'.
Qed.

Lemma simulate_split_invariant {W : Type} (ext : collaborators W)
  (stableAlphas volatileAlphas betas : array)
  (trueProbabilityStable trueProbabilityVolatile : array) (w : W) :
  well_shaped ext trueProbabilityStable ->
  well_shaped ext trueProbabilityVolatile ->
  length trueProbabilityVolatile = length trueProbabilityStable ->
  (length betas <= length stableAlphas)%nat ->
  (length betas <= length volatileAlphas)%nat ->
  exists st w',
    simulate_split ext stableAlphas volatileAlphas betas
      trueProbabilityStable trueProbabilityVolatile w = Some (st, w') /\
    split_invariant ext stableAlphas volatileAlphas betas
      trueProbabilityStable trueProbabilityVolatile
      (length betas) (length betas) st.
Proof.
  intros HshS HshV HTV HS HV. unfold simulate_split, arange.
  apply (split_loop_invariant ext stableAlphas volatileAlphas betas
           trueProbabilityStable trueProbabilityVolatile (length betas)
           HshS HshV HTV HS HV (Nat.le_refl _) (length betas) 0%nat).
  - reflexivity.
  - split.
    + unfold split_stacked_data, zeros. cbn.
      repeat (apply Forall_cons; [apply repeat_length|]). apply Forall_nil.
    + intros c Hc. lia.
Qed.

Lemma seeded_split_runs_contract
  (run : nat -> xfloat * xfloat * xfloat * xfloat) :
  vmap_contract (seeded_split_runs run) fit_model_alpha_difference.
Proof.
  intros data rngs. split; simpl.
  - apply length_map.
  - intros k [<- | [<- | [<- | []]]]; simpl; eexists; split;
      try reflexivity; apply length_map.
Qed.

(** X20: the split recovery returns a table with one row per entry of
    [betas]; lane [p] of the eight stacked matrices handed to the population
    fit is a pair of TrialBatches simulated for subject [p], the stable
    block at [(stableAlphas[p], betas[p])] and the volatile block at
    [(volatileAlphas[p], betas[p])], and row [p] of the table holds the
    three parameters fitted to that very lane. *)
Theorem split_recovery_table_aligned {W : Type}
  (fit_model_vectorised : vectorised_fit) (ext : collaborators W)
  (stableAlphas volatileAlphas betas : array)
  (trueProbabilityStable trueProbabilityVolatile : array)
  (w : W) (nInits : nat) :
  well_shaped ext trueProbabilityStable ->
  well_shaped ext trueProbabilityVolatile ->
  length trueProbabilityVolatile = length trueProbabilityStable ->
  (length betas <= length stableAlphas)%nat ->
  (length betas <= length volatileAlphas)%nat ->
  vmap_contract fit_model_vectorised fit_model_alpha_difference ->
  (1 <= nInits)%nat ->
  exists st lanes table w',
    simulate_split ext stableAlphas volatileAlphas betas
      trueProbabilityStable trueProbabilityVolatile w = Some (st, w') /\
    vmap_lanes (split_stacked_data st) = Some lanes /\
    run_paramterer_recovery_with_difference fit_model_vectorised ext
      stableAlphas volatileAlphas betas trueProbabilityStable
      trueProbabilityVolatile w nInits = Some (table, w') /\
    length table = length betas /\
    length lanes = length betas /\
    forall p, (p < length betas)%nat ->
      exists row lane wp v,
        nth_error table p = Some row /\
        nth_error lanes p = Some lane /\
        split_simulated_at ext trueProbabilityStable trueProbabilityVolatile
          (nth p stableAlphas 0) (nth p volatileAlphas 0) (nth p betas 0)
          wp lane /\
        fit_with_multiple_initial_values fit_model_vectorised lane nInits
          fit_model_alpha_difference = Some v /\
        dict_get "alphaStable" v = Some (alpha_stable row) /\
        dict_get "alphaVolatile" v = Some (alpha_volatile row) /\
        dict_get "beta" v = Some (inverse_temperature row).
Proof.
  intros HshS HshV HTV HS HV Hc Hn.
  destruct (simulate_split_invariant ext stableAlphas volatileAlphas betas
              trueProbabilityStable trueProbabilityVolatile w
              HshS HshV HTV HS HV) as (st & w' & Esim & HF & Hrows).
  destruct (vmap_lanes_rows (split_stacked_data st) (length betas))
    as (lanes & Elanes & Llanes & Hlane); [discriminate | exact HF |].
  destruct (fit_multiple_participants_lanes fit_model_vectorised
              (split_stacked_data st) lanes nInits fit_model_alpha_difference)
    as (ptable & Efit & Hcols & Hfit); trivial; try discriminate.
  destruct (Hcols "alphaStable"%string) as (colS & ES); [simpl; tauto|].
  destruct (Hcols "alphaVolatile"%string) as (colV & EV); [simpl; tauto|].
  destruct (Hcols "beta"%string) as (colB & EB); [simpl; tauto|].
  pose proof (fit_multiple_participants_height _ _ _ _ _ _ Elanes Efit
                _ _ ES) as LS.
  pose proof (fit_multiple_participants_height _ _ _ _ _ _ Elanes Efit
                _ _ EV) as LV.
  pose proof (fit_multiple_participants_height _ _ _ _ _ _ Elanes Efit
                _ _ EB) as LB.
  set (frame0 := repeat zero_fitted_row (length betas)).
  assert (L0 : length frame0 = length betas) by apply repeat_length.
  destruct (assign_column_spec set_alpha_stable frame0 colS)
    as (f1 & E1 & Lf1 & H1); [lia|].
  destruct (assign_column_spec set_alpha_volatile f1 colV)
    as (f2 & E2 & Lf2 & H2); [lia|].
  destruct (assign_column_spec set_inverse_temperature f2 colB)
    as (f3 & E3 & Lf3 & H3); [lia|].
  exists st, lanes, f3, w'. split; [exact Esim|]. split; [exact Elanes|].
  split; [|split; [lia | split; [exact Llanes|]]].
  - unfold run_paramterer_recovery_with_difference. rewrite Esim.
    cbn [obind]. rewrite Efit. cbn [obind]. rewrite ES. cbn [obind].
    fold frame0. rewrite E1. cbn [obind]. rewrite EV. cbn [obind].
    rewrite E2. cbn [obind]. rewrite EB. cbn [obind]. rewrite E3.
    reflexivity.
  - intros p Hp.
    destruct (Hrows p Hp) as (lane & wp & Erow & Hsim).
    pose proof (Hlane p lane Erow) as El.
    destruct (Hfit p _ El) as (v & Ev & Hv).
    destruct (Hv "alphaStable"%string) as (colS' & ES' & NS); [simpl; tauto|].
    destruct (Hv "alphaVolatile"%string) as (colV' & EV' & NV);
      [simpl; tauto|].
    destruct (Hv "beta"%string) as (colB' & EB' & NB); [simpl; tauto|].
    assert (colS' = colS) by congruence. subst colS'.
    assert (colV' = colV) by congruence. subst colV'.
    assert (colB' = colB) by congruence. subst colB'.
    destruct (nth_error colS p) as [vs|] eqn:EvS;
      [|apply nth_error_None in EvS; lia].
    destruct (nth_error colV p) as [vv|] eqn:EvV;
      [|apply nth_error_None in EvV; lia].
    destruct (nth_error colB p) as [vb|] eqn:EvB;
      [|apply nth_error_None in EvB; lia].
    assert (R0 : nth_error frame0 p = Some zero_fitted_row).
    { unfold frame0. rewrite nth_error_repeat by lia. reflexivity. }
    pose proof (H1 p _ vs R0 EvS) as F1.
    pose proof (H2 p _ vv F1 EvV) as F2.
    pose proof (H3 p _ vb F2 EvB) as F3.
    eexists; exists lane, wp, v.
    split; [exact F3|]. split; [exact El|]. split; [exact Hsim|].
    split; [exact Ev|]. simpl. repeat split; congruence.
Qed.

Lemma split_recovery_table_aligned_witness :
  let stableAlphas := [1 / 10; 1 / 2] in
  let volatileAlphas := [3 / 10; 7 / 10] in
  let betas := [1 / 20; 1 / 5] in
  let trueProbabilityStable := [7 / 10; 7 / 10] in
  let trueProbabilityVolatile := [1 / 5; 4 / 5] in
  let fit :=
    seeded_split_runs
      (fun s => (Fin (INR s), Fin (1 / 2), Fin 1, Fin (INR s))) in
  exists st lanes table w',
    simulate_split constant_collaborators stableAlphas volatileAlphas betas
      trueProbabilityStable trueProbabilityVolatile 0%nat = Some (st, w') /\
    vmap_lanes (split_stacked_data st) = Some lanes /\
    run_paramterer_recovery_with_difference fit constant_collaborators
      stableAlphas volatileAlphas betas trueProbabilityStable
      trueProbabilityVolatile 0%nat 2 = Some (table, w') /\
    length table = length betas /\
    length lanes = length betas /\
    forall p, (p < length betas)%nat ->
      exists row lane wp v,
        nth_error table p = Some row /\
        nth_error lanes p = Some lane /\
        split_simulated_at constant_collaborators trueProbabilityStable
          trueProbabilityVolatile
          (nth p stableAlphas 0) (nth p volatileAlphas 0) (nth p betas 0)
          wp lane /\
        fit_with_multiple_initial_values fit lane 2
          fit_model_alpha_difference = Some v /\
        dict_get "alphaStable" v = Some (alpha_stable row) /\
        dict_get "alphaVolatile" v = Some (alpha_volatile row) /\
        dict_get "beta" v = Some (inverse_temperature row).
Proof.
  apply (split_recovery_table_aligned
           (seeded_split_runs
              (fun s => (Fin (INR s), Fin (1 / 2), Fin 1, Fin (INR s))))
           constant_collaborators [1 / 10; 1 / 2] [3 / 10; 7 / 10]
           [1 / 20; 1 / 5] [7 / 10; 7 / 10] [1 / 5; 4 / 5] 0%nat 2).
  - apply constant_collaborators_well_shaped.
  - apply constant_collaborators_well_shaped.
  - reflexivity.
  - simpl. lia.
  - simpl. lia.
  - apply seeded_split_runs_contract.
  - lia.
Defined.

(** A loop raises as soon as its body raises at one index whatever the
    loop variables are. *)
Lemma for_range_raises {S : Type} (body : nat -> S -> option S) (p : nat) :
  (forall s, body p s = None) ->
  forall indices s, In p indices -> for_range indices body s = None.
Proof.
  intros Hp. induction indices as [|i rest IH]; intros s Hin; [contradiction|].
  rewrite for_range_cons.
  destruct (Nat.eq_dec i p) as [-> | Hne]; [now rewrite Hp|].
  destruct (body i s) as [s'|]; [|reflexivity]. cbn [obind].
  apply IH. destruct Hin as [E | Hin]; [contradiction | exact Hin].
Qed.

Lemma split_recovery_body_index_error {W : Type} (ext : collaborators W)
  (stableAlphas volatileAlphas betas : array)
  (trueProbabilityStable trueProbabilityVolatile : array)
  (p : nat) (sw : split_state * W) :
  (length stableAlphas <= p)%nat \/ (length volatileAlphas <= p)%nat ->
  split_recovery_body ext stableAlphas volatileAlphas betas
    trueProbabilityStable trueProbabilityVolatile p sw = None.
Proof.
  intros H. destruct sw as [st w]. unfold split_recovery_body.
  destruct H as [H | H]; apply nth_error_None in H; rewrite H;
    repeat raise_step; reflexivity.
Qed.

(** X21: the split recovery indexes [stableAlphas] and [volatileAlphas]
    with every subject index below [len(betas)]: when one of them is shorter
    than [betas] the call raises and no table is returned. *)
Theorem split_recovery_short_alphas_raises {W : Type}
  (fit_model_vectorised : vectorised_fit) (ext : collaborators W)
  (stableAlphas volatileAlphas betas : array)
  (trueProbabilityStable trueProbabilityVolatile : array)
  (w : W) (nInits : nat) :
  (length stableAlphas < length betas)%nat \/
  (length volatileAlphas < length betas)%nat ->
  run_paramterer_recovery_with_difference fit_model_vectorised ext
    stableAlphas volatileAlphas betas trueProbabilityStable
    trueProbabilityVolatile w nInits = None.
Proof.
  intros H. unfold run_paramterer_recovery_with_difference, simulate_split.
  assert (Hp : exists p, (p < length betas)%nat /\
                 ((length stableAlphas <= p)%nat \/
                  (length volatileAlphas <= p)%nat)).
  { destruct H; [exists (length stableAlphas) | exists (length volatileAlphas)];
      split; auto. }
  destruct Hp as (p & Hlt & Hshort).
  rewrite (for_range_raises _ p); [reflexivity | |].
  - intros s. now apply split_recovery_body_index_error.
  - unfold arange. apply in_seq. lia.
Qed.

Lemma split_recovery_short_alphas_raises_witness :
  run_paramterer_recovery_with_difference
    (seeded_split_runs
       (fun s => (Fin (INR s), Fin (1 / 2), Fin 1, Fin (INR s))))
    constant_collaborators [1 / 10] [3 / 10; 7 / 10] [1 / 20; 1 / 5]
    [7 / 10; 7 / 10] [1 / 5; 4 / 5] 0%nat 2 = None.
Proof.
  apply split_recovery_short_alphas_raises. left. simpl. lia.
Defined.

Lemma fit_row_mismatch (ncols : nat) (v : array) :
  length v <> ncols -> length v <> 1%nat -> fit_row ncols v = None.
Proof.
  intros H1 H2. unfold fit_row.
  destruct (Nat.eqb_spec (length v) ncols); [contradiction|].
  destruct (Nat.eqb_spec (length v) 1); [contradiction | reflexivity].
Qed.

Lemma split_recovery_body_width_error {W : Type} (ext : collaborators W)
  (stableAlphas volatileAlphas betas : array)
  (trueProbabilityStable trueProbabilityVolatile : array)
  (p : nat) (sw : split_state * W) :
  well_shaped ext trueProbabilityVolatile ->
  length trueProbabilityVolatile <> length trueProbabilityStable ->
  length trueProbabilityVolatile <> 1%nat ->
  split_recovery_body ext stableAlphas volatileAlphas betas
    trueProbabilityStable trueProbabilityVolatile p sw = None.
Proof.
  intros HshV Hne H1. destruct sw as [st w]. unfold split_recovery_body.
  destruct (generate_schedule ext trueProbabilityStable w)
    as [[[s1 s2] s3] w1].
  destruct (set_row _ p _ s1); cbn [obind]; [|reflexivity].
  destruct (set_row _ p _ s2); cbn [obind]; [|reflexivity].
  destruct (set_row _ p _ s3); cbn [obind]; [|reflexivity].
  pose proof (schedule_shape ext _ HshV w1) as Hv.
  destruct (generate_schedule ext trueProbabilityVolatile w1)
    as [[[v1 v2] v3] w2].
  destruct Hv as (Hv1 & _).
  unfold set_row at 1. rewrite fit_row_mismatch by congruence.
  reflexivity.
Qed.

(** X22: all eight matrices of the split recovery have
    [len(trueProbabilityStable)] columns.  With at least one subject and
    volatile schedules whose length is neither that nor 1, the first pass
    through the loop raises, at the latest when the volatile schedule is
    stored, and no table is returned. *)
Theorem split_recovery_schedule_lengths {W : Type}
  (fit_model_vectorised : vectorised_fit) (ext : collaborators W)
  (stableAlphas volatileAlphas betas : array)
  (trueProbabilityStable trueProbabilityVolatile : array)
  (w : W) (nInits : nat) :
  well_shaped ext trueProbabilityVolatile ->
  betas <> [] ->
  length trueProbabilityVolatile <> length trueProbabilityStable ->
  length trueProbabilityVolatile <> 1%nat ->
  run_paramterer_recovery_with_difference fit_model_vectorised ext
    stableAlphas volatileAlphas betas trueProbabilityStable
    trueProbabilityVolatile w nInits = None.
Proof.
  intros HshV Hb Hne H1.
  unfold run_paramterer_recovery_with_difference, simulate_split.
  rewrite (for_range_raises _ 0%nat); [reflexivity | |].
  - intros s. now apply split_recovery_body_width_error.
  - unfold arange. apply in_seq. destruct betas; [contradiction|].
    simpl. lia.
Qed.

Lemma split_recovery_schedule_lengths_witness :
  run_paramterer_recovery_with_difference
    (seeded_split_runs
       (fun s => (Fin (INR s), Fin (1 / 2), Fin 1, Fin (INR s))))
    constant_collaborators [1 / 10; 1 / 2] [3 / 10; 7 / 10] [1 / 20; 1 / 5]
    [7 / 10; 7 / 10] [1 / 5; 4 / 5; 1 / 5] 0%nat 2 = None.
Proof.
  apply split_recovery_schedule_lengths.
  - apply constant_collaborators_well_shaped.
  - discriminate.
  - simpl. lia.
  - simpl. lia.
Defined.

(** ** The likelihood landscape *)

Lemma zip_with_nth (f : R -> R -> R) (xs ys : array) :
  forall t, (t < length xs)%nat -> (t < length ys)%nat ->
    nth t (zip_with f xs ys) 0 = f (nth t xs 0) (nth t ys 0).
Proof.
  revert ys. induction xs as [|x xs IH]; intros [|y ys] t Hx Hy;
    simpl in *; try lia.
  destruct t as [|t]; [reflexivity|]. apply IH; lia.
Qed.

Lemma nth_map_array (g : R -> R) (xs : array) (t : nat) :
  (t < length xs)%nat -> nth t (map g xs) 0 = g (nth t xs 0).
Proof.
  intros H. rewrite (nth_indep _ 0 (g 0)) by (now rewrite length_map).
  apply map_nth.
Qed.

Lemma nth_map_seq (g : nat -> R) (n t : nat) :
  (t < n)%nat -> nth t (map g (seq 0 n)) 0 = g t.
Proof.
  intros H.
  rewrite (nth_indep _ 0 (g 0%nat)) by (now rewrite length_map, length_seq).
  now rewrite map_nth, seq_nth.
Qed.

(** The loss with the default utility, trial by trial. *)
Lemma loss_RL_model_by_trial
  (rewarded1 mag1 mag2 choice1 : array) (alpha beta startingProb : R) :
  (1 <= length rewarded1)%nat ->
  length mag1 = length rewarded1 ->
  length mag2 = length rewarded1 ->
  length choice1 = length rewarded1 ->
  let probOpt1 := belief_trajectory rewarded1 alpha startingProb in
  loss_RL_model (rewarded1, mag1, mag2, choice1) (params_ab alpha beta)
    startingProb utility_fun
  = Some (sum_array
            (map (fun t =>
                    sigmoid_binary_cross_entropy1
                      (beta * (getitem mag1 t * getitem probOpt1 t
                               - getitem mag2 t * (1 - getitem probOpt1 t)))
                      (getitem choice1 t))
               (seq 0 (length rewarded1)))
          / INR (length rewarded1)).
Proof.
  intros HT H1 H2 Hc probOpt1. unfold loss_RL_model.
  cbn [params_ab tree_get_0 tree_get_all flat_map
    fst snd String.eqb Ascii.eqb Bool.eqb app obind].
  fold probOpt1.
  assert (Lp : length probOpt1 = length rewarded1)
    by (apply belief_trajectory_length; exact HT).
  unfold utility_fun, sigmoid_binary_cross_entropy.
  rewrite (broadcast2_same_length Rmult mag1 probOpt1) by lia.
  cbn [obind].
  rewrite (broadcast2_same_length Rmult mag2) by (rewrite length_map; lia).
  cbn [obind].
  rewrite (broadcast2_same_length Rminus)
    by (rewrite !zip_with_length, length_map; lia).
  cbn [obind].
  rewrite (broadcast2_same_length sigmoid_binary_cross_entropy1)
    by (rewrite length_map, !zip_with_length, length_map; lia).
  cbn [obind].
  match goal with
  | |- mean ?l = _ => set (losses := l)
  end.
  match goal with
  | |- _ = Some (sum_array ?l / _) => set (by_trial := l)
  end.
  assert (E : losses = by_trial).
  { apply (nth_ext _ _ 0 0).
    - unfold losses, by_trial.
      rewrite !zip_with_length, !length_map, !zip_with_length, length_map,
        length_seq. lia.
    - intros t Ht. unfold losses in Ht.
      rewrite !zip_with_length, !length_map, !zip_with_length, length_map
        in Ht.
      unfold losses, by_trial.
      rewrite nth_map_seq by lia.
      rewrite zip_with_nth
        by (rewrite ?length_map, ?zip_with_length, ?length_map; lia).
      rewrite nth_map_array
        by (rewrite ?zip_with_length, ?length_map; lia).
      rewrite zip_with_nth
        by (rewrite ?zip_with_length, ?length_map; lia).
      rewrite !zip_with_nth by (rewrite ?length_map; lia).
      rewrite nth_map_array by lia.
      now rewrite !getitem_nth by lia. }
  rewrite E. unfold mean.
  destruct by_trial eqn:Eb.
  - apply (f_equal (@length R)) in Eb. unfold by_trial in Eb.
    rewrite length_map, length_seq in Eb. simpl in Eb. lia.
  - rewrite <- Eb. f_equal. f_equal. f_equal.
    unfold by_trial. now rewrite length_map, length_seq.
Qed.

Lemma cross_entropy_log_likelihood (z c : R) :
  binary c ->
  ln (bernoulli (sigmoid z) c) = - sigmoid_binary_cross_entropy1 z c.
Proof.
  intros Hc. rewrite cross_entropy_of_sigmoid.
  unfold bernoulli, binary_cross_entropy.
  destruct Hc as [-> | ->].
  - replace (0 * sigmoid z + (1 - 0) * (1 - sigmoid z)) with (1 - sigmoid z)
      by ring.
    ring.
  - replace (1 * sigmoid z + (1 - 1) * (1 - sigmoid z)) with (sigmoid z)
      by ring.
    ring.
Qed.

Lemma sum_array_map_opp {A : Type} (f g : A -> R) (l : list A) :
  (forall x, In x l -> f x = - g x) ->
  sum_array (map f l) = - sum_array (map g l).
Proof.
  induction l as [|x l IH]; intros H; simpl.
  - ring.
  - rewrite (H x) by now left. rewrite IH by (intros; apply H; now right).
    ring.
Qed.

Lemma getitem_In (a : array) (t : nat) : a <> [] -> In (getitem a t) a.
Proof.
  intros Hne. unfold getitem. apply nth_In.
  destruct a; [contradiction | simpl; lia].
Qed.

Lemma mapM_In {A B : Type} (f : A -> option B) (xs : list A) :
  forall ys, mapM f xs = Some ys ->
    forall y, In y ys -> exists x, In x xs /\ f x = Some y.
Proof.
  induction xs as [|x0 xs IH]; intros ys E y Hy; simpl in E.
  - injection E as <-. contradiction.
  - destruct (f x0) as [y0|] eqn:E0; [|discriminate]. cbn [obind] in E.
    destruct (mapM f xs) as [ys'|]; [|discriminate].
    injection E as <-. destruct Hy as [<- | Hy].
    + exists x0. split; [now left | exact E0].
    + destruct (IH ys' eq_refl y Hy) as (x & Hx & Ex).
      exists x. split; [now right | exact Ex].
Qed.

(** The matrix of log likelihoods is defined on a TrialBatch; every entry
    is minus the loss at its grid point times the number of trials. *)
Lemma LLMatrix_defined (rewarded1 mag1 mag2 choice1 : array) :
  (1 <= length rewarded1)%nat ->
  length mag1 = length rewarded1 ->
  length mag2 = length rewarded1 ->
  length choice1 = length rewarded1 ->
  exists LL,
    Plotting.LLMatrix (rewarded1, mag1, mag2, choice1) = Some LL /\
    length LL = length Plotting.alphaRange /\
    (forall row, In row LL -> length row = length Plotting.betaRange) /\
    forall a b alpha beta,
      nth_error Plotting.alphaRange a = Some alpha ->
      nth_error Plotting.betaRange b = Some beta ->
      exists row loss,
        nth_error LL a = Some row /\
        nth_error row b = Some (- loss * INR (length rewarded1)) /\
        loss_RL_model (rewarded1, mag1, mag2, choice1) (params_ab alpha beta)
          (1 / 2) utility_fun = Some loss.
Proof.
  intros HT H1 H2 Hc. unfold Plotting.LLMatrix.
  set (entry := fun alpha beta =>
         loss <- loss_RL_model (rewarded1, mag1, mag2, choice1)
                   (params_ab alpha beta) (1 / 2) utility_fun ;;
         Some (- loss * INR (length rewarded1))).
  set (line := fun alpha => mapM (entry alpha) Plotting.betaRange).
  assert (Hentry : forall alpha beta, exists y, entry alpha beta = Some y).
  { intros alpha beta. unfold entry.
    rewrite (loss_RL_model_by_trial rewarded1 mag1 mag2 choice1 alpha beta
               (1 / 2) HT H1 H2 Hc).
    cbn [obind]. eauto. }
  destruct (mapM_total line Plotting.alphaRange) as (LL & ELL).
  { intros alpha _. unfold line. apply mapM_total. intros beta _.
    apply Hentry. }
  exists LL. split; [exact ELL|]. split; [exact (mapM_length _ _ _ ELL)|].
  split.
  - intros row Hrow.
    destruct (mapM_In _ _ _ ELL row Hrow) as (alpha & _ & Erow).
    exact (mapM_length _ _ _ Erow).
  - intros a b alpha beta Ha Hb.
    destruct (mapM_nth_error _ _ _ ELL a alpha Ha) as (row & Hrow & Erow).
    destruct (mapM_nth_error _ _ _ Erow b beta Hb) as (y & Hy & Ey).
    unfold entry in Ey.
    destruct (loss_RL_model _ (params_ab alpha beta) _ _) as [loss|] eqn:El;
      [|discriminate].
    cbn [obind] in Ey. injection Ey as <-.
    exists row, loss. auto.
Qed.

(** X23: on a TrialBatch the log-likelihood surface of the landscape plot
    is defined, with one row per value of [alphaRange] and one column per
    value of [betaRange]; its entry at [(a, b)], minus the mean loss times
    the number of trials, is the sum over the trials of the log probability
    the model with [(alphaRange[a], betaRange[b])], starting belief 0.5 and
    the default utility gives to the observed choice. *)
Theorem landscape_log_likelihood (rewarded1 mag1 mag2 choice1 : array) :
  (1 <= length rewarded1)%nat ->
  length mag1 = length rewarded1 ->
  length mag2 = length rewarded1 ->
  length choice1 = length rewarded1 ->
  Forall binary choice1 ->
  exists LL,
    Plotting.LLMatrix (rewarded1, mag1, mag2, choice1) = Some LL /\
    length LL = length Plotting.alphaRange /\
    (forall row, In row LL -> length row = length Plotting.betaRange) /\
    forall a b,
      (a < length Plotting.alphaRange)%nat ->
      (b < length Plotting.betaRange)%nat ->
      nth b (nth a LL []) 0
      = sum_array
          (choice_log_likelihoods (rewarded1, mag1, mag2, choice1)
             (nth a Plotting.alphaRange 0) (nth b Plotting.betaRange 0)
             (1 / 2)).
Proof.
  intros HT H1 H2 Hc Hbin.
  destruct (LLMatrix_defined rewarded1 mag1 mag2 choice1 HT H1 H2 Hc)
    as (LL & ELL & LLL & Hrows & Hentries).
  exists LL. split; [exact ELL|]. split; [exact LLL|].
  split; [exact Hrows|].
  intros a b Ha Hb.
  pose proof (nth_error_nth' Plotting.alphaRange 0 Ha) as EA.
  pose proof (nth_error_nth' Plotting.betaRange 0 Hb) as EB.
  set (alpha := nth a Plotting.alphaRange 0) in *.
  set (beta := nth b Plotting.betaRange 0) in *.
  clearbody alpha beta.
  destruct (Hentries a b alpha beta EA EB) as (row & loss & Erow & Ey & El).
  rewrite (nth_error_nth _ _ _ Erow), (nth_error_nth _ _ _ Ey).
  rewrite (loss_RL_model_by_trial rewarded1 mag1 mag2 choice1 _ _ (1 / 2)
             HT H1 H2 Hc) in El.
  injection El as <-.
  unfold choice_log_likelihoods, arange.
  match goal with
  | |- - (sum_array (map ?g ?l) / _) * _ = sum_array (map ?f ?l) =>
      rewrite (sum_array_map_opp f g l)
  end.
  - field. apply not_0_INR. lia.
  - intros t _. apply cross_entropy_log_likelihood.
    rewrite Forall_forall in Hbin. apply Hbin, getitem_In.
    destruct choice1; [simpl in Hc; lia | discriminate].
Qed.

Lemma landscape_log_likelihood_witness :
  let data := ([1; 0], [10; 20], [20; 10], [1; 0]) in
  exists LL,
    Plotting.LLMatrix data = Some LL /\
    length LL = length Plotting.alphaRange /\
    (forall row, In row LL -> length row = length Plotting.betaRange) /\
    forall a b,
      (a < length Plotting.alphaRange)%nat ->
      (b < length Plotting.betaRange)%nat ->
      nth b (nth a LL []) 0
      = sum_array
          (choice_log_likelihoods data
             (nth a Plotting.alphaRange 0) (nth b Plotting.betaRange 0)
             (1 / 2)).
Proof.
  apply (landscape_log_likelihood [1; 0] [10; 20] [20; 10] [1; 0]);
    try reflexivity.
  - simpl. lia.
  - apply Forall_cons; [right; reflexivity|].
    apply Forall_cons; [left; reflexivity|]. apply Forall_nil.
Defined.
